(** * The embedding service of depth-knowledge-forge

    A shallow embedding of [src/services/EmbeddingService.ts]: the singleton
    [EmbeddingServiceClass] with its lazy backend initialisation, the text
    preprocessing and chunking helpers, cosine similarity and the ranked
    retrieval built on it. The handlers of
    [src/components/DocumentManager.tsx] that call the service, and the
    submit handler of [src/components/SearchInterface.tsx], follow it.

    - A JavaScript [number] is an IEEE 754 binary64 value: Rocq's primitive
      [float], whose operations are specified by [FloatAxioms] against
      [SpecFloat]. [Math.sqrt] is read as the correctly rounded square root.
    - A JavaScript string is a sequence of UTF-16 code units.
    - Integer-valued parameters (slice bounds, chunk sizes, limits) are [Z].
    - [async] methods are run to completion one at a time; what they await
      (the model pipeline, the extractor) is supplied by an [Environment].
    - A thrown exception is a [Throw] completion; effects on the service
      object and on the console are threaded through a small state monad. *)

From Stdlib Require Import String Ascii DecimalString.
From Stdlib Require Import ZArith NArith Bool Lia Floats.
From Stdlib Require Import List Sorted Permutation.
Import ListNotations.

Set Implicit Arguments.
Local Open Scope Z_scope.

(** ** JavaScript values *)

Definition number : Set := float.

(** A UTF-16 code unit. *)
Definition char16 : Set := N.

Definition jsstring : Set := list char16.

(** A string literal of the source, as code units. *)
Definition js (s : string) : jsstring := map N_of_ascii (list_ascii_of_string s).
Arguments js s%_string.

(** [new Error(message)]. *)
Inductive JsError : Set := Error (message : string).
Arguments Error message%_string.

(** The two errors the service throws; the specification calls them
    [InitializationError] and [DimensionMismatchError]. *)
Definition InitializationError : JsError :=
  Error "Failed to initialize local embedding model".
Definition DimensionMismatchError : JsError :=
  Error "Embeddings must have the same dimension".

(** How a call ends: with a value or with a thrown error. *)
Inductive Completion (A : Type) : Type :=
| Return (a : A)
| Throw (e : JsError).
Arguments Return {A} a.
Arguments Throw {A} e.

(** ** Arrays *)

(** [Array.prototype.slice(start, end)] for integer bounds: a negative bound
    counts from the end, and both are clamped to the array. *)
Definition slice {A : Type} (l : list A) (start end_ : Z) : list A :=
  let len := Z.of_nat (length l) in
  let k := if start <? 0 then Z.max (len + start) 0 else Z.min start len in
  let final := if end_ <? 0 then Z.max (len + end_) 0 else Z.min end_ len in
  firstn (Z.to_nat (final - k)) (skipn (Z.to_nat k) l).

(** [Array.prototype.join(sep)] on an array of strings. *)
Fixpoint join (sep : jsstring) (l : list jsstring) : jsstring :=
  match l with
  | [] => []
  | [w] => w
  | w :: rest => w ++ sep ++ join sep rest
  end.

(** [Array.prototype.map] with a callback that may throw: the first throw
    ends the call. *)
Fixpoint Array_map {A B : Type} (f : A -> Completion B) (l : list A)
  : Completion (list B) :=
  match l with
  | [] => Return []
  | x :: rest =>
      match f x with
      | Throw e => Throw e
      | Return y =>
          match Array_map f rest with
          | Throw e => Throw e
          | Return ys => Return (y :: ys)
          end
      end
  end.

(** ** Character classes of the regular expressions *)

Local Open Scope N_scope.

(** [\s]: WhiteSpace and LineTerminator code units. *)
Definition is_whitespace (c : char16) : bool :=
  (c =? 9) || (c =? 10) || (c =? 11) || (c =? 12) || (c =? 13) || (c =? 32)
  || (c =? 160) || (c =? 5760) || ((8192 <=? c) && (c <=? 8202))
  || (c =? 8232) || (c =? 8233) || (c =? 8239) || (c =? 8287)
  || (c =? 12288) || (c =? 65279).

(** [\w]: ASCII letters, digits and the underscore. *)
Definition is_word (c : char16) : bool :=
  ((65 <=? c) && (c <=? 90)) || ((97 <=? c) && (c <=? 122))
  || ((48 <=? c) && (c <=? 57)) || (c =? 95).

(** The complement of the class [[^\w\s.,!?-]]: what the second [replace]
    of [preprocessText] keeps. *)
Definition is_kept (c : char16) : bool :=
  is_word c || is_whitespace c
  || (c =? 46) || (c =? 44) || (c =? 33) || (c =? 63) || (c =? 45).

Definition SPACE : char16 := 32.

Local Close Scope N_scope.

(** ** preprocessText *)

(** [s.replace(/\s+/g, ' ')]: every maximal run of whitespace becomes one
    space. [in_run] tells that the previous code unit was whitespace. *)
Fixpoint replace_whitespace_runs (in_run : bool) (s : jsstring) : jsstring :=
  match s with
  | [] => []
  | c :: rest =>
      if is_whitespace c
      then if in_run then replace_whitespace_runs true rest
           else SPACE :: replace_whitespace_runs true rest
      else c :: replace_whitespace_runs false rest
  end.

(** [s.replace(/[^\w\s.,!?-]/g, '')]. *)
Definition remove_special (s : jsstring) : jsstring := filter is_kept s.

Fixpoint trim_start (s : jsstring) : jsstring :=
  match s with
  | [] => []
  | c :: rest => if is_whitespace c then trim_start rest else s
  end.

Definition trim_end (s : jsstring) : jsstring := rev (trim_start (rev s)).

(** [String.prototype.trim]. *)
Definition trim (s : jsstring) : jsstring := trim_end (trim_start s).

Definition preprocessText (text : jsstring) : jsstring :=
  let cleaned := trim (remove_special (replace_whitespace_runs false text)) in
  slice cleaned 0 4000.

(** ** chunkText *)

(** [text.split(/\s+/)]: the pieces between maximal runs of whitespace.
    A run at either end leaves an empty piece there, and the empty string
    splits into one empty piece. [piece] is the current piece, reversed. *)
Fixpoint split_loop (in_run : bool) (piece : jsstring) (s : jsstring)
  : list jsstring :=
  match s with
  | [] => [rev piece]
  | c :: rest =>
      if is_whitespace c
      then if in_run then split_loop true [] rest
           else rev piece :: split_loop true [] rest
      else split_loop false (c :: piece) rest
  end.

Definition split_whitespace (text : jsstring) : list jsstring :=
  split_loop false [] text.

(** The [for] loop of [chunkText]. It has no bound of its own, so the
    model counts iterations: [None] means the loop was still running when
    [fuel] ran out. *)
Fixpoint chunk_loop (fuel : nat) (words : list jsstring) (chunkSize overlap : Z)
  (i : Z) (chunks : list jsstring) : option (list jsstring) :=
  match fuel with
  | O => None
  | S fuel' =>
      if i <? Z.of_nat (length words)
      then
        let chunk := join [SPACE] (slice words i (i + chunkSize)) in
        chunk_loop fuel' words chunkSize overlap (i + (chunkSize - overlap))
                   (chunks ++ [chunk])
      else Some chunks
  end.

Definition chunkText (fuel : nat) (text : jsstring) (chunkSize overlap : Z)
  : option (list jsstring) :=
  chunk_loop fuel (split_whitespace text) chunkSize overlap 0 [].

(** The default parameters of the signature. *)
Definition default_chunkSize : Z := 500.
Definition default_overlap : Z := 50.

(** [chunkText] ends with the array [chunks]. *)
Definition chunkText_returns (text : jsstring) (chunkSize overlap : Z)
  (chunks : list jsstring) : Prop :=
  exists n, forall fuel, (n <= fuel)%nat ->
    chunkText fuel text chunkSize overlap = Some chunks.

(** ** calculateSimilarity *)

(** The accumulators [dotProduct], [norm1] and [norm2]. *)
Record Accumulators : Set :=
  { dotProduct : number; norm1 : number; norm2 : number }.

(** [count] iterations of the loop body from index [i]. Reading past the
    end of an array would give [undefined], which is NaN in arithmetic; it
    does not happen when the lengths agree. *)
Fixpoint similarity_loop (count i : nat) (embedding1 embedding2 : list number)
  (acc : Accumulators) : Accumulators :=
  match count with
  | O => acc
  | S count' =>
      let x := nth i embedding1 nan in
      let y := nth i embedding2 nan in
      similarity_loop count' (S i) embedding1 embedding2
        {| dotProduct := (dotProduct acc + x * y)%float;
           norm1 := (norm1 acc + x * x)%float;
           norm2 := (norm2 acc + y * y)%float |}
  end.

Definition calculateSimilarity (embedding1 embedding2 : list number)
  : Completion number :=
  if negb (Nat.eqb (length embedding1) (length embedding2))
  then Throw DimensionMismatchError
  else
    let acc := similarity_loop (length embedding1) 0 embedding1 embedding2
                 {| dotProduct := 0%float; norm1 := 0%float; norm2 := 0%float |} in
    Return (dotProduct acc / (sqrt (norm1 acc) * sqrt (norm2 acc)))%float.

(** The formula of the specification: the dot product summed from the
    left, the Euclidean norm as the root of a vector's dot product with
    itself, and their quotient. *)
Definition dot64 (a b : list number) : number :=
  fold_left (fun acc xy => (acc + fst xy * snd xy)%float) (combine a b) 0%float.

Definition norm64 (a : list number) : number := sqrt (dot64 a a).

Definition cosine64 (a b : list number) : number :=
  (dot64 a b / (norm64 a * norm64 b))%float.

(** ** findSimilarDocuments *)

(** An entry of [documentEmbeddings]; [Metadata] stands for [any]. *)
Record Document (Metadata : Type) : Type :=
  { id : jsstring; embedding : list number; metadata : Metadata }.

(** [{ ...doc, similarity }]. *)
Record ScoredDocument (Metadata : Type) : Type :=
  { doc : Document Metadata; similarity : number }.

Section Ranking.
Variable Metadata : Type.

(** The comparator [(a, b) => b.similarity - a.similarity]. *)
Definition comparefn (a b : ScoredDocument Metadata) : number :=
  (similarity b - similarity a)%float.

(** ECMAScript's SortCompare: a comparator result of NaN counts as +0. *)
Definition SortCompare (a b : ScoredDocument Metadata) : number :=
  let v := comparefn a b in
  if PrimFloat.is_nan v then 0%float else v.

(** [Array.prototype.sort(comparefn)]. ECMAScript (2019 on) requires the
    sort to be stable, which fixes its result for a consistent comparator:
    the elements in comparator order, ties in their original order. The
    stable insertion sort computes that result ([Array_sort_determined]
    below): [x] goes after [y] only when [SortCompare x y > 0]. *)
Fixpoint sort_insert (x : ScoredDocument Metadata)
  (l : list (ScoredDocument Metadata)) : list (ScoredDocument Metadata) :=
  match l with
  | [] => [x]
  | y :: rest =>
      if (0 <? SortCompare x y)%float
      then y :: sort_insert x rest
      else x :: y :: rest
  end.

Definition Array_sort (l : list (ScoredDocument Metadata))
  : list (ScoredDocument Metadata) :=
  fold_right sort_insert [] l.

(** The callback of [documentEmbeddings.map]. *)
Definition score (queryEmbedding : list number) (d : Document Metadata)
  : Completion (ScoredDocument Metadata) :=
  match calculateSimilarity queryEmbedding (embedding d) with
  | Throw e => Throw e
  | Return s => Return {| doc := d; similarity := s |}
  end.

(** [doc => doc.similarity >= threshold]. *)
Definition passes (threshold : number) (d : ScoredDocument Metadata) : bool :=
  (threshold <=? similarity d)%float.

Definition findSimilarDocuments (queryEmbedding : list number)
  (documentEmbeddings : list (Document Metadata))
  (threshold : number) (limit : Z)
  : Completion (list (ScoredDocument Metadata)) :=
  match Array_map (score queryEmbedding) documentEmbeddings with
  | Throw e => Throw e
  | Return similarities =>
      Return (slice (Array_sort (filter (passes threshold) similarities)) 0 limit)
  end.

(** Two entries tie when their similarities are equal as numbers. *)
Definition same_similarity (s : number) (d : ScoredDocument Metadata) : bool :=
  (similarity d =? s)%float.

(** Descending order of similarity. *)
Definition descending (a b : ScoredDocument Metadata) : Prop :=
  (similarity b <=? similarity a)%float = true.
End Ranking.

(** The default parameters of the signature. *)
Definition default_threshold : number := 0.5%float.
Definition default_limit : Z := 5.

(** ** The service object and its effects *)

(** The [device] option of [pipeline]. *)
Inductive Device : Set := webgpu | cpu.

(** What [pipeline('feature-extraction', ...)] resolves to: called on a text
    (with mean pooling and normalisation) it yields the tensor's data, or
    fails. *)
Definition Extractor : Type := jsstring -> Completion (list number).

(** The fields of [EmbeddingServiceClass]; [extractor] starts as [null]. *)
Record EmbeddingServiceClass : Type :=
  { extractor : option Extractor; isInitialized : bool }.

Definition new_EmbeddingServiceClass : EmbeddingServiceClass :=
  {| extractor := None; isInitialized := false |}.

(** What a call does that can be seen from outside the service object. *)
Inductive Event : Type :=
| console_log (message : string)
| console_warn (message : string) (error : JsError)
| console_error (message : string) (error : JsError)
| pipeline_called (device : Device)
| extractor_called (text : jsstring).

(** What the world answers during one call: how each [pipeline] request
    settles, and the successive results of [Math.random()]. *)
Record Environment : Type :=
  { pipeline : Device -> Completion Extractor;
    Math_random : nat -> number }.

(** A method run to completion: its completion, the service object it
    leaves, and the events it caused, oldest first. *)
Record Outcome (A : Type) : Type :=
  { completion : Completion A;
    this_after : EmbeddingServiceClass;
    events : list Event }.

Definition Method (A : Type) : Type := EmbeddingServiceClass -> Outcome A.

Definition ret {A : Type} (a : A) : Method A :=
  fun this => {| completion := Return a; this_after := this; events := [] |}.

Definition throw {A : Type} (e : JsError) : Method A :=
  fun this => {| completion := Throw e; this_after := this; events := [] |}.

Definition bind {A B : Type} (m : Method A) (k : A -> Method B) : Method B :=
  fun this =>
    let '(Build_Outcome c this1 evs) := m this in
    match c with
    | Throw e => {| completion := Throw e; this_after := this1; events := evs |}
    | Return a =>
        let '(Build_Outcome c' this2 evs') := k a this1 in
        {| completion := c'; this_after := this2; events := evs ++ evs' |}
    end.

(** [try { body } catch (error) { handler }]: what [body] did before it
    threw stays done. *)
Definition try_catch {A : Type} (body : Method A) (handler : JsError -> Method A)
  : Method A :=
  fun this =>
    let '(Build_Outcome c this1 evs) := body this in
    match c with
    | Return a => {| completion := Return a; this_after := this1; events := evs |}
    | Throw e =>
        let '(Build_Outcome c' this2 evs') := handler e this1 in
        {| completion := c'; this_after := this2; events := evs ++ evs' |}
    end.

Definition read_this : Method EmbeddingServiceClass :=
  fun this => {| completion := Return this; this_after := this; events := [] |}.

Definition emit (ev : Event) : Method unit :=
  fun this => {| completion := Return tt; this_after := this; events := [ev] |}.

(** [this.extractor = ex]. *)
Definition set_extractor (ex : Extractor) : Method unit :=
  fun this =>
    {| completion := Return tt;
       this_after := {| extractor := Some ex; isInitialized := isInitialized this |};
       events := [] |}.

(** [this.isInitialized = b]. *)
Definition set_isInitialized (b : bool) : Method unit :=
  fun this =>
    {| completion := Return tt;
       this_after := {| extractor := extractor this; isInitialized := b |};
       events := [] |}.

(** [await] of a request whose settlement the environment gives. *)
Definition await {A : Type} (ev : Event) (settled : Completion A) : Method A :=
  fun this => {| completion := settled; this_after := this; events := [ev] |}.

Notation "x <- m ;; k" := (bind m (fun x => k))
  (at level 61, m at next level, right associativity).
Notation "m ;; k" := (bind m (fun _ => k))
  (at level 61, right associativity).

Definition initialize (env : Environment) : Method unit :=
  this <- read_this ;;
  (if isInitialized this then ret tt
   else
     try_catch
       (emit (console_log "Initializing local embedding model...") ;;
        ex <- await (pipeline_called webgpu) (pipeline env webgpu) ;;
        set_extractor ex ;;
        set_isInitialized true ;;
        emit (console_log "Embedding model initialized successfully"))
       (fun error =>
          emit (console_warn "WebGPU not available, falling back to CPU:" error) ;;
          try_catch
            (ex <- await (pipeline_called cpu) (pipeline env cpu) ;;
             set_extractor ex ;;
             set_isInitialized true ;;
             emit (console_log "Embedding model initialized on CPU"))
            (fun cpuError =>
               emit (console_error "Failed to initialize embedding model:" cpuError) ;;
               throw InitializationError))).

(** [await this.extractor(cleanText, { pooling: 'mean', normalize: true })]
    followed by [Array.from(result.data)]. Calling [null] throws. *)
Definition call_extractor (cleanText : jsstring) : Method (list number) :=
  this <- read_this ;;
  match extractor this with
  | None => throw (Error "this.extractor is not a function")
  | Some ex => await (extractor_called cleanText) (ex cleanText)
  end.

(** The callback [() => Math.random() * 2 - 1] over the filled array; [k]
    counts the draws made so far. *)
Fixpoint map_random (env : Environment) (filled : list number) (k : nat)
  : list number :=
  match filled with
  | [] => []
  | _ :: rest =>
      (Math_random env k * 2 - 1)%float :: map_random env rest (S k)
  end.

(** [new Array(384).fill(0).map(() => Math.random() * 2 - 1)]. *)
Definition dummy_embedding (env : Environment) : list number :=
  map_random env (repeat 0%float 384) 0.

Definition decimal (n : nat) : string := NilEmpty.string_of_uint (Nat.to_uint n).

Definition generateEmbedding (env : Environment) (text : jsstring)
  : Method (list number) :=
  this <- read_this ;;
  (if negb (isInitialized this) then initialize env else ret tt) ;;
  try_catch
    (let cleanText := preprocessText text in
     embedding <- call_extractor cleanText ;;
     emit (console_log ("Generated embedding for text ("
                          ++ decimal (length cleanText) ++ " chars): "
                          ++ decimal (length embedding) ++ " dimensions")%string) ;;
     ret embedding)
    (fun error =>
       emit (console_error "Error generating embedding:" error) ;;
       ret (dummy_embedding env)).

(** [Math.random()] returns a number that is at least 0 and less than 1. *)
Definition random_in_unit_interval (env : Environment) : Prop :=
  forall k, (0 <=? Math_random env k)%float = true
            /\ (Math_random env k <? 1)%float = true.

(** A component within [-1, 1]. *)
Definition within_unit (x : number) : Prop :=
  (-1 <=? x)%float = true /\ (x <=? 1)%float = true.

(** ** Reading binary64 values

    The order of binary64 numbers is the order of integers: a finite value
    [m * 2^e] (with [e >= -1074]) is read as the integer [m * 2^(e + 1074)],
    an infinity as an integer beyond every finite value, and NaN as
    nothing. *)

Definition scaled (m : positive) (e : Z) : Z := Z.pos m * 2 ^ (e + 1074).

Definition huge : Z := 2 ^ 2100.

Definition key (x : spec_float) : option Z :=
  match x with
  | S754_nan => None
  | S754_zero _ => Some 0
  | S754_infinity s => Some (cond_Zopp s huge)
  | S754_finite s m e => Some (cond_Zopp s (scaled m e))
  end.

Definition fkey (x : float) : option Z := key (Prim2SF x).

Definition is_finite_SF (x : spec_float) : bool :=
  match x with S754_zero _ | S754_finite _ _ _ => true | _ => false end.

(** A binary64 zero of either sign, or NaN. *)
Definition zero_or_nan (x : float) : Prop :=
  match Prim2SF x with
  | S754_zero _ | S754_nan => True
  | _ => False
  end.

(** A vector all of whose components are zeros ([x == 0] in JavaScript). *)
Definition is_zero_vector (a : list number) : Prop :=
  Forall (fun x => (x =? 0)%float = true) a.

(** ** Properties of texts used to state what preprocessText does *)

(** No two neighbouring code units are both whitespace. *)
Fixpoint no_adjacent_whitespace (s : jsstring) : bool :=
  match s with
  | c1 :: (c2 :: _) as rest =>
      negb (is_whitespace c1 && is_whitespace c2) && no_adjacent_whitespace rest
  | _ => true
  end.

(** The first code unit, if any, is not whitespace. *)
Definition starts_clean (s : jsstring) : Prop :=
  match s with
  | [] => True
  | c :: _ => is_whitespace c = false
  end.

(** The last code unit, if any, is not whitespace. *)
Definition ends_clean (s : jsstring) : Prop := starts_clean (rev s).

(** The code units that are not whitespace, in order. *)
Definition visible (s : jsstring) : jsstring :=
  filter (fun c => negb (is_whitespace c)) s.

(** ** The chunks as the specification describes them

    With step [chunkSize - overlap], chunk number [i] starts at word index
    [i * step] and holds up to [chunkSize] words joined by single spaces;
    there is one chunk for every start index below the word count. *)

Definition chunk_start (chunkSize overlap : Z) (i : nat) : Z :=
  Z.of_nat i * (chunkSize - overlap).

Definition words_of_chunk (words : list jsstring) (chunkSize overlap : Z) (i : nat)
  : list jsstring :=
  firstn (Z.to_nat chunkSize)
         (skipn (Z.to_nat (chunk_start chunkSize overlap i)) words).

Definition spec_chunk (words : list jsstring) (chunkSize overlap : Z) (i : nat)
  : jsstring :=
  join [SPACE] (words_of_chunk words chunkSize overlap i).

(** The number of start indices [i * step] below the word count. *)
Definition spec_chunk_count (words : list jsstring) (chunkSize overlap : Z) : nat :=
  Z.to_nat ((Z.of_nat (length words) + (chunkSize - overlap) - 1)
            / (chunkSize - overlap)).

Definition spec_chunks (text : jsstring) (chunkSize overlap : Z) : list jsstring :=
  let words := split_whitespace text in
  map (spec_chunk words chunkSize overlap)
      (seq 0 (spec_chunk_count words chunkSize overlap)).

(** ** Notions used to state what generateEmbedding does *)

(** [after] is the service object once the backend is in place: [this]
    itself when it was initialized already, and otherwise what a successful
    [initialize] leaves. *)
Definition backend_in_place (env : Environment)
  (this after : EmbeddingServiceClass) : Prop :=
  (isInitialized this = true /\ after = this)
  \/ (isInitialized this = false
      /\ completion (initialize env this) = Return tt
      /\ after = this_after (initialize env this)).

(** The feature-extraction call on [cleanText] fails: the extractor throws
    (or rejects), or there is none to call. *)
Definition extraction_fails (after : EmbeddingServiceClass) (cleanText : jsstring)
  : Prop :=
  match extractor after with
  | None => True
  | Some ex => exists e, ex cleanText = Throw e
  end.

(** Both attempts of [initialize] to acquire a backend fail. *)
Definition no_backend (env : Environment) : Prop :=
  (exists e, pipeline env webgpu = Throw e)
  /\ (exists e, pipeline env cpu = Throw e).

(** [|x - y| <= tol]. *)
Definition within_tolerance (tol x y : number) : bool :=
  (abs (x - y) <=? tol)%float.
Arguments within_tolerance (tol x y)%_float.

(** ** Concrete inputs of the examples *)

Definition example_doc (name : string) (e : list number) : Document unit :=
  {| id := js name; embedding := e; metadata := tt |}.
Arguments example_doc name%_string e.

(** Three documents; against the query [[1, 0]] the first and the third
    score 1 and the second scores 0. *)
Definition example_docs : list (Document unit) :=
  [ example_doc "first" [1; 0]%float;
    example_doc "second" [0; 1]%float;
    example_doc "third" [2; 0]%float ].

(** A zero document among others. *)
Definition example_docs_with_zero : list (Document unit) :=
  [ example_doc "zero" [0; 0]%float; example_doc "first" [1; 0]%float ].

(** No backend can be acquired. *)
Definition env_no_backend : Environment :=
  {| pipeline := fun _ => Throw (Error "no backend");
     Math_random := fun _ => 0.5%float |}.

(** WebGPU is missing, the CPU backend loads, and the model then fails on
    every text. *)
Definition env_failing_model : Environment :=
  {| pipeline := fun d =>
       match d with
       | webgpu => Throw (Error "no WebGPU")
       | cpu => Return (fun _ => Throw (Error "model error"))
       end;
     Math_random := fun _ => 0.25%float |}.

(** The CPU backend loads and the model answers with a fixed vector. *)
Definition env_working_model : Environment :=
  {| pipeline := fun d =>
       match d with
       | webgpu => Throw (Error "no WebGPU")
       | cpu => Return (fun _ => Return [1; 0]%float)
       end;
     Math_random := fun _ => 0.25%float |}.

(** A mantissa of exactly 53 digits: that of a normal number. *)
Definition normal_mantissa (m : positive) : Prop := 2 ^ 52 <= Z.pos m < 2 ^ 53.

(** * The rest of the service and its callers *)

(** ** generateEmbeddings *)

(** The [for ... of] loop over [texts]; [k] counts the texts done, and
    [envs k] is what the world answers during the call of
    [generateEmbedding] on text number [k]. *)
Fixpoint generateEmbeddings_loop (envs : nat -> Environment) (k : nat)
  (texts : list jsstring) (embeddings : list (list number))
  : Method (list (list number)) :=
  match texts with
  | [] => ret embeddings
  | text :: rest =>
      embedding <- generateEmbedding (envs k) text ;;
      generateEmbeddings_loop envs (S k) rest (embeddings ++ [embedding])
  end.

(** [env] is what the world answers during the method's own call of
    [initialize]. *)
Definition generateEmbeddings (env : Environment) (envs : nat -> Environment)
  (texts : list jsstring) : Method (list (list number)) :=
  this <- read_this ;;
  (if negb (isInitialized this) then initialize env else ret tt) ;;
  generateEmbeddings_loop envs 0 texts [].

(** ** Notions used to state what the methods do and never do *)

(** A request for a pipeline. *)
Definition is_pipeline_call (ev : Event) : bool :=
  match ev with pipeline_called _ => true | _ => false end.

(** A call of the extractor. *)
Definition is_extractor_call (ev : Event) : bool :=
  match ev with extractor_called _ => true | _ => false end.

(** One of the two backends can be acquired. *)
Definition backend_available (env : Environment) : Prop :=
  exists ex, pipeline env webgpu = Return ex \/ pipeline env cpu = Return ex.

(** An initialized service whose model fails on every text. *)
Definition service_with_failing_model : EmbeddingServiceClass :=
  {| extractor := Some (fun _ => Throw (Error "model error"));
     isInitialized := true |}.

(** An initialized service whose model answers every text with one
    vector. *)
Definition service_with_working_model : EmbeddingServiceClass :=
  {| extractor := Some (fun _ => Return [1; 0]%float); isInitialized := true |}.

(** ** Texts before and after preprocessText *)

(** A text that [preprocessText] has nothing to do on. *)
Definition clean_text (s : jsstring) : Prop :=
  Forall (fun c => is_kept c = true) s
  /\ Forall (fun c => is_whitespace c = true -> c = SPACE) s
  /\ no_adjacent_whitespace s = true
  /\ starts_clean s /\ ends_clean s
  /\ (length s <= 4000)%nat.

(** The code units that survive [preprocessText] whatever their
    neighbours: kept by the second [replace] and not whitespace. *)
Definition is_content (c : char16) : bool := is_kept c && negb (is_whitespace c).

(** ** The pieces of a split *)

(** A word: no code unit of it is whitespace. *)
Definition is_wordlike (w : jsstring) : Prop :=
  Forall (fun c => is_whitespace c = false) w.

(** Every piece but the last is non-empty. *)
Fixpoint nonempty_but_last (l : list jsstring) : Prop :=
  match l with
  | [] => True
  | [w] => True
  | w :: rest => w <> [] /\ nonempty_but_last rest
  end.

(** Only the first and the last piece may be empty. *)
Definition empty_only_at_ends (l : list jsstring) : Prop :=
  match l with
  | [] => True
  | _ :: rest => nonempty_but_last rest
  end.

(** ** Vectors with NaN *)

(** Some component of the vector is NaN. *)
Definition has_nan (a : list number) : Prop :=
  Exists (fun x => PrimFloat.is_nan x = true) a.

(** ** The document manager

    The handlers of [src/components/DocumentManager.tsx] that call the
    service. What a handler does to the page (state setters, the
    [onDocumentsUpdate] callback, toasts) is recorded as a list of effects,
    next to what it does to the service object. *)

(** An array length or index as a JavaScript number. *)
Definition number_of_nat (n : nat) : number :=
  PrimFloat.of_uint63 (Uint63.of_Z (Z.of_nat n)).

(** [a === b] on strings: the same sequence of code units. *)
Fixpoint strict_equal (a b : jsstring) : bool :=
  match a, b with
  | [], [] => true
  | x :: a', y :: b' => N.eqb x y && strict_equal a' b'
  | _, _ => false
  end.

Declare Scope handler_scope.

Module DocumentManager.

(** A [Date], as its time value. *)
Definition Date : Set := Z.

Record Metadata : Set :=
  { source : jsstring; uploadedAt : Date; wordCount : nat }.

Record Document : Set :=
  { id : jsstring;
    title : jsstring;
    content : jsstring;
    embedding : list number;
    metadata : Metadata }.

(** A [File] of the input element: its name and what reading it as text
    gives ([None] when the [FileReader] reports an error). *)
Record File : Set := { name : jsstring; text : option jsstring }.

Inductive Variant : Set := default | destructive.

Inductive Effect : Type :=
| setIsProcessing (value : bool)
| setProcessingProgress (value : number)
| onDocumentsUpdate (documents : list Document)
| toast (title description : string) (variant : Variant)
| console_error (message : string) (error : JsError)
| fileInput_cleared
| service (ev : Event).

(** What the page answers during one handler call: the environment of the
    call of [generateEmbedding] number [i], the results of
    [crypto.randomUUID()] and of [new Date()] for document number [i], and
    whether [fileInputRef.current] is set. *)
Record World : Type :=
  { embedding_env : nat -> Environment;
    randomUUID : nat -> jsstring;
    new_Date : nat -> Date;
    fileInputRef_current : bool }.

Record Result (A : Type) : Type :=
  { outcome : Completion A;
    service_after : EmbeddingServiceClass;
    effects : list Effect }.

Definition Handler (A : Type) : Type := EmbeddingServiceClass -> Result A.

Definition ret {A : Type} (a : A) : Handler A :=
  fun this => {| outcome := Return a; service_after := this; effects := [] |}.

Definition bind {A B : Type} (m : Handler A) (k : A -> Handler B) : Handler B :=
  fun this =>
    let '(Build_Result c this1 effs) := m this in
    match c with
    | Throw e => {| outcome := Throw e; service_after := this1; effects := effs |}
    | Return a =>
        let '(Build_Result c' this2 effs') := k a this1 in
        {| outcome := c'; service_after := this2; effects := effs ++ effs' |}
    end.

Definition effect (eff : Effect) : Handler unit :=
  fun this => {| outcome := Return tt; service_after := this; effects := [eff] |}.

(** [await] of a promise that is settled already. *)
Definition settled {A : Type} (c : Completion A) : Handler A :=
  fun this => {| outcome := c; service_after := this; effects := [] |}.

(** A call of a method of [EmbeddingService]. *)
Definition call {A : Type} (m : Method A) : Handler A :=
  fun this =>
    let '(Build_Outcome c this1 evs) := m this in
    {| outcome := c; service_after := this1; effects := map service evs |}.

(** [try { body } catch (error) { handler } finally { finalizer }], for a
    finalizer that completes normally. *)
Definition try_catch_finally {A : Type} (body : Handler A)
  (handler : JsError -> Handler A) (finalizer : Handler unit) : Handler A :=
  fun this =>
    let '(Build_Result c this1 effs) := body this in
    let '(Build_Result c' this2 effs') :=
      match c with
      | Return a => {| outcome := Return a; service_after := this1; effects := effs |}
      | Throw e =>
          let '(Build_Result ch thish effsh) := handler e this1 in
          {| outcome := ch; service_after := thish; effects := effs ++ effsh |}
      end in
    let '(Build_Result cf this3 effsf) := finalizer this2 in
    match cf with
    | Return _ => {| outcome := c'; service_after := this3; effects := effs' ++ effsf |}
    | Throw e => {| outcome := Throw e; service_after := this3; effects := effs' ++ effsf |}
    end.

Notation "x <- m ;; k" := (bind m (fun x => k))
  (at level 61, m at next level, right associativity) : handler_scope.
Notation "m ;; k" := (bind m (fun _ => k))
  (at level 61, right associativity) : handler_scope.
Local Open Scope handler_scope.

(** [readFileAsText]: the promise resolves with the text or rejects. *)
Definition readFileAsText (file : File) : Completion jsstring :=
  match text file with
  | Some result => Return result
  | None => Throw (Error "Failed to read file")
  end.

(** [((i + 1) / total) * 100]. *)
Definition progress (i total : nat) : number :=
  (number_of_nat (i + 1) / number_of_nat total * 100)%float.

(** The [for] loop of [handleFileUpload] from index [i] on; [files] are
    the files still to process and [total] is [files.length]. *)
Fixpoint upload_loop (w : World) (total i : nat) (files : list File)
  (newDocuments : list Document) : Handler (list Document) :=
  match files with
  | [] => ret newDocuments
  | file :: rest =>
      content <- settled (readFileAsText file) ;;
      embedding <- call (generateEmbedding (embedding_env w i) content) ;;
      let document :=
        {| id := randomUUID w i;
           title := name file;
           content := content;
           embedding := embedding;
           metadata := {| source := name file;
                          uploadedAt := new_Date w i;
                          wordCount := length (split_whitespace content) |} |} in
      effect (setProcessingProgress (progress i total)) ;;
      upload_loop w total (S i) rest (newDocuments ++ [document])
  end.

Definition handleFileUpload (w : World) (documents : list Document)
  (files : list File) : Handler unit :=
  if Nat.eqb (length files) 0 then ret tt
  else
    effect (setIsProcessing true) ;;
    effect (setProcessingProgress 0%float) ;;
    try_catch_finally
      (newDocuments <- upload_loop w (length files) 0 files [] ;;
       let updatedDocuments := documents ++ newDocuments in
       effect (onDocumentsUpdate updatedDocuments) ;;
       effect (toast "Documents processed successfully"
                 ("Added " ++ decimal (length newDocuments)
                    ++ " document(s) with local embeddings")%string default))
      (fun error =>
         effect (console_error "Error processing documents:" error) ;;
         effect (toast "Error processing documents"
                   "Please try again or check file format" destructive))
      (effect (setIsProcessing false) ;;
       effect (setProcessingProgress 0%float) ;;
       if fileInputRef_current w then effect fileInput_cleared else ret tt).

Definition handleDeleteDocument (documents : list Document) (id0 : jsstring)
  : list Effect :=
  let updatedDocuments :=
    filter (fun doc => negb (strict_equal (id doc) id0)) documents in
  [ onDocumentsUpdate updatedDocuments;
    toast "Document removed" "Document and its embedding have been deleted" default ].

(** [{ ...doc, embedding: newEmbedding }]. *)
Definition with_embedding (doc : Document) (newEmbedding : list number) : Document :=
  {| id := id doc; title := title doc; content := content doc;
     embedding := newEmbedding; metadata := metadata doc |}.

(** The [for] loop of [handleRegenerateEmbeddings] from index [i] on;
    [rest] are the documents still to process. *)
Fixpoint regenerate_loop (w : World) (total i : nat) (rest : list Document)
  (updatedDocuments : list Document) : Handler (list Document) :=
  match rest with
  | [] => ret updatedDocuments
  | doc :: rest' =>
      newEmbedding <- call (generateEmbedding (embedding_env w i) (content doc)) ;;
      effect (setProcessingProgress (progress i total)) ;;
      regenerate_loop w total (S i) rest'
        (updatedDocuments ++ [with_embedding doc newEmbedding])
  end.

Definition handleRegenerateEmbeddings (w : World) (documents : list Document)
  : Handler unit :=
  if Nat.eqb (length documents) 0 then ret tt
  else
    effect (setIsProcessing true) ;;
    effect (setProcessingProgress 0%float) ;;
    try_catch_finally
      (updatedDocuments <- regenerate_loop w (length documents) 0 documents [] ;;
       effect (onDocumentsUpdate updatedDocuments) ;;
       effect (toast "Embeddings regenerated"
                 ("Updated embeddings for " ++ decimal (length documents)
                    ++ " document(s)")%string default))
      (fun error =>
         effect (console_error "Error regenerating embeddings:" error) ;;
         effect (toast "Error regenerating embeddings" "Please try again" destructive))
      (effect (setIsProcessing false) ;;
       effect (setProcessingProgress 0%float)).

(** The word total of the badge:
    [documents.reduce((acc, doc) => acc + doc.metadata.wordCount, 0)]. *)
Definition total_words (documents : list Document) : nat :=
  fold_left (fun acc doc => (acc + wordCount (metadata doc))%nat) documents 0%nat.

Definition is_update (eff : Effect) : bool :=
  match eff with onDocumentsUpdate _ => true | _ => false end.

Definition is_pipeline_request (eff : Effect) : bool :=
  match eff with service (pipeline_called _) => true | _ => false end.

(** The fields of a document that regenerating its embedding keeps. *)
Definition unchanged_fields (doc : Document)
  : jsstring * jsstring * jsstring * Metadata :=
  (id doc, title doc, content doc, metadata doc).

(** The [FileReader] can read the file. *)
Definition readable (file : File) : Prop := text file <> None.

(** What [handleFileUpload] makes of a file that it could read. *)
Definition made_from (file : File) (doc : Document) : Prop :=
  title doc = name file
  /\ text file = Some (content doc)
  /\ source (metadata doc) = name file
  /\ wordCount (metadata doc) = length (split_whitespace (content doc)).

Definition error_toast : Effect :=
  toast "Error processing documents" "Please try again or check file format" destructive.

Definition regenerate_error_toast : Effect :=
  toast "Error regenerating embeddings" "Please try again" destructive.

(** What every handler call ends with. *)
Definition reset_effects : list Effect :=
  [setIsProcessing false; setProcessingProgress 0%float].

(** A page whose model loads on the CPU and answers every text. *)
Definition example_world : World :=
  {| embedding_env := fun _ => env_working_model;
     randomUUID := fun i => js "id" ++ [N.of_nat (48 + i)];
     new_Date := fun _ => 0;
     fileInputRef_current := true |}.

(** A page on which no backend can be acquired. *)
Definition example_world_without_backend : World :=
  {| embedding_env := fun _ => env_no_backend;
     randomUUID := fun i => js "id" ++ [N.of_nat (48 + i)];
     new_Date := fun _ => 0;
     fileInputRef_current := true |}.

Definition example_files : list File :=
  [ {| name := js "a.txt"; text := Some (js "one two") |};
    {| name := js "b.md"; text := Some (js "") |} ].

Definition example_documents : list Document :=
  [ {| id := js "id0"; title := js "a.txt"; content := js "one two";
       embedding := [0; 1]%float;
       metadata := {| source := js "a.txt"; uploadedAt := 0; wordCount := 2 |} |};
    {| id := js "id1"; title := js "b.md"; content := js "";
       embedding := [0; 1]%float;
       metadata := {| source := js "b.md"; uploadedAt := 0; wordCount := 1 |} |} ].

End DocumentManager.

(** ** The search form

    [handleSubmit] of [src/components/SearchInterface.tsx]. *)

Module SearchInterface.

Inductive Effect : Set :=
| preventDefault
| onSearch (query : jsstring).

(** A string in a condition: the empty string is falsy. *)
Definition truthy (s : jsstring) : bool :=
  match s with
  | [] => false
  | _ :: _ => true
  end.

Definition handleSubmit (query : jsstring) (isProcessing : bool) : list Effect :=
  preventDefault
    :: (if truthy (trim query) && negb isProcessing
        then [onSearch (trim query)]
        else []).

End SearchInterface.

(** * Facts about binary64 arithmetic

    Proved from the specification of the primitive operations in
    [SpecFloat]: each operation is the exact result rounded to nearest. *)

Unset Implicit Arguments.

(** ** The order of binary64 numbers, read on their keys *)

Lemma digits2_pos_bounds (m : positive) :
  2 ^ (Z.pos (digits2_pos m) - 1) <= Z.pos m < 2 ^ Z.pos (digits2_pos m).
Proof.
  induction m as [m IH | m IH |]; cbn [digits2_pos].
  - rewrite Pos2Z.inj_succ. change (Z.pos m~1) with (2 * Z.pos m + 1).
    replace (Z.succ (Z.pos (digits2_pos m)) - 1) with (Z.succ (Z.pos (digits2_pos m) - 1)) by lia.
    rewrite !Z.pow_succ_r by lia.
    generalize dependent (2 ^ (Z.pos (digits2_pos m) - 1)).
    generalize (2 ^ Z.pos (digits2_pos m)). intros; lia.
  - rewrite Pos2Z.inj_succ. change (Z.pos m~0) with (2 * Z.pos m).
    replace (Z.succ (Z.pos (digits2_pos m)) - 1) with (Z.succ (Z.pos (digits2_pos m) - 1)) by lia.
    rewrite !Z.pow_succ_r by lia.
    generalize dependent (2 ^ (Z.pos (digits2_pos m) - 1)).
    generalize (2 ^ Z.pos (digits2_pos m)). intros; lia.
  - cbn. lia.
Qed.

Lemma valid_finite_inv s m e :
  valid_binary (S754_finite s m e) = true ->
  -1074 <= e <= 971 /\ Z.pos (digits2_pos m) <= 53 /\
  (-1074 < e -> Z.pos (digits2_pos m) = 53).
Proof.
  cbn [SpecFloat.valid_binary]. unfold bounded, canonical_mantissa, fexp, SpecFloat.emin, emax, prec.
  rewrite andb_true_iff, Z.eqb_eq, Z.leb_le. lia.
Qed.




Lemma scaled_pos m e : -1074 <= e -> 0 < scaled m e.
Proof. intros. unfold scaled. assert (0 < 2 ^ (e + 1074)) by (apply Z.pow_pos_nonneg; lia). nia. Qed.

Lemma scaled_lt_big s m e :
  valid_binary (S754_finite s m e) = true -> scaled m e < huge.
Proof.
  intros H. apply valid_finite_inv in H. destruct H as (He & Hd & _).
  pose proof (digits2_pos_bounds m) as [_ Hm].
  unfold scaled.
  assert (Z.pos m < 2 ^ 53).
  { eapply Z.lt_le_trans; [exact Hm|]. apply Z.pow_le_mono_r; lia. }
  assert (2 ^ (e + 1074) <= 2 ^ 2045) by (apply Z.pow_le_mono_r; lia).
  assert (0 < 2 ^ (e + 1074)) by (apply Z.pow_pos_nonneg; lia).
  unfold huge. replace (2 ^ 2100) with (2 ^ 53 * 2 ^ 2047) by (rewrite <- Z.pow_add_r by lia; reflexivity).
  assert (2 ^ 2045 < 2 ^ 2047) by (apply Z.pow_lt_mono_r; lia).
  nia.
Qed.

Lemma scaled_compare m1 e1 m2 e2 s1 s2 :
  valid_binary (S754_finite s1 m1 e1) = true ->
  valid_binary (S754_finite s2 m2 e2) = true ->
  match e1 ?= e2 with
  | Lt => Lt | Gt => Gt | Eq => Pos.compare_cont Eq m1 m2 end
  = (scaled m1 e1 ?= scaled m2 e2).
Proof.
  intros H1 H2. apply valid_finite_inv in H1, H2.
  destruct H1 as (He1 & Hd1 & Hn1), H2 as (He2 & Hd2 & Hn2).
  pose proof (digits2_pos_bounds m1) as [Hl1 Hu1].
  pose proof (digits2_pos_bounds m2) as [Hl2 Hu2].
  assert (B1 : Z.pos m1 < 2 ^ 53).
  { eapply Z.lt_le_trans; [exact Hu1|]. apply Z.pow_le_mono_r; lia. }
  assert (B2 : Z.pos m2 < 2 ^ 53).
  { eapply Z.lt_le_trans; [exact Hu2|]. apply Z.pow_le_mono_r; lia. }
  unfold scaled.
  destruct (Z.compare_spec e1 e2) as [E|L|G].
  - subst e2. change (Pos.compare_cont Eq m1 m2) with (Pos.compare m1 m2).
    assert (0 < 2 ^ (e1 + 1074)) by (apply Z.pow_pos_nonneg; lia).
    symmetry. destruct (Pos.compare_spec m1 m2) as [E|L|G].
    + subst m2. apply Z.compare_refl.
    + apply Z.compare_lt_iff. nia.
    + apply Z.compare_gt_iff. nia.
  - symmetry. apply Z.compare_lt_iff.
    rewrite Hn2 in Hl2 by lia. change (2 ^ (53 - 1)) with 4503599627370496 in Hl2.
    change (2 ^ 53) with 9007199254740992 in B1.
    replace (e2 + 1074) with ((e2 - e1) + (e1 + 1074)) by lia.
    rewrite (Z.pow_add_r 2 (e2 - e1) (e1 + 1074)), Z.mul_assoc by lia.
    apply Z.mul_lt_mono_pos_r; [apply Z.pow_pos_nonneg; lia|].
    assert (2 ^ 1 <= 2 ^ (e2 - e1)) by (apply Z.pow_le_mono_r; lia).
    change (2 ^ 1) with 2 in *. nia.
  - symmetry. apply Z.compare_gt_iff.
    rewrite Hn1 in Hl1 by lia. change (2 ^ (53 - 1)) with 4503599627370496 in Hl1.
    change (2 ^ 53) with 9007199254740992 in B2.
    replace (e1 + 1074) with ((e1 - e2) + (e2 + 1074)) by lia.
    rewrite (Z.pow_add_r 2 (e1 - e2) (e2 + 1074)), Z.mul_assoc by lia.
    apply Z.mul_lt_mono_pos_r; [apply Z.pow_pos_nonneg; lia|].
    assert (2 ^ 1 <= 2 ^ (e1 - e2)) by (apply Z.pow_le_mono_r; lia).
    change (2 ^ 1) with 2 in *. nia.
Qed.

Lemma SFcompare_key x y a b :
  valid_binary x = true -> valid_binary y = true ->
  key x = Some a -> key y = Some b ->
  SFcompare x y = Some (a ?= b).
Proof.
  intros Vx Vy Kx Ky.
  destruct x as [sx|sx| |sx mx ex], y as [sy|sy| |sy my ey]; cbn [key] in Kx, Ky;
    try discriminate; injection Kx as <-; injection Ky as <-; cbn [SFcompare].
  - reflexivity.
  - destruct sy; reflexivity.
  - pose proof (scaled_pos my ey). apply valid_finite_inv in Vy.
    destruct sy; cbn [cond_Zopp]; f_equal; symmetry;
     [apply (proj2 (Z.compare_gt_iff _ _)) | apply (proj2 (Z.compare_lt_iff _ _))]; lia.
  - destruct sx; reflexivity.
  - destruct sx, sy; reflexivity.
  - pose proof (scaled_lt_big _ _ _ Vy). pose proof (scaled_pos my ey).
    apply valid_finite_inv in Vy.
    destruct sx, sy; cbn [cond_Zopp]; f_equal; symmetry;
     first [apply (proj2 (Z.compare_gt_iff _ _)) | apply (proj2 (Z.compare_lt_iff _ _))]; lia.
  - pose proof (scaled_pos mx ex). apply valid_finite_inv in Vx.
    destruct sx; cbn [cond_Zopp]; f_equal; symmetry;
     [apply (proj2 (Z.compare_lt_iff _ _)) | apply (proj2 (Z.compare_gt_iff _ _))]; lia.
  - pose proof (scaled_lt_big _ _ _ Vx). pose proof (scaled_pos mx ex).
    apply valid_finite_inv in Vx.
    destruct sx, sy; cbn [cond_Zopp]; f_equal; symmetry;
     first [apply (proj2 (Z.compare_gt_iff _ _)) | apply (proj2 (Z.compare_lt_iff _ _))]; lia.
  - pose proof (scaled_compare _ _ _ _ _ _ Vx Vy) as C.
    pose proof (scaled_compare _ _ _ _ _ _ Vy Vx) as C'.
    pose proof (scaled_pos mx ex). pose proof (scaled_pos my ey).
    apply valid_finite_inv in Vx, Vy.
    destruct sx, sy; cbn [cond_Zopp]; f_equal.
    + rewrite Z.compare_opp. rewrite <- C'.
      rewrite (Z.compare_antisym ey ex).
      destruct (ey ?= ex); cbn; try reflexivity.
      change (Pos.compare_cont Eq mx my) with (Pos.compare mx my).
      change (Pos.compare_cont Eq my mx) with (Pos.compare my mx).
      rewrite (Pos.compare_antisym my mx). apply CompOpp_involutive.
    + symmetry. apply (proj2 (Z.compare_lt_iff _ _)). lia.
    + symmetry. apply (proj2 (Z.compare_gt_iff _ _)). lia.
    + exact C.
Qed.

(** ** Shifts and rounding to 53 digits *)

Lemma fexp64 x : fexp prec emax x = Z.max (x - 53) (-1074).
Proof. reflexivity. Qed.

Lemma iter_pos_nat {A} (f : A -> A) p x :
  iter_pos f p x = Nat.iter (Pos.to_nat p) f x.
Proof.
  revert x. induction p as [p IH|p IH|]; intros x; cbn [iter_pos].
  - rewrite !IH, Pos2Nat.inj_xI.
    replace (2 * Pos.to_nat p)%nat with (Pos.to_nat p + Pos.to_nat p)%nat by lia.
    rewrite Nat.iter_succ_r, Nat.iter_add. reflexivity.
  - rewrite !IH, Pos2Nat.inj_xO.
    replace (2 * Pos.to_nat p)%nat with (Pos.to_nat p + Pos.to_nat p)%nat by lia.
    rewrite Nat.iter_add. reflexivity.
  - reflexivity.
Qed.

Lemma shr_1_m mrs : 0 <= shr_m mrs -> shr_m (shr_1 mrs) = shr_m mrs / 2.
Proof.
  destruct mrs as [m r s]. cbn [shr_m shr_1]. intros Hm.
  destruct m as [|p|p]; [reflexivity| |lia].
  destruct p as [p|p|]; cbn [shr_m].
  - change (Z.pos p~1) with (2 * Z.pos p + 1). 
    apply Z.div_unique with 1; lia.
  - change (Z.pos p~0) with (2 * Z.pos p).
    apply Z.div_unique with 0; lia.
  - reflexivity.
Qed.

Lemma shr_iter_m n mrs :
  0 <= shr_m mrs -> shr_m (Nat.iter n shr_1 mrs) = shr_m mrs / 2 ^ Z.of_nat n.
Proof.
  intros Hm. induction n as [|n IH].
  - cbn. now rewrite Z.div_1_r.
  - rewrite Nat.iter_succ. rewrite shr_1_m.
    + rewrite IH, Nat2Z.inj_succ, Z.pow_succ_r by lia.
      rewrite Z.div_div by (try apply Z.pow_pos_nonneg; lia).
      f_equal. lia.
    + rewrite IH. apply Z.div_pos; [lia | apply Z.pow_pos_nonneg; lia].
Qed.

Lemma shr_m_iter_pos p mrs :
  0 <= shr_m mrs -> shr_m (iter_pos shr_1 p mrs) = shr_m mrs / 2 ^ Z.pos p.
Proof.
  intros. rewrite iter_pos_nat, shr_iter_m, positive_nat_Z by assumption. reflexivity.
Qed.

Lemma shr_1_exact z :
  0 <= z -> shr_1 (Build_shr_record (2 * z) false false) = Build_shr_record z false false.
Proof. intros Hz. destruct z as [|p|p]; [reflexivity|reflexivity|lia]. Qed.

Lemma shr_iter_exact n z :
  0 <= z ->
  Nat.iter n shr_1 (Build_shr_record (z * 2 ^ Z.of_nat n) false false)
  = Build_shr_record z false false.
Proof.
  intros Hz. revert z Hz. induction n as [|n IH]; intros z Hz.
  - change (Nat.iter 0 shr_1 ?x) with x. f_equal. cbn. lia.
  - rewrite Nat.iter_succ_r. rewrite Nat2Z.inj_succ, Z.pow_succ_r by lia.
    replace (z * (2 * 2 ^ Z.of_nat n)) with (2 * (z * 2 ^ Z.of_nat n)) by lia.
    rewrite shr_1_exact; [apply IH; lia|].
    apply Z.mul_nonneg_nonneg; [lia | apply Z.pow_nonneg; lia].
Qed.

Lemma Zdigits2_unique z k :
  0 < z -> 2 ^ (k - 1) <= z < 2 ^ k -> Zdigits2 z = k.
Proof.
  intros Hz [Hl Hu]. destruct z as [|p|p]; try lia. cbn [Zdigits2].
  pose proof (digits2_pos_bounds p) as [Hl' Hu'].
  assert (0 < k).
  { destruct (Z.le_gt_cases k 0) as [Hk|]; [|assumption].
    assert (2 ^ k <= 2 ^ 0) by (apply Z.pow_le_mono_r; lia). cbn in *. lia. }
  assert (k - 1 < Z.pos (digits2_pos p)).
  { apply (Z.pow_lt_mono_r_iff 2); lia. }
  assert (Z.pos (digits2_pos p) - 1 < k).
  { apply (Z.pow_lt_mono_r_iff 2); lia. }
  lia.
Qed.

Lemma digits2_pos_shift m d :
  Z.pos (digits2_pos (Pos.iter xO m d)) = Z.pos (digits2_pos m) + Z.pos d
  /\ Z.pos (Pos.iter xO m d) = Z.pos m * 2 ^ Z.pos d.
Proof.
  induction d as [|d IH] using Pos.peano_ind.
  - cbn [Pos.iter digits2_pos]. split; [lia|]. change (2 ^ 1) with 2. lia.
  - rewrite Pos.iter_succ. cbn [digits2_pos]. destruct IH as [IH1 IH2].
    rewrite !Pos2Z.inj_succ, Z.pow_succ_r by lia.
    change (Z.pos (Pos.iter xO m d)~0) with (2 * Z.pos (Pos.iter xO m d)).
    rewrite IH1, IH2. lia.
Qed.

Lemma round_nearest_even_cases m l :
  round_nearest_even m l = m \/ round_nearest_even m l = m + 1.
Proof.
  destruct l as [|[]]; cbn [round_nearest_even]; auto.
  destruct (Z.even m); auto.
Qed.

Lemma binary_round_aux_canonical s m e :
  fexp prec emax (Z.pos (digits2_pos m) + e) = e ->
  binary_round_aux prec emax s (Z.pos m) e loc_Exact
  = if e <=? 971 then S754_finite s m e else S754_infinity s.
Proof.
  intros H. unfold binary_round_aux, shr_fexp. cbn [Zdigits2].
  rewrite H, Z.sub_diag.
  cbn [shr shr_record_of_loc shr_m loc_of_shr_record round_nearest_even Zdigits2].
  rewrite H, Z.sub_diag. reflexivity.
Qed.

Lemma pow2_split a b : 0 <= a -> 0 <= b -> 2 ^ (a + b) = 2 ^ a * 2 ^ b.
Proof. intros. apply Z.pow_add_r; assumption. Qed.

Lemma binary_round_small s m e :
  -1074 <= e -> Z.pos (digits2_pos m) <= 53 ->
  exists m' e',
    binary_round prec emax s m e
    = (if e' <=? 971 then S754_finite s m' e' else S754_infinity s)
    /\ scaled m' e' = scaled m e
    /\ e' = fexp prec emax (Z.pos (digits2_pos m) + e).
Proof.
  intros He Hd. unfold binary_round, shl_align.
  set (fe := fexp prec emax (Z.pos (digits2_pos m) + e)).
  assert (Hfe : -1074 <= fe <= e) by (unfold fe; rewrite fexp64; lia).
  destruct (fe - e) as [|p|p] eqn:E; try lia.
  - assert (fe = e) by lia.
    exists m, fe. rewrite binary_round_aux_canonical by (fold fe; lia).
    replace e with fe by lia. auto.
  - destruct (digits2_pos_shift m p) as [D1 D2].
    exists (Pos.iter xO m p), fe.
    rewrite binary_round_aux_canonical.
    + split; [reflexivity|]. split; [|reflexivity].
      unfold scaled. rewrite D2.
      replace (e + 1074) with (Z.pos p + (fe + 1074)) by lia.
      rewrite (pow2_split (Z.pos p)) by lia. ring.
    + rewrite D1. replace (Z.pos (digits2_pos m) + Z.pos p + fe)
        with (Z.pos (digits2_pos m) + e) by lia. reflexivity.
Qed.

Lemma shr_fexp_carry m2 e1 :
  -1074 <= e1 -> 2 ^ 52 <= m2 <= 2 ^ 53 ->
  exists m3 e3,
    shr_fexp prec emax m2 e1 loc_Exact = (Build_shr_record m3 false false, e3)
    /\ m3 * 2 ^ (e3 - e1) = m2 /\ e1 <= e3 <= e1 + 1 /\ 2 ^ 52 <= m3 < 2 ^ 53.
Proof.
  intros He [Hl Hu]. unfold shr_fexp.
  destruct (Z.eq_dec m2 (2 ^ 53)) as [->|Hne].
  - exists (2 ^ 52), (e1 + 1).
    change (Zdigits2 (2 ^ 53)) with 54. rewrite fexp64.
    replace (Z.max (54 + e1 - 53) (-1074) - e1) with 1 by lia.
    split; [reflexivity|]. replace (e1 + 1 - e1) with 1 by lia.
    split; [reflexivity|]. split; [lia|]. split; [lia|reflexivity].
  - exists m2, e1.
    rewrite (Zdigits2_unique m2 53) by (change (53 - 1) with 52; lia).
    rewrite fexp64. replace (Z.max (53 + e1 - 53) (-1074) - e1) with 0 by lia.
    split; [reflexivity|]. rewrite Z.sub_diag, Z.mul_1_r.
    split; [reflexivity|]. lia.
Qed.

Lemma binary_round_big s m e :
  -1074 <= e -> 53 < Z.pos (digits2_pos m) ->
  exists m' e',
    binary_round prec emax s m e
    = (if e' <=? 971 then S754_finite s m' e' else S754_infinity s)
    /\ 2 ^ (Z.pos (digits2_pos m) - 1 + e + 1074) <= scaled m' e'
       <= 2 ^ (Z.pos (digits2_pos m) + e + 1074)
    /\ Z.pos (digits2_pos m) + e - 53 <= e' <= Z.pos (digits2_pos m) + e - 52.
Proof.
  intros He Hd. unfold binary_round, shl_align.
  set (d := Z.pos (digits2_pos m)) in *.
  assert (Hfe : fexp prec emax (d + e) = d + e - 53) by (rewrite fexp64; lia).
  rewrite Hfe.
  destruct (d + e - 53 - e) as [|p|p] eqn:E; try lia.
  unfold binary_round_aux. unfold shr_fexp at 1. cbn [Zdigits2]. fold d.
  rewrite Hfe, E. cbn [shr shr_record_of_loc].
  set (mrs := iter_pos shr_1 p _).
  assert (Hm1 : shr_m mrs = Z.pos m / 2 ^ Z.pos p).
  { unfold mrs. rewrite shr_m_iter_pos by (cbn; lia). reflexivity. }
  pose proof (digits2_pos_bounds m) as [Hl Hu]. fold d in Hl, Hu.
  assert (P0 : 0 < 2 ^ Z.pos p) by (apply Z.pow_pos_nonneg; lia).
  assert (Hl' : 2 ^ 52 * 2 ^ Z.pos p <= Z.pos m).
  { rewrite <- Z.pow_add_r by lia. replace (52 + Z.pos p) with (d - 1) by lia. exact Hl. }
  assert (Hu' : Z.pos m < 2 ^ 53 * 2 ^ Z.pos p).
  { rewrite <- Z.pow_add_r by lia. replace (53 + Z.pos p) with d by lia. exact Hu. }
  assert (B1 : 2 ^ 52 <= shr_m mrs < 2 ^ 53).
  { rewrite Hm1. split.
    - apply Z.div_le_lower_bound; lia.
    - apply Z.div_lt_upper_bound; lia. }
  set (m2 := round_nearest_even (shr_m mrs) (loc_of_shr_record mrs)).
  assert (B2 : 2 ^ 52 <= m2 <= 2 ^ 53).
  { destruct (round_nearest_even_cases (shr_m mrs) (loc_of_shr_record mrs)) as [R|R];
      unfold m2; rewrite R; lia. }
  destruct (shr_fexp_carry m2 (e + Z.pos p)) as (m3 & e3 & S3 & V3 & E3 & B3); [lia|exact B2|].
  rewrite S3. cbn [shr_m].
  destruct m3 as [|m3|m3]; try lia.
  exists m3, e3. split; [reflexivity|]. split; [|lia].
  unfold scaled.
  assert (P1 : 0 < 2 ^ (e + Z.pos p + 1074)) by (apply Z.pow_pos_nonneg; lia).
  replace (e3 + 1074) with ((e3 - (e + Z.pos p)) + (e + Z.pos p + 1074)) by lia.
  rewrite (pow2_split (e3 - (e + Z.pos p))) by lia.
  rewrite Z.mul_assoc, V3.
  replace (d - 1 + e + 1074) with (52 + (e + Z.pos p + 1074)) by lia.
  replace (d + e + 1074) with (53 + (e + Z.pos p + 1074)) by lia.
  rewrite (pow2_split 52), (pow2_split 53) by lia.
  split; apply Z.mul_le_mono_nonneg_r; lia.
Qed.

Lemma binary_round_spec s m e :
  -1074 <= e ->
  exists m' e',
    binary_round prec emax s m e
    = (if e' <=? 971 then S754_finite s m' e' else S754_infinity s)
    /\ 2 ^ (Z.pos (digits2_pos m) - 1 + e + 1074) <= scaled m' e'
       <= 2 ^ (Z.pos (digits2_pos m) + e + 1074)
    /\ e' <= Z.max (Z.pos (digits2_pos m) + e - 52) (-1074)
    /\ (Z.pos (digits2_pos m) <= 53 -> scaled m' e' = scaled m e).
Proof.
  intros He. destruct (Z.le_gt_cases (Z.pos (digits2_pos m)) 53) as [Hd|Hd].
  - destruct (binary_round_small s m e He Hd) as (m' & e' & R & V & E).
    exists m', e'. split; [exact R|]. rewrite V. split; [|split; [rewrite E, fexp64; lia|auto]].
    pose proof (digits2_pos_bounds m) as [Hl Hu].
    assert (P : 0 < 2 ^ (e + 1074)) by (apply Z.pow_pos_nonneg; lia).
    unfold scaled.
    replace (Z.pos (digits2_pos m) - 1 + e + 1074) with ((Z.pos (digits2_pos m) - 1) + (e + 1074)) by lia.
    replace (Z.pos (digits2_pos m) + e + 1074) with (Z.pos (digits2_pos m) + (e + 1074)) by lia.
    rewrite (pow2_split (Z.pos (digits2_pos m) - 1)), (pow2_split (Z.pos (digits2_pos m))) by lia.
    split; apply Z.mul_le_mono_nonneg_r; lia.
  - destruct (binary_round_big s m e He Hd) as (m' & e' & R & V & E).
    exists m', e'. split; [exact R|]. split; [exact V|]. split; [lia|lia].
Qed.

(** ** Subtraction: sign and size of a difference *)

Lemma shl_align_scaled m e ez :
  -1074 <= ez <= e ->
  Z.pos (fst (shl_align m e ez)) * 2 ^ (ez + 1074) = scaled m e.
Proof.
  intros He. unfold shl_align, scaled.
  destruct (ez - e) as [|p|p] eqn:E; cbn [fst]; try lia.
  - replace ez with e by lia. reflexivity.
  - destruct (digits2_pos_shift m p) as [_ ->].
    replace (e + 1074) with (Z.pos p + (ez + 1074)) by lia.
    rewrite (pow2_split (Z.pos p)) by lia. ring.
Qed.

Lemma pow2_lt_inv a b : 0 <= b -> 2 ^ a < 2 ^ b -> a < b.
Proof. intros Hb H. apply (Z.pow_lt_mono_r_iff 2); lia. Qed.

Lemma binary_normalize_key D e :
  -1074 <= e ->
  exists k,
    key (binary_normalize prec emax D e false) = Some k
    /\ Z.sgn k = Z.sgn D
    /\ (forall K, 0 <= K <= 2097 -> Z.abs D * 2 ^ (e + 1074) < 2 ^ K ->
        Z.abs k <= 2 ^ K /\ Z.abs k < huge).
Proof.
  intros He.
  assert (P : 0 < 2 ^ (e + 1074)) by (apply Z.pow_pos_nonneg; lia).
  assert (Main : forall s m, exists k,
    key (binary_round prec emax s m e) = Some (cond_Zopp s k) /\ 0 < k
    /\ (forall K, 0 <= K <= 2097 -> Z.pos m * 2 ^ (e + 1074) < 2 ^ K ->
        k <= 2 ^ K /\ k < huge)).
  { intros s m.
    destruct (binary_round_spec s m e He) as (m' & e' & R & [Vl Vu] & E & _).
    pose proof (digits2_pos_bounds m) as [Hl Hu].
    set (d := Z.pos (digits2_pos m)) in *.
    assert (Hpos : 0 < scaled m' e').
    { eapply Z.lt_le_trans; [|exact Vl]. apply Z.pow_pos_nonneg; lia. }
    assert (Hbound : forall K, 0 <= K <= 2097 -> Z.pos m * 2 ^ (e + 1074) < 2 ^ K ->
                     d + e + 1074 <= K).
    { intros K HK HD.
      assert (2 ^ (d - 1 + (e + 1074)) < 2 ^ K).
      { rewrite pow2_split by lia. eapply Z.le_lt_trans; [|exact HD].
        apply Z.mul_le_mono_nonneg_r; lia. }
      apply pow2_lt_inv in H; lia. }
    rewrite R. destruct (e' <=? 971) eqn:E971.
    - exists (scaled m' e'). split; [reflexivity|]. split; [exact Hpos|].
      intros K HK HD. specialize (Hbound K HK HD).
      assert (2 ^ (d + e + 1074) <= 2 ^ K) by (apply Z.pow_le_mono_r; lia).
      assert (2 ^ K < huge) by (unfold huge; apply Z.pow_lt_mono_r; lia).
      lia.
    - exists huge. split; [reflexivity|]. split; [reflexivity|].
      intros K HK HD. specialize (Hbound K HK HD).
      apply Z.leb_gt in E971. lia. }
  destruct D as [|m|m]; cbn [binary_normalize].
  - exists 0. cbn [key]. split; [reflexivity|]. split; [reflexivity|].
    intros K HK _. cbn [Z.abs]. split; [apply Z.pow_nonneg; lia | reflexivity].
  - destruct (Main false m) as (k & Kk & Hk & B). exists k.
    split; [exact Kk|]. split; [cbn [Z.sgn]; lia|].
    intros K HK HD. cbn [Z.abs] in HD. specialize (B K HK HD). lia.
  - destruct (Main true m) as (k & Kk & Hk & B). exists (- k).
    split; [exact Kk|]. split; [cbn [Z.sgn]; lia|].
    intros K HK HD. cbn [Z.abs] in HD. specialize (B K HK HD). lia.
Qed.


Lemma SFsub_key x y a b :
  valid_binary x = true -> valid_binary y = true ->
  key x = Some a -> key y = Some b ->
  (is_finite_SF x = true \/ is_finite_SF y = true \/ a <> b) ->
  exists k,
    key (SF64sub x y) = Some k
    /\ Z.sgn k = Z.sgn (a - b)
    /\ (is_finite_SF x = true -> is_finite_SF y = true ->
        forall K, 0 <= K <= 2097 -> Z.abs (a - b) < 2 ^ K -> Z.abs k <= 2 ^ K /\ Z.abs k < huge).
Proof.
  intros Vx Vy Kx Ky Hne.
  assert (Hp : forall K, 0 <= K <= 2097 -> 2 ^ K < huge).
  { intros K HK. unfold huge. apply Z.pow_lt_mono_r; lia. }
  assert (Hh : 0 < huge) by reflexivity.
  destruct x as [sx|sx| |sx mx ex], y as [sy|sy| |sy my ey]; cbn [key] in Kx, Ky;
    try discriminate; injection Kx as <-; injection Ky as <-;
    unfold SF64sub; cbn [SFsub].
  - (* zero - zero *)
    exists 0. split; [destruct sx, sy; reflexivity|]. split; [reflexivity|].
    intros _ _ K HK _. cbn. split; [apply Z.pow_nonneg|]; lia.
  - (* zero - inf *)
    exists (cond_Zopp (negb sy) huge). split; [reflexivity|].
    split; [destruct sy; reflexivity | discriminate].
  - (* zero - finite *)
    pose proof (scaled_pos my ey) as Hs. pose proof (scaled_lt_big _ _ _ Vy).
    apply valid_finite_inv in Vy.
    exists (cond_Zopp (negb sy) (scaled my ey)). split; [reflexivity|].
    split; [destruct sy; cbn [cond_Zopp negb]; f_equal; lia|].
    intros _ _ K HK. destruct sy; cbn [cond_Zopp negb]; lia.
  - (* inf - zero *)
    exists (cond_Zopp sx huge). split; [reflexivity|].
    split; [f_equal; lia | discriminate].
  - (* inf - inf *)
    destruct sx, sy; cbn [cond_Zopp] in *.
    + destruct Hne as [?|[?|?]]; try discriminate; lia.
    + exists (- huge). split; [reflexivity|]. split; [reflexivity|discriminate].
    + exists huge. split; [reflexivity|]. split; [reflexivity|discriminate].
    + destruct Hne as [?|[?|?]]; try discriminate; lia.
  - (* inf - finite *)
    pose proof (scaled_pos my ey) as Hs. pose proof (scaled_lt_big _ _ _ Vy).
    apply valid_finite_inv in Vy.
    exists (cond_Zopp sx huge). split; [reflexivity|].
    split; [|discriminate].
    destruct sx, sy; cbn [cond_Zopp];
      rewrite ?(Z.sgn_pos huge), ?(Z.sgn_neg (- huge)) by lia;
      symmetry; first [apply Z.sgn_pos; lia | apply Z.sgn_neg; lia].
  - (* finite - zero *)
    pose proof (scaled_pos mx ex) as Hs. pose proof (scaled_lt_big _ _ _ Vx).
    apply valid_finite_inv in Vx.
    exists (cond_Zopp sx (scaled mx ex)). split; [reflexivity|].
    split; [f_equal; lia|].
    intros _ _ K HK. rewrite Z.sub_0_r. destruct sx; cbn [cond_Zopp]; lia.
  - (* finite - inf *)
    pose proof (scaled_pos mx ex) as Hs. pose proof (scaled_lt_big _ _ _ Vx).
    apply valid_finite_inv in Vx.
    exists (cond_Zopp (negb sy) huge). split; [reflexivity|].
    split; [|discriminate].
    destruct sx, sy; cbn [cond_Zopp negb];
      rewrite ?(Z.sgn_pos huge), ?(Z.sgn_neg (- huge)) by lia;
      symmetry; first [apply Z.sgn_pos; lia | apply Z.sgn_neg; lia].
  - (* finite - finite *)
    apply valid_finite_inv in Vx, Vy.
    set (ez := Z.min ex ey).
    assert (Hez : -1074 <= ez) by (unfold ez; lia).
    pose proof (shl_align_scaled mx ex ez ltac:(unfold ez; lia)) as Ax.
    pose proof (shl_align_scaled my ey ez ltac:(unfold ez; lia)) as Ay.
    set (D := cond_Zopp sx (Z.pos (fst (shl_align mx ex ez)))
              - cond_Zopp sy (Z.pos (fst (shl_align my ey ez)))).
    assert (HD : D * 2 ^ (ez + 1074)
                 = cond_Zopp sx (scaled mx ex) - cond_Zopp sy (scaled my ey)).
    { unfold D. rewrite <- Ax, <- Ay. destruct sx, sy; cbn [cond_Zopp]; ring. }
    assert (P : 0 < 2 ^ (ez + 1074)) by (apply Z.pow_pos_nonneg; lia).
    destruct (binary_normalize_key D ez Hez) as (k & Kk & Sk & Bk).
    exists k. split; [exact Kk|]. split.
    + rewrite Sk, <- HD. rewrite Z.sgn_mul, (Z.sgn_pos (2 ^ _)) by lia. lia.
    + intros _ _ K HK HA. apply Bk; [exact HK|].
      rewrite <- HD, Z.abs_mul, (Z.abs_eq (2 ^ _)) in HA by lia. exact HA.
Qed.


(** ** Comparisons of primitive floats *)

Lemma SFcompare_nan_r x : SFcompare x S754_nan = None.
Proof. destruct x; reflexivity. Qed.

Lemma key_none x : key x = None -> x = S754_nan.
Proof. destruct x; cbn; congruence. Qed.

Lemma compare_key (x y : float) a b :
  fkey x = Some a -> fkey y = Some b ->
  SFcompare (Prim2SF x) (Prim2SF y) = Some (a ?= b).
Proof. intros. apply SFcompare_key; auto using Prim2SF_valid. Qed.

Lemma ltb_key x y a b :
  fkey x = Some a -> fkey y = Some b -> PrimFloat.ltb x y = (a <? b).
Proof.
  intros Hx Hy. rewrite ltb_spec. unfold SFltb. rewrite (compare_key x y a b Hx Hy).
  unfold Z.ltb. destruct (a ?= b); reflexivity.
Qed.

Lemma leb_key x y a b :
  fkey x = Some a -> fkey y = Some b -> PrimFloat.leb x y = (a <=? b).
Proof.
  intros Hx Hy. rewrite leb_spec. unfold SFleb. rewrite (compare_key x y a b Hx Hy).
  unfold Z.leb. destruct (a ?= b); reflexivity.
Qed.

Lemma eqb_key x y a b :
  fkey x = Some a -> fkey y = Some b -> PrimFloat.eqb x y = (a =? b).
Proof.
  intros Hx Hy. rewrite eqb_spec. unfold SFeqb. rewrite (compare_key x y a b Hx Hy).
  unfold Z.eqb. destruct (Z.compare_spec a b) as [->|L|G].
  - destruct b; [reflexivity | cbn; now rewrite Pos.eqb_refl ..].
  - destruct a, b; try reflexivity; try lia; cbn;
      (destruct (Pos.eqb_spec p p0); [lia|reflexivity]).
  - destruct a, b; try reflexivity; try lia; cbn;
      (destruct (Pos.eqb_spec p p0); [lia|reflexivity]).
Qed.

Lemma cmp_nan_l x y :
  fkey x = None ->
  PrimFloat.ltb x y = false /\ PrimFloat.leb x y = false /\ PrimFloat.eqb x y = false
  /\ PrimFloat.ltb y x = false /\ PrimFloat.leb y x = false /\ PrimFloat.eqb y x = false.
Proof.
  intros H. apply key_none in H.
  rewrite !ltb_spec, !leb_spec, !eqb_spec. unfold SFltb, SFleb, SFeqb.
  rewrite H, SFcompare_nan_r. cbn. auto 6.
Qed.

Lemma leb_true_keys x y :
  PrimFloat.leb x y = true -> exists a b, fkey x = Some a /\ fkey y = Some b /\ a <= b.
Proof.
  intros H. destruct (fkey x) as [a|] eqn:Kx.
  2:{ destruct (cmp_nan_l x y Kx) as (_ & E & _). congruence. }
  destruct (fkey y) as [b|] eqn:Ky.
  2:{ destruct (cmp_nan_l y x Ky) as (_ & _ & _ & _ & E & _). congruence. }
  exists a, b. rewrite (leb_key x y a b Kx Ky) in H. apply Z.leb_le in H. auto.
Qed.

Lemma ltb_true_keys x y :
  PrimFloat.ltb x y = true -> exists a b, fkey x = Some a /\ fkey y = Some b /\ a < b.
Proof.
  intros H. destruct (fkey x) as [a|] eqn:Kx.
  2:{ destruct (cmp_nan_l x y Kx) as (E & _). congruence. }
  destruct (fkey y) as [b|] eqn:Ky.
  2:{ destruct (cmp_nan_l y x Ky) as (_ & _ & _ & E & _). congruence. }
  exists a, b. rewrite (ltb_key x y a b Kx Ky) in H. apply Z.ltb_lt in H. auto.
Qed.

Lemma fkey_zero : fkey 0%float = Some 0.
Proof. reflexivity. Qed.

Lemma sub_nan_l x y : fkey x = None -> fkey (x - y)%float = None.
Proof.
  unfold fkey. intros H. apply key_none in H. rewrite sub_spec, H. reflexivity.
Qed.

Lemma sub_nan_r x y : fkey y = None -> fkey (x - y)%float = None.
Proof.
  unfold fkey. intros H. apply key_none in H. rewrite sub_spec, H.
  destruct (Prim2SF x); reflexivity.
Qed.

Lemma sub_inf_inf x y a :
  fkey x = Some a -> fkey y = Some a ->
  is_finite_SF (Prim2SF x) = false -> is_finite_SF (Prim2SF y) = false ->
  fkey (x - y)%float = None.
Proof.
  unfold fkey. rewrite sub_spec. intros Kx Ky Fx Fy.
  destruct (Prim2SF x) as [sx|sx| |sx mx ex], (Prim2SF y) as [sy|sy| |sy my ey];
    try discriminate.
  cbn [key] in *. destruct sx, sy; try reflexivity; cbn [cond_Zopp] in *;
    assert (0 < huge) by reflexivity; injection Kx as <-; injection Ky as E; lia.
Qed.

(** The sign of a binary64 difference is the sign of the exact difference:
    [y - x] is positive exactly when [x < y]. *)
Lemma sub_pos_ltb x y : PrimFloat.ltb 0 (y - x) = PrimFloat.ltb x y.
Proof.
  destruct (fkey x) as [a|] eqn:Kx.
  2:{ destruct (cmp_nan_l x y Kx) as (-> & _).
      destruct (cmp_nan_l _ 0%float (sub_nan_r y x Kx)) as (_ & _ & _ & -> & _). reflexivity. }
  destruct (fkey y) as [b|] eqn:Ky.
  2:{ destruct (cmp_nan_l y x Ky) as (_ & _ & _ & -> & _).
      destruct (cmp_nan_l _ 0%float (sub_nan_l y x Ky)) as (_ & _ & _ & -> & _). reflexivity. }
  rewrite (ltb_key x y a b Kx Ky).
  destruct (is_finite_SF (Prim2SF y)) eqn:Fy;
    [|destruct (is_finite_SF (Prim2SF x)) eqn:Fx; [|destruct (Z.eq_dec b a) as [->|Hab]]].
  3:{ destruct (cmp_nan_l _ 0%float (sub_inf_inf y x a Ky Kx Fy Fx)) as (_ & _ & _ & -> & _).
      symmetry. apply Z.ltb_irrefl. }
  all: destruct (SFsub_key (Prim2SF y) (Prim2SF x) b a (Prim2SF_valid y) (Prim2SF_valid x) Ky Kx)
         as (k & Kk & Sk & _); [tauto|];
       rewrite <- sub_spec in Kk;
       rewrite (ltb_key 0%float (y - x)%float 0 k fkey_zero Kk);
       destruct (Z.ltb_spec 0 k), (Z.ltb_spec a b); try reflexivity; exfalso.
  all: try (rewrite (Z.sgn_pos k) in Sk by lia; symmetry in Sk; apply Z.sgn_pos_iff in Sk; lia).
  all: destruct (Z.eq_dec k 0) as [->|];
       [ cbn in Sk; symmetry in Sk; apply Z.sgn_null_iff in Sk; lia
       | rewrite (Z.sgn_neg k) in Sk by lia; symmetry in Sk; apply Z.sgn_neg_iff in Sk; lia ].
Qed.

(** ** [Math.random() * 2 - 1] *)

Lemma binary_round_aux_exact s (z m' n : positive) e :
  Z.pos z = Z.pos m' * 2 ^ Z.pos n ->
  fexp prec emax (Z.pos (digits2_pos z) + e) - e = Z.pos n ->
  fexp prec emax (Z.pos (digits2_pos m') + (e + Z.pos n)) = e + Z.pos n ->
  binary_round_aux prec emax s (Z.pos z) e loc_Exact
  = if e + Z.pos n <=? 971 then S754_finite s m' (e + Z.pos n) else S754_infinity s.
Proof.
  intros Hz Hn Hc. unfold binary_round_aux. unfold shr_fexp at 1.
  cbn [Zdigits2]. rewrite Hn. cbn [shr shr_record_of_loc].
  rewrite iter_pos_nat, Hz, <- (positive_nat_Z n), shr_iter_exact by lia.
  rewrite positive_nat_Z.
  cbn [shr_m loc_of_shr_record round_nearest_even].
  unfold shr_fexp. cbn [Zdigits2]. rewrite Hc, Z.sub_diag.
  reflexivity.
Qed.

Lemma digits2_pos_eq m k :
  2 ^ (k - 1) <= Z.pos m < 2 ^ k -> Z.pos (digits2_pos m) = k.
Proof. intros H. apply (Zdigits2_unique (Z.pos m) k); [lia | exact H]. Qed.

Lemma SFmul_two m e :
  valid_binary (S754_finite false m e) = true ->
  scaled m e < 2 ^ 1074 ->
  exists m' e',
    SF64mul (S754_finite false m e) (S754_finite false 4503599627370496 (-51))
    = S754_finite false m' e'
    /\ scaled m' e' = 2 * scaled m e.
Proof.
  intros V Hlt. apply valid_finite_inv in V. destruct V as (He & Hd & Hn).
  pose proof (digits2_pos_bounds m) as [Hl Hu].
  set (d := Z.pos (digits2_pos m)) in *.
  unfold SF64mul. cbn [SFmul xorb].
  assert (Hz : Z.pos (m * 4503599627370496) = Z.pos m * 2 ^ 52) by (rewrite Pos2Z.inj_mul; reflexivity).
  assert (Hdz : Z.pos (digits2_pos (m * 4503599627370496)) = d + 52).
  { apply digits2_pos_eq. rewrite Hz.
    replace (d + 52 - 1) with ((d - 1) + 52) by lia.
    rewrite !pow2_split by lia.
    split; [apply Z.mul_le_mono_nonneg_r | apply Z.mul_lt_mono_pos_r]; lia. }
  assert (P : 0 < 2 ^ (e + 1074)) by (apply Z.pow_pos_nonneg; lia).
  destruct (Z.eq_dec d 53) as [E53|N53].
  - (* normal: the mantissa is kept, the exponent goes up by one *)
    assert (He' : e + 1 <= 971).
    { unfold scaled in Hlt. rewrite E53 in Hl. change (2 ^ (53 - 1)) with (2 ^ 52) in Hl.
      assert (2 ^ (52 + (e + 1074)) < 2 ^ 1074).
      { rewrite pow2_split by lia. eapply Z.le_lt_trans; [|exact Hlt].
        apply Z.mul_le_mono_nonneg_r; lia. }
      apply pow2_lt_inv in H; lia. }
    exists m, (e + 1).
    rewrite (binary_round_aux_exact _ _ m 52).
    + replace (e + -51 + 52) with (e + 1) by lia.
      apply Z.leb_le in He'. rewrite He'. split; [reflexivity|].
      unfold scaled. replace (e + 1 + 1074) with (1 + (e + 1074)) by lia.
      rewrite (pow2_split 1) by lia. change (2 ^ 1) with 2. ring.
    + exact Hz.
    + rewrite Hdz, fexp64. lia.
    + fold d. rewrite fexp64. lia.
  - (* subnormal: the mantissa doubles *)
    assert (e = -1074) by lia. subst e.
    exists (m~0)%positive, (-1074).
    replace (-1074) with (-1074 + -51 + 51) at 2 3 by lia.
    rewrite (binary_round_aux_exact _ _ (m~0)%positive 51).
    + split; [reflexivity|]. unfold scaled.
      change (Z.pos m~0) with (2 * Z.pos m). replace (-1074 + -51 + 51) with (-1074) by lia. ring.
    + rewrite Hz. change (Z.pos m~0) with (2 * Z.pos m). change (2 ^ 52) with (2 * 2 ^ 51). 
      change (Z.pos 51) with 51. ring.
    + rewrite Hdz, fexp64. lia.
    + cbn [digits2_pos]. rewrite Pos2Z.inj_succ. fold d. rewrite fexp64. lia.
Qed.

Lemma fkey_one : fkey 1%float = Some (2 ^ 1074).
Proof. reflexivity. Qed.

Lemma fkey_mone : fkey (-1)%float = Some (- 2 ^ 1074).
Proof. reflexivity. Qed.

Lemma fkey_one_inv a : fkey 1%float = Some a -> a = 2 ^ 1074.
Proof. rewrite fkey_one. congruence. Qed.

Lemma mul_two_key x a :
  fkey x = Some a -> 0 <= a < 2 ^ 1074 ->
  fkey (x * 2)%float = Some (2 * a)
  /\ is_finite_SF (Prim2SF (x * 2)%float) = true.
Proof.
  unfold fkey. intros K Ha. rewrite mul_spec.
  change (Prim2SF 2%float) with (S754_finite false 4503599627370496 (-51)).
  pose proof (Prim2SF_valid x) as V.
  destruct (Prim2SF x) as [s|s| |s m e]; cbn [key] in K; try discriminate;
    injection K as <-.
  - split; reflexivity.
  - assert (2 ^ 1074 < huge) by reflexivity.
    destruct s; cbn [cond_Zopp] in Ha; lia.
  - pose proof (scaled_pos m e) as Hs. pose proof (valid_finite_inv _ _ _ V) as (He & _).
    destruct s; cbn [cond_Zopp] in Ha; [lia|].
    destruct (SFmul_two m e V ltac:(lia)) as (m' & e' & -> & Hv).
    cbn [key cond_Zopp is_finite_SF]. rewrite Hv. auto.
Qed.

Lemma key_zero_inv x :
  valid_binary x = true -> key x = Some 0 -> exists s, x = S754_zero s.
Proof.
  intros V K. destruct x as [s|s| |s m e]; cbn [key] in K; try discriminate.
  - eauto.
  - injection K as K. assert (0 < huge) by reflexivity. destruct s; cbn [cond_Zopp] in K; lia.
  - injection K as K. pose proof (scaled_pos m e). apply valid_finite_inv in V.
    destruct s; cbn [cond_Zopp] in K; lia.
Qed.

(** [Math.random() * 2 - 1] stays within [-1, 1] for a draw in [0, 1). *)
Lemma random_scale_range r :
  PrimFloat.leb 0 r = true -> PrimFloat.ltb r 1 = true ->
  PrimFloat.leb (-1) (r * 2 - 1) = true /\ PrimFloat.leb (r * 2 - 1) 1 = true.
Proof.
  intros H0 H1.
  apply leb_true_keys in H0. destruct H0 as (z & a & Kz & Ka & Hza).
  rewrite fkey_zero in Kz. injection Kz as <-.
  apply ltb_true_keys in H1. destruct H1 as (a' & o & Ka' & Ko & Hao).
  rewrite Ka in Ka'. injection Ka' as <-. apply fkey_one_inv in Ko. subst o.
  destruct (mul_two_key r a Ka ltac:(lia)) as [Kv Fv].
  destruct (SFsub_key (Prim2SF (r * 2)%float) (Prim2SF 1%float) (2 * a) (2 ^ 1074)
              (Prim2SF_valid _) (Prim2SF_valid _) Kv fkey_one ltac:(auto))
    as (k & Kk & Sk & Bk).
  rewrite <- sub_spec in Kk. fold (fkey (r * 2 - 1)%float) in Kk.
  rewrite (leb_key _ _ _ _ fkey_mone Kk), (leb_key _ _ _ _ Kk fkey_one).
  assert (Hk : Z.abs k <= 2 ^ 1074).
  { destruct (Z.eq_dec a 0) as [->|Hne].
    - (* the draw is a zero: the difference is exactly -1 *)
      clear Bk Sk Kv Fv. unfold fkey in Ka, Kk. rewrite sub_spec, mul_spec in Kk.
      destruct (key_zero_inv _ (Prim2SF_valid r) Ka) as [s Hr]. rewrite Hr in Kk.
      destruct s; vm_compute in Kk; injection Kk as <-; vm_compute; discriminate.
    - apply (Bk Fv eq_refl 1074); [lia|].
      apply Z.abs_lt. lia. }
  split; apply Z.leb_le; lia.
Qed.

(** ** Commutativity and the order of comparisons *)

Lemma SFmul_comm x y : SF64mul x y = SF64mul y x.
Proof.
  unfold SF64mul.
  destruct x as [sx|sx| |sx mx ex], y as [sy|sy| |sy my ey]; cbn [SFmul];
    try reflexivity; try (now rewrite xorb_comm).
  now rewrite xorb_comm, Pos.mul_comm, Z.add_comm.
Qed.

(** Binary64 multiplication is commutative. *)
Lemma float_mul_comm (x y : float) : (x * y = y * x)%float.
Proof. apply Prim2SF_inj. rewrite !mul_spec. apply SFmul_comm. Qed.

Lemma is_nan_fkey x : PrimFloat.is_nan x = true <-> fkey x = None.
Proof.
  unfold PrimFloat.is_nan. split.
  - intros H. destruct (fkey x) as [a|] eqn:K; [|reflexivity].
    rewrite (eqb_key x x a a K K), Z.eqb_refl in H. discriminate.
  - intros H. destruct (cmp_nan_l x x H) as (_ & _ & -> & _). reflexivity.
Qed.

Lemma leb_trans x y z :
  PrimFloat.leb x y = true -> PrimFloat.leb y z = true -> PrimFloat.leb x z = true.
Proof.
  intros H1 H2. apply leb_true_keys in H1, H2.
  destruct H1 as (a & b & Ka & Kb & Hab), H2 as (b' & c & Kb' & Kc & Hbc).
  rewrite Kb in Kb'. injection Kb' as <-.
  rewrite (leb_key x z a c Ka Kc). apply Z.leb_le. lia.
Qed.

Lemma ltb_leb x y : PrimFloat.ltb x y = true -> PrimFloat.leb x y = true.
Proof.
  intros H. apply ltb_true_keys in H. destruct H as (a & b & Ka & Kb & Hab).
  rewrite (leb_key x y a b Ka Kb). apply Z.leb_le. lia.
Qed.

Lemma not_ltb_leb x y :
  fkey x <> None -> fkey y <> None ->
  PrimFloat.ltb x y = false -> PrimFloat.leb y x = true.
Proof.
  intros Hx Hy H. destruct (fkey x) as [a|] eqn:Ka; [|congruence].
  destruct (fkey y) as [b|] eqn:Kb; [|congruence].
  rewrite (ltb_key x y a b Ka Kb) in H. apply Z.ltb_ge in H.
  rewrite (leb_key y x b a Kb Ka). apply Z.leb_le. lia.
Qed.

Lemma leb_not_nan x y :
  PrimFloat.leb x y = true -> fkey x <> None /\ fkey y <> None.
Proof.
  intros H. apply leb_true_keys in H. destruct H as (a & b & -> & -> & _).
  split; discriminate.
Qed.

(** ** Arithmetic on zeros and NaN *)

Lemma eqb_zero_inv x : (x =? 0)%float = true -> exists s, Prim2SF x = S754_zero s.
Proof.
  rewrite eqb_spec. change (Prim2SF 0%float) with (S754_zero false).
  unfold SFeqb. destruct (Prim2SF x) as [s|s| |s m e]; cbn [SFcompare]; eauto;
    try discriminate; destruct s; discriminate.
Qed.

Lemma mul_zero_l x y :
  (x =? 0)%float = true -> zero_or_nan (x * y)%float.
Proof.
  intros H. apply eqb_zero_inv in H. destruct H as [s H].
  unfold zero_or_nan. rewrite mul_spec, H. unfold SF64mul.
  destruct (Prim2SF y); exact I.
Qed.

Lemma mul_zero_zero x y :
  zero_or_nan x -> zero_or_nan (x * y)%float.
Proof.
  unfold zero_or_nan. rewrite mul_spec. unfold SF64mul.
  destruct (Prim2SF x); try contradiction; intros _; destruct (Prim2SF y); exact I.
Qed.

Lemma add_zero_or_nan x y :
  zero_or_nan x -> zero_or_nan y -> zero_or_nan (x + y)%float.
Proof.
  unfold zero_or_nan. rewrite add_spec. unfold SF64add.
  destruct (Prim2SF x) as [sx|sx| |sx mx ex]; try contradiction;
    destruct (Prim2SF y) as [sy|sy| |sy my ey]; try contradiction; intros _ _;
    try exact I; destruct sx, sy; exact I.
Qed.

Lemma div_zero_or_nan x y :
  zero_or_nan x -> zero_or_nan y -> (x / y)%float = nan.
Proof.
  unfold zero_or_nan. intros Hx Hy. apply Prim2SF_inj. rewrite div_spec.
  unfold SF64div.
  destruct (Prim2SF x) as [sx|sx| |sx mx ex]; try contradiction;
    destruct (Prim2SF y) as [sy|sy| |sy my ey]; try contradiction; reflexivity.
Qed.

Lemma sqrt_zero_or_nan x : zero_or_nan x -> zero_or_nan (sqrt x).
Proof.
  unfold zero_or_nan. rewrite sqrt_spec. unfold SF64sqrt.
  destruct (Prim2SF x); try contradiction; intros _; exact I.
Qed.

Lemma zero_or_nan_zero : zero_or_nan 0%float.
Proof. exact I. Qed.

(** * Facts about the program *)

(** ** The loop of calculateSimilarity against the formula *)

Lemma similarity_loop_fold (done1 done2 rest1 rest2 : list number) acc :
  length done1 = length done2 -> length rest1 = length rest2 ->
  similarity_loop (length rest1) (length done1) (done1 ++ rest1) (done2 ++ rest2) acc
  = {| dotProduct :=
         fold_left (fun acc xy => (acc + fst xy * snd xy)%float)
                   (combine rest1 rest2) (dotProduct acc);
       norm1 :=
         fold_left (fun acc xy => (acc + fst xy * snd xy)%float)
                   (combine rest1 rest1) (norm1 acc);
       norm2 :=
         fold_left (fun acc xy => (acc + fst xy * snd xy)%float)
                   (combine rest2 rest2) (norm2 acc) |}.
Proof.
  revert done1 done2 rest2 acc.
  induction rest1 as [|x rest1 IH]; intros done1 done2 rest2 acc Hd Hr.
  - destruct rest2; [|discriminate]. destruct acc; reflexivity.
  - destruct rest2 as [|y rest2]; [discriminate|].
    cbn [length similarity_loop combine fold_left].
    rewrite (nth_middle done1 rest1 x nan).
    rewrite Hd, (nth_middle done2 rest2 y nan), <- Hd.
    replace (done1 ++ x :: rest1) with ((done1 ++ [x]) ++ rest1)
      by (rewrite <- app_assoc; reflexivity).
    replace (done2 ++ y :: rest2) with ((done2 ++ [y]) ++ rest2)
      by (rewrite <- app_assoc; reflexivity).
    replace (S (length done1)) with (length (done1 ++ [x]))
      by (rewrite length_app; cbn; lia).
    rewrite IH.
    + reflexivity.
    + rewrite !length_app. cbn. lia.
    + cbn in Hr. lia.
Qed.

(** With equal lengths the loop computes the formula; otherwise the call
    throws. *)
Lemma calculateSimilarity_cosine64 (a b : list number) :
  calculateSimilarity a b
  = if Nat.eqb (length a) (length b) then Return (cosine64 a b)
    else Throw DimensionMismatchError.
Proof.
  unfold calculateSimilarity. destruct (Nat.eqb_spec (length a) (length b)) as [E|N].
  - cbn [negb]. rewrite (similarity_loop_fold [] [] a b _ eq_refl E). reflexivity.
  - reflexivity.
Qed.

(** The dot product is symmetric. *)
Lemma dot64_comm (a b : list number) : dot64 a b = dot64 b a.
Proof.
  unfold dot64. generalize 0%float as acc. revert b.
  induction a as [|x a IH]; intros [|y b] acc; try reflexivity.
  cbn [combine fold_left fst snd]. rewrite (float_mul_comm x y). apply IH.
Qed.

Lemma cosine64_comm (a b : list number) : cosine64 a b = cosine64 b a.
Proof.
  unfold cosine64. rewrite (dot64_comm a b). f_equal. apply float_mul_comm.
Qed.

Lemma calculateSimilarity_comm (a b : list number) :
  calculateSimilarity a b = calculateSimilarity b a.
Proof.
  rewrite !calculateSimilarity_cosine64, (Nat.eqb_sym (length a)), cosine64_comm.
  reflexivity.
Qed.

(** ** Zero vectors *)

Lemma fold_zero_or_nan (a b : list number) acc :
  is_zero_vector a -> zero_or_nan acc ->
  zero_or_nan
    (fold_left (fun acc xy => (acc + fst xy * snd xy)%float) (combine a b) acc).
Proof.
  intros Ha. revert b acc. induction Ha as [|x a Hx Ha IH]; intros b acc Hacc.
  - exact Hacc.
  - destruct b as [|y b]; [exact Hacc|].
    cbn [combine fold_left fst snd]. apply IH.
    apply add_zero_or_nan; [exact Hacc | apply mul_zero_l; exact Hx].
Qed.

Lemma dot64_zero_l (a b : list number) :
  is_zero_vector a -> zero_or_nan (dot64 a b).
Proof. intros Ha. apply fold_zero_or_nan; [exact Ha | exact zero_or_nan_zero]. Qed.

(** The cosine of a zero vector with anything is NaN. *)
Lemma cosine64_zero_l (a b : list number) :
  is_zero_vector a -> cosine64 a b = nan.
Proof.
  intros Ha. unfold cosine64, norm64. apply div_zero_or_nan.
  - apply (dot64_zero_l a b Ha).
  - apply mul_zero_zero, sqrt_zero_or_nan, (dot64_zero_l a a Ha).
Qed.

Lemma calculateSimilarity_zero_vector (a b : list number) :
  length a = length b -> (is_zero_vector a \/ is_zero_vector b) ->
  calculateSimilarity a b = Return nan.
Proof.
  intros E [Z|Z].
  - rewrite calculateSimilarity_cosine64, E, Nat.eqb_refl, (cosine64_zero_l a b Z).
    reflexivity.
  - rewrite calculateSimilarity_comm, calculateSimilarity_cosine64, E, Nat.eqb_refl,
      (cosine64_zero_l b a Z).
    reflexivity.
Qed.

(** ** Arrays *)

Lemma slice_from_start {A : Type} (l : list A) (end_ : Z) :
  slice l 0 end_
  = firstn (Z.to_nat (if end_ <? 0 then Z.max (Z.of_nat (length l) + end_) 0
                      else Z.min end_ (Z.of_nat (length l)))) l.
Proof.
  unfold slice. cbn [Z.ltb Z.compare]. rewrite (Z.min_l 0) by lia.
  cbn [Z.to_nat skipn]. rewrite Z.sub_0_r. reflexivity.
Qed.

Lemma slice_prefix {A : Type} (l : list A) (end_ : Z) :
  exists later, l = slice l 0 end_ ++ later.
Proof.
  rewrite slice_from_start. eexists. symmetry. apply firstn_skipn.
Qed.

Lemma slice_nonneg_length {A : Type} (l : list A) (end_ : Z) :
  0 <= end_ -> Z.of_nat (length (slice l 0 end_)) <= end_.
Proof.
  intros H. rewrite slice_from_start, length_firstn.
  destruct (Z.ltb_spec end_ 0); lia.
Qed.

Lemma Array_map_Forall2 {A B : Type} (f : A -> Completion B) l ys :
  Array_map f l = Return ys -> Forall2 (fun x y => f x = Return y) l ys.
Proof.
  revert ys. induction l as [|x l IH]; intros ys H; cbn [Array_map] in H.
  - injection H as <-. constructor.
  - destruct (f x) as [y|e] eqn:Fx; [|discriminate].
    destruct (Array_map f l) as [ys'|e]; [|discriminate].
    injection H as <-. constructor; auto.
Qed.

Lemma Array_map_returns {A B : Type} (f : A -> Completion B) l :
  (forall x, In x l -> exists y, f x = Return y) ->
  exists ys, Array_map f l = Return ys.
Proof.
  induction l as [|x l IH]; intros H; cbn [Array_map].
  - eauto.
  - destruct (H x (or_introl eq_refl)) as [y ->].
    destruct IH as [ys ->]; [intros z Hz; apply H; right; exact Hz|]. eauto.
Qed.

Lemma Array_map_throws {A B : Type} (f : A -> Completion B) l e :
  Array_map f l = Throw e -> exists x, In x l /\ f x = Throw e.
Proof.
  induction l as [|x l IH]; cbn [Array_map]; [discriminate|].
  destruct (f x) as [y|e'] eqn:Fx.
  - destruct (Array_map f l) as [ys|e'']; [discriminate|].
    intros H. injection H as ->. destruct (IH eq_refl) as (z & Hz & Fz).
    exists z. split; [right; exact Hz | exact Fz].
  - intros H. injection H as ->. exists x. split; [left; reflexivity | exact Fx].
Qed.

(** ** Array.prototype.sort with the comparator of findSimilarDocuments *)

Section RankingFacts.
Variable Metadata : Type.
Implicit Types (x y : ScoredDocument Metadata) (l : list (ScoredDocument Metadata)).

(** The test of the sort: [SortCompare x y > 0] exactly when [x] is less
    similar than [y]. *)
Lemma sort_insert_test x y :
  (0 <? SortCompare x y)%float = (similarity x <? similarity y)%float.
Proof.
  unfold SortCompare, comparefn.
  destruct (PrimFloat.is_nan (similarity y - similarity x)) eqn:N.
  - rewrite <- (sub_pos_ltb (similarity x) (similarity y)). apply is_nan_fkey in N.
    destruct (cmp_nan_l _ 0%float N) as (_ & _ & _ & -> & _). reflexivity.
  - apply sub_pos_ltb.
Qed.

Lemma sort_insert_perm x l : Permutation (sort_insert x l) (x :: l).
Proof.
  induction l as [|y l IH]; cbn [sort_insert]; [reflexivity|].
  destruct (0 <? SortCompare x y)%float.
  - rewrite IH. apply perm_swap.
  - reflexivity.
Qed.

Lemma Array_sort_perm l : Permutation (Array_sort l) l.
Proof.
  induction l as [|x l IH]; cbn [Array_sort fold_right]; [constructor|].
  fold (Array_sort l). rewrite sort_insert_perm. now constructor.
Qed.

(** No similarity is NaN. *)
Let comparable l : Prop := Forall (fun d => fkey (similarity d) <> None) l.

Lemma sort_insert_sorted x l :
  fkey (similarity x) <> None -> comparable l ->
  StronglySorted (@descending Metadata) l ->
  StronglySorted (@descending Metadata) (sort_insert x l).
Proof.
  intros Hx Hl Hs. induction Hs as [|y l Hs IH Hy]; cbn [sort_insert].
  - repeat constructor.
  - inversion Hl as [|? ? Ky Hl']; subst.
    rewrite sort_insert_test.
    destruct (similarity x <? similarity y)%float eqn:T.
    + constructor; [apply IH; exact Hl'|].
      apply Forall_forall. intros z Hz.
      apply (Permutation_in _ (sort_insert_perm x l)) in Hz.
      destruct Hz as [<-|Hz].
      * apply ltb_leb. exact T.
      * rewrite Forall_forall in Hy. apply Hy. exact Hz.
    + assert (D : descending x y) by (apply not_ltb_leb; assumption).
      constructor; [constructor; assumption|].
      constructor; [exact D|].
      rewrite Forall_forall in Hy |- *. intros z Hz.
      unfold descending in *. eapply leb_trans; [apply Hy; exact Hz | exact D].
Qed.

Lemma Array_sort_sorted l :
  comparable l -> StronglySorted (@descending Metadata) (Array_sort l).
Proof.
  intros Hl. induction Hl as [|x l Hx Hl IH]; cbn [Array_sort fold_right].
  - constructor.
  - fold (Array_sort l). apply sort_insert_sorted; [exact Hx| |exact IH].
    unfold comparable. rewrite Forall_forall in Hl |- *. intros z Hz. apply Hl.
    apply (Permutation_in _ (Array_sort_perm l)). exact Hz.
Qed.

(** Entries of one similarity keep their order: the sort is stable. *)
Lemma sort_insert_stable s x l :
  filter (same_similarity s) (sort_insert x l) = filter (same_similarity s) (x :: l).
Proof.
  induction l as [|y l IH]; cbn [sort_insert]; [reflexivity|].
  rewrite sort_insert_test.
  destruct (similarity x <? similarity y)%float eqn:T; [|reflexivity].
  cbn [filter] in *. rewrite IH.
  destruct (same_similarity s x) eqn:Sx; [|reflexivity].
  destruct (same_similarity s y) eqn:Sy; [|reflexivity].
  exfalso. unfold same_similarity in Sx, Sy.
  apply ltb_true_keys in T. destruct T as (a & b & Ka & Kb & Hab).
  destruct (fkey s) as [k|] eqn:Ks.
  - rewrite (eqb_key _ _ _ _ Ka Ks) in Sx. rewrite (eqb_key _ _ _ _ Kb Ks) in Sy.
    apply Z.eqb_eq in Sx, Sy. lia.
  - destruct (cmp_nan_l s (similarity x) Ks) as (_ & _ & _ & _ & _ & E). congruence.
Qed.

Lemma Array_sort_stable s l :
  filter (same_similarity s) (Array_sort l) = filter (same_similarity s) l.
Proof.
  induction l as [|x l IH]; cbn [Array_sort fold_right]; [reflexivity|].
  fold (Array_sort l). rewrite sort_insert_stable. cbn [filter]. now rewrite IH.
Qed.

(** Any stable sort agrees with [Array_sort]: a list that holds the same
    elements in descending order, ties in their original order, is the
    list [Array_sort] returns. So the result does not depend on the
    algorithm an engine uses. *)
Lemma stable_sorted_unique l1 l2 :
  comparable l1 -> Permutation l1 l2 ->
  StronglySorted (@descending Metadata) l1 ->
  StronglySorted (@descending Metadata) l2 ->
  (forall s, filter (same_similarity s) l1 = filter (same_similarity s) l2) ->
  l1 = l2.
Proof.
  revert l2. induction l1 as [|x1 t1 IH]; intros l2 Hc Hp S1 S2 Hf.
  - apply Permutation_nil in Hp. now subst.
  - destruct l2 as [|x2 t2]; [apply Permutation_sym, Permutation_nil in Hp; discriminate|].
    inversion Hc as [|? ? K1 Hc']; subst.
    inversion S1 as [|? ? S1' F1]; subst. inversion S2 as [|? ? S2' F2]; subst.
    rewrite Forall_forall in F1, F2.
    destruct (fkey (similarity x1)) as [k1|] eqn:Kx1; [|congruence].
    assert (K2 : exists k2, fkey (similarity x2) = Some k2 /\ k2 <= k1).
    { assert (Hin : In x2 (x1 :: t1))
        by (apply (Permutation_in _ (Permutation_sym Hp)); left; reflexivity).
      destruct Hin as [<-|Hin]; [exists k1; split; [assumption|lia]|].
      specialize (F1 x2 Hin). unfold descending in F1.
      apply leb_true_keys in F1. destruct F1 as (a & b & Ka & Kb & Hab).
      rewrite Kx1 in Kb. injection Kb as <-. eauto. }
    destruct K2 as (k2 & Kx2 & H21).
    assert (H12 : k1 <= k2).
    { assert (Hin : In x1 (x2 :: t2)) by (apply (Permutation_in _ Hp); left; reflexivity).
      destruct Hin as [->|Hin]; [rewrite Kx1 in Kx2; injection Kx2; lia|].
      specialize (F2 x1 Hin). unfold descending in F2.
      apply leb_true_keys in F2. destruct F2 as (a & b & Ka & Kb & Hab).
      rewrite Kx1 in Ka. injection Ka as <-. rewrite Kx2 in Kb. injection Kb as <-. lia. }
    assert (E : x1 = x2).
    { specialize (Hf (similarity x1)). cbn [filter] in Hf. unfold same_similarity in Hf.
      rewrite (eqb_key _ _ _ _ Kx1 Kx1), (eqb_key _ _ _ _ Kx2 Kx1) in Hf.
      replace (k1 =? k1) with true in Hf by (symmetry; apply Z.eqb_refl).
      replace (k2 =? k1) with true in Hf by (symmetry; apply Z.eqb_eq; lia).
      now injection Hf. }
    subst x2. f_equal. apply IH; try assumption.
    + apply Permutation_cons_inv with x1. exact Hp.
    + intros s. specialize (Hf s). cbn [filter] in Hf.
      destruct (same_similarity s x1); [now injection Hf | exact Hf].
Qed.

Lemma Array_sort_determined l sorted :
  comparable l -> Permutation sorted l ->
  StronglySorted (@descending Metadata) sorted ->
  (forall s, filter (same_similarity s) sorted = filter (same_similarity s) l) ->
  sorted = Array_sort l.
Proof.
  intros Hc Hp Hs Hf. symmetry. apply stable_sorted_unique.
  - unfold comparable in *. rewrite Forall_forall in Hc |- *. intros z Hz. apply Hc.
    apply (Permutation_in _ (Array_sort_perm l)). exact Hz.
  - rewrite Array_sort_perm. symmetry. exact Hp.
  - apply Array_sort_sorted, Hc.
  - exact Hs.
  - intros s. now rewrite Array_sort_stable, Hf.
Qed.

Lemma filter_passes_comparable threshold l :
  comparable (filter (passes threshold) l).
Proof.
  apply Forall_forall. intros d Hd. apply filter_In in Hd. destruct Hd as [_ P].
  unfold passes in P. apply leb_not_nan in P. tauto.
Qed.

(** Among the entries that pass the threshold are all those of a similarity
    that passes it. *)
Lemma filter_same_passes threshold s l :
  (threshold <=? s)%float = true ->
  filter (same_similarity s) (filter (passes threshold) l)
  = filter (same_similarity s) l.
Proof.
  intros T. induction l as [|d l IH]; [reflexivity|]. cbn [filter].
  destruct (passes threshold d) eqn:P; cbn [filter]; rewrite IH; [reflexivity|].
  destruct (same_similarity s d) eqn:S; [|reflexivity].
  exfalso. unfold passes, same_similarity in *.
  apply leb_true_keys in T. destruct T as (a & b & Ka & Kb & Hab).
  destruct (fkey (similarity d)) as [c|] eqn:Kc.
  - rewrite (eqb_key _ _ _ _ Kc Kb) in S. apply Z.eqb_eq in S.
    rewrite (leb_key _ _ _ _ Ka Kc) in P. apply Z.leb_gt in P. lia.
  - destruct (cmp_nan_l _ s Kc) as (_ & _ & E & _). congruence.
Qed.

Lemma score_inv q (d : Document Metadata) r :
  score q d = Return r ->
  doc r = d /\ calculateSimilarity q (embedding d) = Return (similarity r).
Proof.
  unfold score. destruct (calculateSimilarity q (embedding d)) as [s|e]; [|discriminate].
  intros H. injection H as <-. auto.
Qed.

Lemma scored_entries q (docs : list (Document Metadata)) similarities :
  Array_map (score q) docs = Return similarities ->
  forall r, In r similarities ->
    In (doc r) docs
    /\ calculateSimilarity q (embedding (doc r)) = Return (similarity r).
Proof.
  intros H. apply Array_map_Forall2 in H.
  induction H as [|d r docs sims Hd _ IH]; intros r' Hr; [contradiction|].
  destruct Hr as [<-|Hr].
  - apply score_inv in Hd. destruct Hd as [<- Hs]. split; [left; reflexivity | exact Hs].
  - destruct (IH r' Hr). split; [right|]; assumption.
Qed.
End RankingFacts.

(** ** findSimilarDocuments *)

Section RetrievalFacts.
Variable Metadata : Type.

Lemma findSimilarDocuments_inv q (docs : list (Document Metadata)) threshold limit result :
  findSimilarDocuments q docs threshold limit = Return result ->
  exists similarities,
    Array_map (score q) docs = Return similarities
    /\ result = slice (Array_sort (filter (passes threshold) similarities)) 0 limit.
Proof.
  unfold findSimilarDocuments.
  destruct (Array_map (score q) docs) as [sims|e]; [|discriminate].
  intros H. injection H as <-. eauto.
Qed.

Lemma scored_docs q (docs : list (Document Metadata)) similarities :
  Array_map (score q) docs = Return similarities -> map (@doc Metadata) similarities = docs.
Proof.
  intros H. apply Array_map_Forall2 in H.
  induction H as [|d r docs sims Hd _ IH]; [reflexivity|].
  apply score_inv in Hd. destruct Hd as [Hd _]. cbn [map]. now rewrite Hd, IH.
Qed.

(** What every returned entry is: a document of the input, scored against
    the query, with a similarity that passes the threshold. *)
Lemma findSimilarDocuments_entries q (docs : list (Document Metadata)) threshold limit result :
  findSimilarDocuments q docs threshold limit = Return result ->
  forall r, In r result ->
    In (doc r) docs
    /\ calculateSimilarity q (embedding (doc r)) = Return (similarity r)
    /\ (threshold <=? similarity r)%float = true.
Proof.
  intros H r Hr. apply findSimilarDocuments_inv in H.
  destruct H as (sims & Hm & ->).
  destruct (slice_prefix (Array_sort (filter (passes threshold) sims)) limit) as [later E].
  assert (Hin : In r (filter (passes threshold) sims)).
  { apply (Permutation_in _ (Array_sort_perm _ _)). rewrite E. apply in_or_app. now left. }
  apply filter_In in Hin. destruct Hin as [Hin P].
  destruct (scored_entries _ q docs sims Hm r Hin) as [Hd Hs]. auto.
Qed.

Lemma findSimilarDocuments_returns q (docs : list (Document Metadata)) threshold limit :
  (forall d, In d docs -> length (embedding d) = length q) ->
  exists result, findSimilarDocuments q docs threshold limit = Return result.
Proof.
  intros H. unfold findSimilarDocuments.
  destruct (Array_map_returns (score q) docs) as [sims ->]; [|eauto].
  intros d Hd. unfold score.
  rewrite calculateSimilarity_cosine64, (H d Hd), Nat.eqb_refl. eauto.
Qed.

(** The only error [findSimilarDocuments] raises is the dimension mismatch
    of some document. *)
Lemma findSimilarDocuments_throws q (docs : list (Document Metadata)) threshold limit e :
  findSimilarDocuments q docs threshold limit = Throw e ->
  e = DimensionMismatchError
  /\ exists d, In d docs /\ length (embedding d) <> length q.
Proof.
  unfold findSimilarDocuments.
  destruct (Array_map (score q) docs) as [sims|e'] eqn:M; [discriminate|].
  intros H. injection H as ->. apply Array_map_throws in M.
  destruct M as (d & Hd & Hs). unfold score in Hs.
  rewrite calculateSimilarity_cosine64 in Hs.
  destruct (Nat.eqb_spec (length q) (length (embedding d))) as [E|N]; [discriminate|].
  injection Hs as <-. split; [reflexivity|]. exists d. split; [exact Hd | congruence].
Qed.

Lemma StronglySorted_app_l {A : Type} (R : A -> A -> Prop) (l1 l2 : list A) :
  StronglySorted R (l1 ++ l2) -> StronglySorted R l1.
Proof.
  induction l1 as [|x l1 IH]; intros H; [constructor|].
  cbn in H. inversion H as [|? ? Hs Hf]; subst. constructor; [auto|].
  apply Forall_app in Hf. tauto.
Qed.
End RetrievalFacts.

Lemma filter_none {A : Type} (f : A -> bool) (l : list A) :
  (forall x, In x l -> f x = false) -> filter f l = [].
Proof.
  induction l as [|x l IH]; intros H; [reflexivity|]. cbn [filter].
  rewrite (H x (or_introl eq_refl)). apply IH. intros y Hy. apply H. now right.
Qed.

Lemma same_passes (Metadata : Type) (threshold s : number) (d : ScoredDocument Metadata) :
  same_similarity s d = true -> passes threshold d = true ->
  (threshold <=? s)%float = true.
Proof.
  unfold same_similarity, passes. intros S P.
  apply leb_true_keys in P. destruct P as (a & b & Ka & Kb & Hab).
  destruct (fkey s) as [c|] eqn:Kc.
  - rewrite (eqb_key _ _ _ _ Kb Kc) in S. apply Z.eqb_eq in S.
    rewrite (leb_key _ _ _ _ Ka Kc). apply Z.leb_le. lia.
  - destruct (cmp_nan_l s (similarity d) Kc) as (_ & _ & _ & _ & _ & E). congruence.
Qed.

(** ** preprocessText *)

Lemma replace_whitespace_runs_started (s : jsstring) :
  starts_clean (replace_whitespace_runs true s).
Proof.
  induction s as [|c s IH]; cbn [replace_whitespace_runs]; [exact I|].
  destruct (is_whitespace c) eqn:W; [exact IH | exact W].
Qed.

Lemma no_adjacent_whitespace_cons (c1 c2 : char16) (r : jsstring) :
  no_adjacent_whitespace (c1 :: c2 :: r)
  = negb (is_whitespace c1 && is_whitespace c2) && no_adjacent_whitespace (c2 :: r).
Proof. reflexivity. Qed.

Lemma replace_whitespace_runs_collapsed (in_run : bool) (s : jsstring) :
  no_adjacent_whitespace (replace_whitespace_runs in_run s) = true.
Proof.
  revert in_run. induction s as [|c s IH]; intros in_run; [reflexivity|].
  cbn [replace_whitespace_runs].
  destruct (is_whitespace c) eqn:W.
  - destruct in_run; [apply IH|].
    pose proof (replace_whitespace_runs_started s) as Hs. specialize (IH true).
    destruct (replace_whitespace_runs true s) as [|c2 r]; [reflexivity|].
    rewrite no_adjacent_whitespace_cons. cbn [starts_clean] in Hs.
    rewrite Hs, andb_false_r. exact IH.
  - specialize (IH false).
    destruct (replace_whitespace_runs false s) as [|c2 r]; [reflexivity|].
    rewrite no_adjacent_whitespace_cons, W. exact IH.
Qed.

Lemma replace_whitespace_runs_spaces (in_run : bool) (s : jsstring) :
  Forall (fun c => is_whitespace c = true -> c = SPACE)
         (replace_whitespace_runs in_run s).
Proof.
  revert in_run. induction s as [|c s IH]; intros in_run; [constructor|].
  cbn [replace_whitespace_runs]. destruct (is_whitespace c) eqn:W.
  - destruct in_run; [apply IH|]. constructor; [reflexivity | apply IH].
  - constructor; [congruence | apply IH].
Qed.

Lemma replace_whitespace_runs_visible (in_run : bool) (s : jsstring) :
  visible (replace_whitespace_runs in_run s) = visible s.
Proof.
  revert in_run. induction s as [|c s IH]; intros in_run; [reflexivity|].
  cbn [replace_whitespace_runs]. unfold visible in *. cbn [filter].
  destruct (is_whitespace c) eqn:W; cbn [negb].
  - destruct in_run; [apply IH|]. cbn [filter].
    change (is_whitespace SPACE) with true. cbn [negb]. apply IH.
  - cbn [filter]. rewrite W. cbn [negb]. f_equal. apply IH.
Qed.

Lemma trim_start_Forall (P : char16 -> Prop) (s : jsstring) :
  Forall P s -> Forall P (trim_start s).
Proof.
  induction 1 as [|c s Hc Hs IH]; cbn [trim_start]; [constructor|].
  destruct (is_whitespace c); [exact IH | now constructor].
Qed.

Lemma trim_Forall (P : char16 -> Prop) (s : jsstring) :
  Forall P s -> Forall P (trim s).
Proof.
  intros H. unfold trim, trim_end.
  apply Forall_rev, trim_start_Forall, Forall_rev, trim_start_Forall, H.
Qed.

Lemma trim_start_clean (s : jsstring) : starts_clean (trim_start s).
Proof.
  induction s as [|c s IH]; cbn [trim_start]; [exact I|].
  destruct (is_whitespace c) eqn:W; [exact IH | exact W].
Qed.

Lemma trim_start_keeps_last (s : jsstring) (c : char16) :
  is_whitespace c = false -> exists u, trim_start (s ++ [c]) = u ++ [c].
Proof.
  intros W. induction s as [|d s IH]; cbn [app trim_start].
  - rewrite W. exists []. reflexivity.
  - destruct (is_whitespace d); [exact IH|]. exists (d :: s). reflexivity.
Qed.

Lemma trim_clean (s : jsstring) : starts_clean (trim s) /\ ends_clean (trim s).
Proof.
  unfold trim, trim_end, ends_clean. rewrite rev_involutive.
  split; [|apply trim_start_clean].
  pose proof (trim_start_clean s) as H.
  destruct (trim_start s) as [|c t]; [exact I|].
  cbn [starts_clean] in H. cbn [rev].
  destruct (trim_start_keeps_last (rev t) c H) as [u ->].
  rewrite rev_app_distr. exact H.
Qed.

Lemma firstn_Forall {A : Type} (P : A -> Prop) (n : nat) (l : list A) :
  Forall P l -> Forall P (firstn n l).
Proof.
  intros H. revert n. induction H as [|x l Hx Hl IH]; intros [|n]; cbn [firstn];
    constructor; auto.
Qed.

Lemma starts_clean_firstn (n : nat) (s : jsstring) :
  starts_clean s -> starts_clean (firstn n s).
Proof. destruct n, s; cbn; auto. Qed.

Lemma preprocessText_pipeline (text : jsstring) :
  preprocessText text
  = firstn 4000 (trim (remove_special (replace_whitespace_runs false text))).
Proof.
  unfold preprocessText. rewrite slice_from_start.
  cbn [Z.ltb Z.compare].
  set (cleaned := trim _). destruct (Nat.le_gt_cases (length cleaned) 4000).
  - rewrite Z.min_r, Nat2Z.id by lia.
    rewrite !firstn_all2; auto.
  - rewrite Z.min_l by lia. reflexivity.
Qed.

(** ** chunkText *)

Lemma slice_chunk {A : Type} (l : list A) (i n : Z) :
  0 <= i -> 0 < n ->
  slice l i (i + n) = firstn (Z.to_nat n) (skipn (Z.to_nat i) l).
Proof.
  intros Hi Hn. unfold slice.
  destruct (Z.ltb_spec i 0); [lia|]. destruct (Z.ltb_spec (i + n) 0); [lia|].
  destruct (Z.le_gt_cases (Z.of_nat (length l)) i) as [Hout|Hin].
  - rewrite (Z.min_r i) by lia. rewrite Nat2Z.id.
    rewrite (skipn_all2 l (n:=length l)) by lia.
    rewrite (skipn_all2 l (n:=Z.to_nat i)) by lia.
    now rewrite !firstn_nil.
  - rewrite (Z.min_l i) by lia.
    destruct (Z.le_gt_cases (i + n) (Z.of_nat (length l))) as [Hfit|Hcut].
    + rewrite Z.min_l by lia. f_equal. lia.
    + rewrite Z.min_r by lia.
      rewrite !firstn_all2; try reflexivity; rewrite length_skipn; lia.
Qed.

Lemma chunk_count_spec (words : list jsstring) (chunkSize overlap : Z) (i : nat) :
  0 < chunkSize - overlap ->
  (i < spec_chunk_count words chunkSize overlap)%nat
  <-> chunk_start chunkSize overlap i < Z.of_nat (length words).
Proof.
  intros Hstep. unfold spec_chunk_count, chunk_start.
  set (step := chunkSize - overlap) in *. set (len := Z.of_nat (length words)).
  assert (Hlen : 0 <= len) by (unfold len; lia).
  pose proof (Z.mul_div_le (len + step - 1) step Hstep) as Hlo.
  pose proof (Z.mul_succ_div_gt (len + step - 1) step Hstep) as Hhi.
  set (q := (len + step - 1) / step) in *.
  assert (Hq : 0 <= q) by (apply Z.div_pos; lia).
  split; intros H.
  - assert (Z.of_nat i + 1 <= q) by lia. nia.
  - assert (Z.of_nat i < q) by nia. lia.
Qed.

Lemma chunk_start_succ (chunkSize overlap : Z) (i : nat) :
  chunk_start chunkSize overlap (S i)
  = chunk_start chunkSize overlap i + (chunkSize - overlap).
Proof. unfold chunk_start. rewrite Nat2Z.inj_succ. ring. Qed.

(** The loop, started at chunk number [k] with [r] chunks still to come,
    appends exactly those chunks, given more than [r] units of fuel. *)
Lemma chunk_loop_runs (words : list jsstring) (chunkSize overlap : Z) :
  0 <= overlap < chunkSize ->
  forall r k fuel chunks,
    spec_chunk_count words chunkSize overlap = (k + r)%nat ->
    (r < fuel)%nat ->
    chunk_loop fuel words chunkSize overlap (chunk_start chunkSize overlap k) chunks
    = Some (chunks ++ map (spec_chunk words chunkSize overlap) (seq k r)).
Proof.
  intros Hp. assert (Hstep : 0 < chunkSize - overlap) by lia.
  induction r as [|r IH]; intros k fuel chunks Hc Hf;
    (destruct fuel as [|fuel]; [lia|]); cbn [chunk_loop].
  - assert (N : ~ chunk_start chunkSize overlap k < Z.of_nat (length words)).
    { rewrite <- chunk_count_spec by exact Hstep. lia. }
    destruct (Z.ltb_spec (chunk_start chunkSize overlap k) (Z.of_nat (length words)));
      [contradiction|].
    cbn [seq map]. now rewrite app_nil_r.
  - assert (Y : chunk_start chunkSize overlap k < Z.of_nat (length words)).
    { rewrite <- chunk_count_spec by exact Hstep. lia. }
    destruct (Z.ltb_spec (chunk_start chunkSize overlap k) (Z.of_nat (length words)));
      [|lia].
    rewrite <- chunk_start_succ, IH by lia.
    rewrite slice_chunk by (unfold chunk_start; nia).
    cbn [seq map]. rewrite <- app_assoc. reflexivity.
Qed.

Lemma chunkText_spec_chunks (text : jsstring) (chunkSize overlap : Z) :
  0 <= overlap < chunkSize ->
  chunkText_returns text chunkSize overlap (spec_chunks text chunkSize overlap).
Proof.
  intros Hp. exists (S (spec_chunk_count (split_whitespace text) chunkSize overlap)).
  intros fuel Hf. unfold chunkText, spec_chunks.
  change 0 with (chunk_start chunkSize overlap 0).
  rewrite (chunk_loop_runs _ _ _ Hp (spec_chunk_count (split_whitespace text) chunkSize overlap) 0%nat)
    by (reflexivity || lia).
  reflexivity.
Qed.

Lemma words_of_chunk_length (words : list jsstring) (chunkSize overlap : Z) (i : nat) :
  length (words_of_chunk words chunkSize overlap i)
  = Nat.min (Z.to_nat chunkSize)
            (length words - Z.to_nat (chunk_start chunkSize overlap i)).
Proof. unfold words_of_chunk. now rewrite length_firstn, length_skipn. Qed.

Lemma split_loop_nonempty (in_run : bool) (piece s : jsstring) :
  split_loop in_run piece s <> [].
Proof.
  revert in_run piece. induction s as [|c s IH]; intros in_run piece; cbn [split_loop].
  - discriminate.
  - destruct (is_whitespace c); [destruct in_run|]; try apply IH; discriminate.
Qed.

(** With [overlap >= chunkSize] the start index never advances and the
    loop never ends. *)
Lemma chunkText_loops_forever (text : jsstring) (chunkSize overlap : Z) (fuel : nat) :
  chunkSize <= overlap -> chunkText fuel text chunkSize overlap = None.
Proof.
  intros Hp. unfold chunkText.
  pose proof (split_loop_nonempty false [] text) as Hne. fold (split_whitespace text) in Hne.
  assert (Hlen : 0 < Z.of_nat (length (split_whitespace text))).
  { destruct (split_whitespace text); [contradiction | cbn; lia]. }
  assert (G : forall i chunks, i <= 0 ->
            chunk_loop fuel (split_whitespace text) chunkSize overlap i chunks = None).
  { induction fuel as [|fuel IH]; intros i chunks Hi; cbn [chunk_loop]; [reflexivity|].
    destruct (Z.ltb_spec i (Z.of_nat (length (split_whitespace text)))); [|lia].
    apply IH. lia. }
  apply G. lia.
Qed.

(** ** initialize *)

Ltac run_method :=
  unfold initialize, call_extractor, bind, try_catch, read_this, ret, throw,
    emit, await, set_extractor, set_isInitialized;
  cbn [completion this_after events isInitialized extractor app].

Lemma initialize_when_initialized (env : Environment) (this : EmbeddingServiceClass) :
  isInitialized this = true ->
  initialize env this = {| completion := Return tt; this_after := this; events := [] |}.
Proof. intros H. run_method. rewrite H. reflexivity. Qed.

Lemma initialize_without_backend (env : Environment) (this : EmbeddingServiceClass) e1 e2 :
  isInitialized this = false ->
  pipeline env webgpu = Throw e1 -> pipeline env cpu = Throw e2 ->
  initialize env this
  = {| completion := Throw InitializationError;
       this_after := this;
       events := [ console_log "Initializing local embedding model...";
                   pipeline_called webgpu;
                   console_warn "WebGPU not available, falling back to CPU:" e1;
                   pipeline_called cpu;
                   console_error "Failed to initialize embedding model:" e2 ] |}.
Proof. intros H G C. run_method. rewrite H. run_method. rewrite G. run_method. rewrite C. reflexivity. Qed.

Lemma initialize_on_webgpu (env : Environment) (this : EmbeddingServiceClass) ex :
  isInitialized this = false -> pipeline env webgpu = Return ex ->
  initialize env this
  = {| completion := Return tt;
       this_after := {| extractor := Some ex; isInitialized := true |};
       events := [ console_log "Initializing local embedding model...";
                   pipeline_called webgpu;
                   console_log "Embedding model initialized successfully" ] |}.
Proof. intros H G. run_method. rewrite H. run_method. rewrite G. reflexivity. Qed.

Lemma initialize_on_cpu (env : Environment) (this : EmbeddingServiceClass) e1 ex :
  isInitialized this = false ->
  pipeline env webgpu = Throw e1 -> pipeline env cpu = Return ex ->
  initialize env this
  = {| completion := Return tt;
       this_after := {| extractor := Some ex; isInitialized := true |};
       events := [ console_log "Initializing local embedding model...";
                   pipeline_called webgpu;
                   console_warn "WebGPU not available, falling back to CPU:" e1;
                   pipeline_called cpu;
                   console_log "Embedding model initialized on CPU" ] |}.
Proof. intros H G C. run_method. rewrite H. run_method. rewrite G. run_method. rewrite C. reflexivity. Qed.

(** A call on an uninitialized service always asks for the accelerated
    backend first. *)
Lemma initialize_tries (env : Environment) (this : EmbeddingServiceClass) :
  isInitialized this = false ->
  In (pipeline_called webgpu) (events (initialize env this)).
Proof.
  intros H.
  destruct (pipeline env webgpu) as [ex|e1] eqn:G.
  - rewrite (initialize_on_webgpu env this ex H G). cbn. auto.
  - destruct (pipeline env cpu) as [ex|e2] eqn:C.
    + rewrite (initialize_on_cpu env this e1 ex H G C). cbn. auto.
    + rewrite (initialize_without_backend env this e1 e2 H G C). cbn. auto.
Qed.

(** A call that returns leaves the service initialized. *)
Lemma initialize_returns_initialized (env : Environment) (this : EmbeddingServiceClass) :
  completion (initialize env this) = Return tt ->
  isInitialized (this_after (initialize env this)) = true.
Proof.
  destruct (isInitialized this) eqn:H.
  - rewrite (initialize_when_initialized env this H). intros _. exact H.
  - destruct (pipeline env webgpu) as [ex|e1] eqn:G.
    + rewrite (initialize_on_webgpu env this ex H G). reflexivity.
    + destruct (pipeline env cpu) as [ex|e2] eqn:C.
      * rewrite (initialize_on_cpu env this e1 ex H G C). reflexivity.
      * rewrite (initialize_without_backend env this e1 e2 H G C). discriminate.
Qed.

(** ** generateEmbedding *)

Lemma map_random_length (env : Environment) (filled : list number) (k : nat) :
  length (map_random env filled k) = length filled.
Proof.
  revert k. induction filled as [|z filled IH]; intros k; cbn [map_random length];
    [reflexivity | now rewrite IH].
Qed.

Lemma map_random_within_unit (env : Environment) (filled : list number) (k : nat) :
  random_in_unit_interval env -> Forall within_unit (map_random env filled k).
Proof.
  intros Hr. revert k. induction filled as [|z filled IH]; intros k; cbn [map_random];
    constructor; [|apply IH].
  destruct (Hr k) as [H0 H1]. exact (random_scale_range _ H0 H1).
Qed.

Lemma dummy_embedding_shape (env : Environment) :
  random_in_unit_interval env ->
  length (dummy_embedding env) = 384%nat /\ Forall within_unit (dummy_embedding env).
Proof.
  intros Hr. unfold dummy_embedding. split.
  - rewrite map_random_length. apply repeat_length.
  - apply map_random_within_unit, Hr.
Qed.

(** The [try] block of [generateEmbedding] on a service whose extraction
    fails: the [catch] block answers with the dummy embedding. *)
Lemma generateEmbedding_catch (env : Environment) (text : jsstring)
  (this : EmbeddingServiceClass) :
  isInitialized this = true ->
  extraction_fails this (preprocessText text) ->
  completion (generateEmbedding env text this) = Return (dummy_embedding env).
Proof.
  intros H F. unfold generateEmbedding, extraction_fails in *. run_method.
  rewrite H. cbn [negb]. run_method.
  destruct (extractor this) as [ex|].
  - destruct F as [e ->]. reflexivity.
  - reflexivity.
Qed.

Lemma generateEmbedding_after_initialize (env : Environment) (text : jsstring)
  (this : EmbeddingServiceClass) :
  isInitialized this = false ->
  completion (initialize env this) = Return tt ->
  extraction_fails (this_after (initialize env this)) (preprocessText text) ->
  completion (generateEmbedding env text this) = Return (dummy_embedding env).
Proof.
  intros H C F. unfold generateEmbedding, extraction_fails in *.
  unfold bind at 1. unfold read_this at 1. rewrite H. cbn [negb].
  unfold bind at 1.
  destruct (initialize env this) as [c this1 evs].
  cbn [completion this_after] in C, F. subst c.
  unfold try_catch, call_extractor, bind, read_this, throw, await, emit, ret.
  destruct (extractor this1) as [ex|].
  - destruct F as [e ->]. reflexivity.
  - reflexivity.
Qed.

Lemma generateEmbedding_initialize_throws (env : Environment) (text : jsstring)
  (this : EmbeddingServiceClass) e :
  isInitialized this = false ->
  completion (initialize env this) = Throw e ->
  completion (generateEmbedding env text this) = Throw e.
Proof.
  intros H C. unfold generateEmbedding.
  unfold bind at 1. unfold read_this at 1. rewrite H. cbn [negb].
  unfold bind at 1.
  destruct (initialize env this) as [c this1 evs].
  cbn [completion] in C. subst c. reflexivity.
Qed.

(** ** The accuracy of [n / (sqrt n * sqrt n)] *)

Lemma shr_m_record_of_loc z l : shr_m (shr_record_of_loc z l) = z.
Proof. destruct l as [|[]]; reflexivity. Qed.

(** Rounding a mantissa of at least 53 digits in the normal range: the
    result is one of the two neighbours of the exact value on the grid of
    53-digit mantissas. *)
Lemma binary_round_aux_normal s (z : positive) e l :
  53 <= Z.pos (digits2_pos z) ->
  -1074 <= Z.pos (digits2_pos z) + e - 53 ->
  exists T m3 e3,
    binary_round_aux prec emax s (Z.pos z) e l
    = (if e3 <=? 971 then S754_finite s m3 e3 else S754_infinity s)
    /\ (let sh := Z.pos (digits2_pos z) - 53 in
        (Z.pos z / 2 ^ sh) * 2 ^ sh <= T <= (Z.pos z / 2 ^ sh + 1) * 2 ^ sh
        /\ e + sh <= e3 <= e + sh + 1)
    /\ Z.pos m3 * 2 ^ (e3 - e) = T
    /\ 2 ^ 52 <= Z.pos m3 < 2 ^ 53.
Proof.
  intros Hd Hn. set (d := Z.pos (digits2_pos z)) in *.
  pose proof (digits2_pos_bounds z) as [Hl Hu]. fold d in Hl, Hu.
  set (sh := d - 53).
  assert (Hsh : 0 <= sh) by (unfold sh; lia).
  assert (P0 : 0 < 2 ^ sh) by (apply Z.pow_pos_nonneg; lia).
  assert (Hl' : 2 ^ 52 * 2 ^ sh <= Z.pos z).
  { rewrite <- Z.pow_add_r by lia. replace (52 + sh) with (d - 1) by (unfold sh; lia). exact Hl. }
  assert (Hu' : Z.pos z < 2 ^ 53 * 2 ^ sh).
  { rewrite <- Z.pow_add_r by lia. replace (53 + sh) with d by (unfold sh; lia). exact Hu. }
  set (z1 := Z.pos z / 2 ^ sh).
  assert (B1 : 2 ^ 52 <= z1 < 2 ^ 53).
  { unfold z1. split; [apply Z.div_le_lower_bound | apply Z.div_lt_upper_bound]; lia. }
  (* the first shift *)
  assert (S1 : exists mrs, shr_fexp prec emax (Z.pos z) e l = (mrs, e + sh) /\ shr_m mrs = z1).
  { unfold shr_fexp. cbn [Zdigits2]. fold d. rewrite fexp64.
    replace (Z.max (d + e - 53) (-1074) - e) with sh by (unfold sh; lia).
    unfold shr. destruct sh as [|p|p] eqn:E; try lia.
    - eexists. split; [rewrite Z.add_0_r; reflexivity|].
      rewrite shr_m_record_of_loc. unfold z1. now rewrite Z.div_1_r.
    - eexists. split; [reflexivity|].
      rewrite shr_m_iter_pos by (rewrite shr_m_record_of_loc; lia).
      now rewrite shr_m_record_of_loc. }
  destruct S1 as (mrs & S1 & M1).
  unfold binary_round_aux. rewrite S1, M1.
  set (z2 := round_nearest_even z1 (loc_of_shr_record mrs)).
  assert (B2 : z2 = z1 \/ z2 = z1 + 1) by apply round_nearest_even_cases.
  destruct (shr_fexp_carry z2 (e + sh)) as (m3 & e3 & S3 & V3 & E3 & B3); [lia|lia|].
  rewrite S3. cbn [shr_m]. destruct m3 as [|m3|m3]; try lia.
  exists (z2 * 2 ^ sh), m3, e3. split; [reflexivity|].
  split; [|split; [|exact B3]].
  - cbv zeta. fold d. fold sh. fold z1. split; [|lia].
    destruct B2 as [-> | ->]; split; try lia; apply Z.mul_le_mono_nonneg_r; lia.
  - replace (e3 - e) with ((e3 - (e + sh)) + sh) by lia.
    rewrite Z.pow_add_r, Z.mul_assoc, V3 by lia. reflexivity.
Qed.

Lemma normal_mantissa_digits m : normal_mantissa m -> Z.pos (digits2_pos m) = 53.
Proof. intros H. apply digits2_pos_eq. exact H. Qed.

Lemma div_pow2_bounds z sh : 0 <= sh -> (z / 2 ^ sh) * 2 ^ sh <= z < (z / 2 ^ sh + 1) * 2 ^ sh.
Proof.
  intros H. assert (P : 0 < 2 ^ sh) by (apply Z.pow_pos_nonneg; lia).
  pose proof (Z.mul_div_le z (2 ^ sh) P). pose proof (Z.mul_succ_div_gt z (2 ^ sh) P). lia.
Qed.

(** The product of two normal numbers, away from underflow and overflow. *)
Lemma SFmul_normal s1 m1 e1 s2 m2 e2 :
  normal_mantissa m1 -> normal_mantissa m2 ->
  -1126 <= e1 + e2 -> e1 + e2 + 54 <= 971 ->
  exists T k m3 e3,
    SF64mul (S754_finite s1 m1 e1) (S754_finite s2 m2 e2) = S754_finite (xorb s1 s2) m3 e3
    /\ 52 <= k <= 53
    /\ T - 2 ^ k <= Z.pos m1 * Z.pos m2 < T + 2 ^ k
    /\ 2 ^ 52 * 2 ^ k <= T
    /\ Z.pos m3 * 2 ^ (e3 - (e1 + e2)) = T
    /\ e1 + e2 + k <= e3
    /\ normal_mantissa m3.
Proof.
  intros N1 N2 Hlo Hhi. unfold SF64mul. cbn [SFmul].
  set (z := (m1 * m2)%positive).
  assert (Hz : Z.pos z = Z.pos m1 * Z.pos m2) by apply Pos2Z.inj_mul.
  pose proof (digits2_pos_bounds z) as [Dl Du].
  set (d := Z.pos (digits2_pos z)) in *.
  assert (Zl : 2 ^ 104 <= Z.pos z) by (rewrite Hz; change (2 ^ 104) with (2 ^ 52 * 2 ^ 52); unfold normal_mantissa in *; nia).
  assert (Zu : Z.pos z < 2 ^ 106) by (rewrite Hz; change (2 ^ 106) with (2 ^ 53 * 2 ^ 53); unfold normal_mantissa in *; nia).
  assert (Hd : 105 <= d <= 106).
  { split.
    - assert (2 ^ 104 < 2 ^ d) by lia. apply pow2_lt_inv in H; lia.
    - assert (2 ^ (d - 1) < 2 ^ 106) by lia. apply pow2_lt_inv in H; lia. }
  destruct (binary_round_aux_normal (xorb s1 s2) z (e1 + e2) loc_Exact)
    as (T & m3 & e3 & R & (Tb & Eb) & V & N3); [fold d; lia | fold d; lia|].
  fold d in Tb, Eb. set (k := d - 53) in *.
  pose proof (div_pow2_bounds (Z.pos z) k ltac:(unfold k; lia)) as Db.
  assert (P0 : 0 < 2 ^ k) by (apply Z.pow_pos_nonneg; unfold k; lia).
  exists T, k, m3, e3.
  assert (Hf : (e3 <=? 971) = true) by (apply Z.leb_le; unfold k in *; lia).
  rewrite R, Hf. split; [reflexivity|]. split; [unfold k; lia|].
  rewrite <- Hz. split; [lia|]. split; [|split; [exact V|split; [lia|exact N3]]].
  assert (2 ^ 52 <= Z.pos z / 2 ^ k).
  { apply Z.div_le_lower_bound; [lia|].
    rewrite Z.mul_comm, <- Z.pow_add_r by (unfold k; lia).
    replace (52 + k) with (d - 1) by (unfold k; lia). exact Dl. }
  eapply Z.le_trans; [|apply Tb]. apply Z.mul_le_mono_nonneg_r; lia.
Qed.

(** The quotient of two normal numbers, away from underflow and overflow. *)
Lemma SFdiv_normal s1 m1 e1 s2 m2 e2 :
  normal_mantissa m1 -> normal_mantissa m2 ->
  -1021 <= e1 - e2 <= 1020 ->
  exists T m3 e3,
    SF64div (S754_finite s1 m1 e1) (S754_finite s2 m2 e2) = S754_finite (xorb s1 s2) m3 e3
    /\ (Z.pos m1 * 2 ^ 53) / Z.pos m2 - 1 <= T <= (Z.pos m1 * 2 ^ 53) / Z.pos m2 + 2
    /\ Z.pos m3 * 2 ^ (e3 - (e1 - e2 - 53)) = T
    /\ e1 - e2 - 53 <= e3
    /\ normal_mantissa m3.
Proof.
  intros N1 N2 He. unfold SF64div. cbn [SFdiv].
  unfold SFdiv_core_binary. cbn [Zdigits2].
  rewrite (normal_mantissa_digits m1 N1), (normal_mantissa_digits m2 N2), fexp64.
  replace (Z.min (Z.max (53 + e1 - (53 + e2) - 53) (-1074)) (e1 - e2))
    with (e1 - e2 - 53) by lia.
  replace (e1 - e2 - (e1 - e2 - 53)) with 53 by lia.
  rewrite Z.shiftl_mul_pow2 by lia.
  set (Q := Z.pos m1 * 2 ^ 53 / Z.pos m2).
  pose proof (Z_div_mod (Z.pos m1 * 2 ^ 53) (Z.pos m2) ltac:(lia)) as DM.
  unfold Z.div in Q. destruct (Z.div_eucl (Z.pos m1 * 2 ^ 53) (Z.pos m2)) as [q r] eqn:DE.
  cbn [fst] in Q. subst Q. destruct DM as [DM Rb].
  unfold normal_mantissa in *.
  assert (Ql : 2 ^ 52 <= q).
  { assert (2 ^ 52 * Z.pos m2 < (q + 1) * Z.pos m2); [|nia].
    change (2 ^ 53) with (2 * 2 ^ 52) in *. nia. }
  assert (Qu : q < 2 ^ 54).
  { change (2 ^ 54) with (2 * 2 ^ 53). change (2 ^ 53) with (2 * 2 ^ 52) in *. nia. }
  destruct q as [|q|q]; try lia.
  pose proof (digits2_pos_bounds q) as [Dl Du].
  set (d := Z.pos (digits2_pos q)) in *.
  assert (Hd : 53 <= d <= 54).
  { split.
    - assert (2 ^ 52 < 2 ^ d) by lia. apply pow2_lt_inv in H; lia.
    - assert (2 ^ (d - 1) < 2 ^ 54) by lia. apply pow2_lt_inv in H; lia. }
  destruct (binary_round_aux_normal (xorb s1 s2) q (e1 - e2 - 53) (new_location (Z.pos m2) r))
    as (T & m3 & e3 & R & (Tb & Eb) & V & N3); [fold d; lia | fold d; lia|].
  fold d in Tb, Eb. set (sh := d - 53) in *.
  pose proof (div_pow2_bounds (Z.pos q) sh ltac:(unfold sh; lia)) as Db.
  assert (Hf : (e3 <=? 971) = true) by (apply Z.leb_le; unfold sh in *; lia).
  exists T, m3, e3. rewrite R, Hf. split; [reflexivity|].
  split; [|split; [exact V|split; [lia|exact N3]]].
  assert (Hsh : sh = 0 \/ sh = 1) by (unfold sh; lia).
  clearbody sh. destruct Hsh as [E|E]; subst sh.
  - change (2 ^ 0) with 1 in Tb, Db. rewrite Z.div_1_r in Tb. lia.
  - change (2 ^ 1) with 2 in Tb, Db. set (w := Z.pos q / 2) in *. lia.
Qed.

(** The square root of a normal number. *)
Lemma SFsqrt_normal m e :
  normal_mantissa m -> -1074 <= e <= 971 ->
  exists q2 m3 e3 b e',
    SF64sqrt (S754_finite false m e) = S754_finite false m3 e3
    /\ e = 2 * (e' + 26) + b /\ 0 <= b <= 1
    /\ (q2 - 1) * (q2 - 1) <= Z.pos m * 2 ^ (b + 52) < (q2 + 1) * (q2 + 1)
    /\ 2 ^ 52 <= q2
    /\ Z.pos m3 * 2 ^ (e3 - e') = q2
    /\ e' <= e3 <= e' + 1
    /\ normal_mantissa m3.
Proof.
  intros N He. unfold SF64sqrt. cbn [SFsqrt].
  unfold SFsqrt_core_binary. cbn [Zdigits2].
  rewrite (normal_mantissa_digits m N), fexp64, !Z.div2_div.
  pose proof (Z_div_mod_eq_full e 2) as Ed.
  pose proof (Z.mod_pos_bound e 2 ltac:(lia)) as Eb.
  set (h := e / 2) in *. set (b := e mod 2) in *.
  replace ((53 + e + 1) / 2) with (h + 27).
  2:{ replace (53 + e + 1) with (e + 27 * 2) by lia. rewrite Z.div_add by lia. reflexivity. }
  replace (Z.min (Z.max (h + 27 - 53) (-1074)) h) with (h - 26) by lia.
  replace (e - 2 * (h - 26)) with (b + 52) by lia.
  destruct (b + 52) as [|p|p] eqn:Es; try lia. rewrite <- Es.
  rewrite Z.shiftl_mul_pow2 by lia.
  set (A := Z.pos m * 2 ^ (b + 52)).
  unfold normal_mantissa in *.
  assert (Pb : 2 ^ (b + 52) = 2 ^ 52 \/ 2 ^ (b + 52) = 2 ^ 53).
  { assert (Hb : b = 0 \/ b = 1) by lia. destruct Hb as [-> | ->]; auto. }
  assert (Al : 2 ^ 104 <= A).
  { change (2 ^ 104) with (2 ^ 52 * 2 ^ 52). unfold A. destruct Pb as [-> | ->]; [nia|].
    change (2 ^ 53) with (2 * 2 ^ 52). nia. }
  assert (Au : A < 2 ^ 106).
  { change (2 ^ 106) with (2 ^ 53 * 2 ^ 53). unfold A. destruct Pb as [-> | ->]; [|nia].
    change (2 ^ 53) with (2 * 2 ^ 52). nia. }
  pose proof (Z.sqrtrem_spec A ltac:(lia)) as SR.
  destruct (Z.sqrtrem A) as [q r]. destruct SR as [SR Rb].
  assert (Q0 : 0 <= q).
  { destruct (Z.le_gt_cases 0 q); [assumption|]. exfalso. nia. }
  assert (Ql : 2 ^ 52 <= q).
  { destruct (Z.le_gt_cases (2 ^ 52) q); [assumption|]. exfalso.
    change (2 ^ 104) with (2 ^ 52 * 2 ^ 52) in Al. nia. }
  assert (Qu : q < 2 ^ 53).
  { destruct (Z.le_gt_cases (2 ^ 53) q); [|assumption]. exfalso.
    change (2 ^ 106) with (2 ^ 53 * 2 ^ 53) in Au. nia. }
  destruct q as [|q|q]; try lia.
  assert (Dq : Z.pos (digits2_pos q) = 53) by (apply digits2_pos_eq; lia).
  set (l := if r =? 0 then loc_Exact else loc_Inexact (if r <=? Z.pos q then Lt else Gt)).
  destruct (binary_round_aux_normal false q (h - 26) l)
    as (T & m3 & e3 & R & (Tb & Eb') & V & N3); [lia | lia|].
  rewrite Dq in Tb, Eb'. change (53 - 53) with 0 in Tb, Eb'.
  change (2 ^ 0) with 1 in Tb. rewrite Z.div_1_r, !Z.mul_1_r in Tb.
  assert (Hf : (e3 <=? 971) = true) by (apply Z.leb_le; lia).
  exists T, m3, e3, b, (h - 26). rewrite R, Hf. split; [reflexivity|].
  split; [lia|]. split; [lia|]. split; [fold A; nia|].
  split; [lia|]. split; [exact V|]. split; [lia|exact N3].
Qed.

(** The error analysis of [n / (sqrt n * sqrt n)], on mantissas. [A] is
    the argument, [q2] its rounded root, [W] the rounded square of the
    root and [U] the spacing of the grid it was rounded on, all at one
    scale. *)
Lemma square_of_root_close (A q2 W U : Z) :
  (q2 - 1) * (q2 - 1) <= A < (q2 + 1) * (q2 + 1) ->
  2 ^ 52 <= q2 ->
  W - U <= q2 * q2 < W + U ->
  2 ^ 52 * U <= W -> 2 ^ 52 <= U ->
  2 ^ 50 * Z.abs (A - W) <= W.
Proof.
  intros HA Hq HW HU HU0.
  assert (E1 : Z.abs (A - W) <= U + 2 * q2 + 1) by (apply Z.abs_le; nia).
  assert (E2 : 2 ^ 53 * q2 <= 2 * (q2 * q2)).
  { change (2 ^ 53) with (2 * 2 ^ 52). nia. }
  assert (E3 : 2 * U + 2 ^ 52 <= W).
  { assert (4 * U <= 2 ^ 52 * U) by (apply Z.mul_le_mono_nonneg_r; lia). lia. }
  assert (E4 : 4 * (2 ^ 50 * (U + 2 * q2 + 1)) <= 4 * W).
  { replace (4 * (2 ^ 50 * (U + 2 * q2 + 1)))
      with (2 ^ 52 * U + 2 ^ 53 * q2 + 2 ^ 52) by (change (2 ^ 52) with (4 * 2 ^ 50); change (2 ^ 53) with (8 * 2 ^ 50); ring).
    lia. }
  assert (0 <= 2 ^ 50) by lia.
  nia.
Qed.

Lemma quotient_close (m P3 G Q T : Z) :
  2 ^ 52 <= m < 2 ^ 53 -> 2 ^ 52 <= P3 < 2 ^ 53 ->
  2 ^ 50 * Z.abs (m * 2 ^ 53 - P3 * G) <= P3 * G ->
  2 ^ 51 <= G ->
  Q = m * 2 ^ 53 / P3 -> Q - 1 <= T <= Q + 2 ->
  2 ^ 49 * Z.abs (T - G) <= G.
Proof.
  intros Hm HP HG HG0 -> HT.
  pose proof (Z.mul_div_le (m * 2 ^ 53) P3 ltac:(lia)) as Ql.
  pose proof (Z.mul_succ_div_gt (m * 2 ^ 53) P3 ltac:(lia)) as Qu.
  set (Q := m * 2 ^ 53 / P3) in *. set (N := m * 2 ^ 53) in *.
  assert (Hab : - (P3 * G) <= 2 ^ 50 * (N - P3 * G) <= P3 * G).
  { apply Z.abs_le. rewrite Z.abs_mul, (Z.abs_eq (2 ^ 50)) by lia. exact HG. }
  assert (U1 : 2 ^ 50 * (Q - G) <= G).
  { assert (P3 * (2 ^ 50 * (Q - G)) <= P3 * G); [|nia].
    replace (P3 * (2 ^ 50 * (Q - G))) with (2 ^ 50 * (P3 * Q - P3 * G)) by ring.
    assert (2 ^ 50 * (P3 * Q - P3 * G) <= 2 ^ 50 * (N - P3 * G)); [|lia].
    apply Z.mul_le_mono_nonneg_l; lia. }
  assert (L1 : 2 ^ 50 * (G - Q - 1) < G).
  { assert (P3 * (2 ^ 50 * (G - Q - 1)) < P3 * G); [|nia].
    replace (P3 * (2 ^ 50 * (G - Q - 1))) with (2 ^ 50 * (P3 * G - P3 * Z.succ Q)) by ring.
    assert (2 ^ 50 * (P3 * G - P3 * Z.succ Q) < 2 ^ 50 * (P3 * G - N) ); [|lia].
    apply Z.mul_lt_mono_pos_l; lia. }
  change (2 ^ 50) with (2 * 2 ^ 49) in U1, L1. change (2 ^ 51) with (2 * (2 * 2 ^ 49)) in HG0.
  apply Z.abs_case; [intros ? ? ->; auto| |]; nia.
Qed.

Lemma pow2_pos a : 0 <= a -> 0 < 2 ^ a.
Proof. intros. apply Z.pow_pos_nonneg; lia. Qed.

(** [n / (sqrt n * sqrt n)] for a normal [n] away from the ends of the
    range: a finite number within [2^-49] of 1. *)
Lemma SF_self_quotient (m : positive) (e : Z) :
  normal_mantissa m -> -1073 <= e <= 967 ->
  exists mr er,
    SF64div (S754_finite false m e)
      (SF64mul (SF64sqrt (S754_finite false m e)) (SF64sqrt (S754_finite false m e)))
    = S754_finite false mr er
    /\ 2 ^ 49 * Z.abs (scaled mr er - 2 ^ 1074) <= 2 ^ 1074.
Proof.
  intros N He.
  destruct (SFsqrt_normal m e N ltac:(lia))
    as (q2 & m3 & e3 & b & e' & Rs & Ee & Hb & HA & Hq & V3 & E3 & N3).
  rewrite Rs.
  destruct (SFmul_normal false m3 e3 false m3 e3 N3 N3 ltac:(lia) ltac:(lia))
    as (Tp & k & P3 & ep & Rm & Hk & HT & HTl & Vp & Ep & NP).
  rewrite Rm. cbn [xorb].
  set (j := ep - (e3 + e3)) in *. set (dl := e3 - e') in *.
  assert (Pk : 2 ^ 52 <= 2 ^ k <= 2 ^ 53) by (split; apply Z.pow_le_mono_r; lia).
  assert (Hj : k <= j <= 54).
  { split; [unfold j; lia|].
    assert (J0 : 0 <= j) by (unfold j; lia).
    pose proof (pow2_pos j J0) as PJ.
    unfold normal_mantissa in *.
    assert (2 ^ 52 * 2 ^ j < 2 ^ 52 * 2 ^ 55).
    { change (2 ^ 52 * 2 ^ 55) with (2 ^ 53 * 2 ^ 53 + 2 ^ 53 * 2 ^ 53). nia. }
    assert (2 ^ j < 2 ^ 55) by nia. apply pow2_lt_inv in H0; lia. }
  destruct (SFdiv_normal false m e false P3 ep N NP ltac:(unfold j, dl in *; lia))
    as (T & mr & er & Rd & HTq & Vr & Er & Nr).
  exists mr, er. split; [exact Rd|].
  set (g := 1 + 2 * dl + j - b).
  assert (Hg : 52 <= g <= 57) by (unfold g, dl; lia).
  assert (Eg : e - ep - 53 = - g) by (unfold g, j, dl; lia).
  rewrite Eg in Vr, Er.
  (* everything at the scale of the root *)
  set (v := 2 ^ dl) in *.
  assert (Hv : v = 1 \/ v = 2).
  { unfold v. assert (D : dl = 0 \/ dl = 1) by (unfold dl; lia). destruct D as [-> | ->]; auto. }
  assert (Hvv : 2 ^ (2 * dl) = v * v).
  { unfold v. rewrite <- Z.pow_add_r by (unfold dl; lia). f_equal. lia. }
  set (J := 2 ^ j) in *.
  assert (PJ : 0 < J) by (apply pow2_pos; lia).
  pose proof (pow2_pos k ltac:(lia)) as PK.
  set (A := Z.pos m * 2 ^ (b + 52)) in *.
  assert (Close : 2 ^ 50 * Z.abs (A - Tp * (v * v)) <= Tp * (v * v)).
  { apply (square_of_root_close A q2 (Tp * (v * v)) (2 ^ k * (v * v))).
    - exact HA.
    - exact Hq.
    - rewrite <- V3. fold v.
      replace (Z.pos m3 * v * (Z.pos m3 * v)) with (Z.pos m3 * Z.pos m3 * (v * v)) by ring.
      destruct Hv as [-> | ->]; lia.
    - replace (2 ^ 52 * (2 ^ k * (v * v))) with (2 ^ 52 * 2 ^ k * (v * v)) by ring.
      destruct Hv as [-> | ->]; lia.
    - destruct Hv as [-> | ->]; lia. }
  set (G := 2 ^ g).
  assert (PG : 2 ^ 52 <= G) by (apply Z.pow_le_mono_r; lia).
  set (B := 2 ^ b).
  assert (PB : 0 < B) by (apply pow2_pos; lia).
  assert (EA : 2 * A = Z.pos m * 2 ^ 53 * B).
  { unfold A, B. rewrite (Z.pow_add_r 2 b 52) by lia. change (2 ^ 53) with (2 * 2 ^ 52). ring. }
  assert (EW : 2 * (Tp * (v * v)) = Z.pos P3 * G * B).
  { rewrite <- Vp. fold j. fold J. unfold G, B. rewrite <- Hvv.
    replace (Z.pos P3 * 2 ^ g * 2 ^ b) with (Z.pos P3 * (2 ^ g * 2 ^ b)) by ring.
    rewrite <- Z.pow_add_r by lia. replace (g + b) with (1 + j + 2 * dl) by (unfold g; lia).
    rewrite !Z.pow_add_r by (unfold dl; lia). fold J. change (2 ^ 1) with 2. ring. }
  assert (Close' : 2 ^ 50 * Z.abs (Z.pos m * 2 ^ 53 - Z.pos P3 * G) <= Z.pos P3 * G).
  { assert (H2 : 2 ^ 50 * Z.abs (2 * A - 2 * (Tp * (v * v))) <= 2 * (Tp * (v * v))).
    { replace (2 * A - 2 * (Tp * (v * v))) with (2 * (A - Tp * (v * v))) by ring.
      rewrite Z.abs_mul, (Z.abs_eq 2) by lia. lia. }
    rewrite EA, EW in H2.
    replace (Z.pos m * 2 ^ 53 * B - Z.pos P3 * G * B)
      with ((Z.pos m * 2 ^ 53 - Z.pos P3 * G) * B) in H2 by ring.
    rewrite Z.abs_mul, (Z.abs_eq B) in H2 by lia.
    apply (Z.mul_le_mono_pos_r _ _ B PB).
    rewrite <- Z.mul_assoc. exact H2. }
  pose proof (quotient_close (Z.pos m) (Z.pos P3) G _ T N NP Close' ltac:(lia) eq_refl HTq) as QC.
  (* back to the key of the result *)
  assert (ET : scaled mr er - 2 ^ 1074 = (T - G) * 2 ^ (1074 - g)).
  { unfold scaled, G. rewrite Z.mul_sub_distr_r, <- Z.pow_add_r by lia.
    replace (g + (1074 - g)) with 1074 by lia. f_equal.
    rewrite <- Vr, <- Z.mul_assoc, <- Z.pow_add_r by lia. f_equal. f_equal. lia. }
  rewrite ET, Z.abs_mul, (Z.abs_eq (2 ^ (1074 - g))) by (apply Z.pow_nonneg; lia).
  replace (2 ^ 1074) with (G * 2 ^ (1074 - g))
    by (unfold G; rewrite <- Z.pow_add_r by lia; f_equal; lia).
  rewrite Z.mul_assoc. apply Z.mul_le_mono_nonneg_r; [apply Z.pow_nonneg; lia | exact QC].
Qed.

Lemma key_abs x a :
  valid_binary x = true -> key x = Some a -> key (SFabs x) = Some (Z.abs a).
Proof.
  intros V K. destruct x as [s|s| |s m e]; cbn [key SFabs] in *; try discriminate;
    injection K as <-.
  - reflexivity.
  - assert (0 < huge) by reflexivity. destruct s; cbn [cond_Zopp]; f_equal; lia.
  - pose proof (scaled_pos m e). apply valid_finite_inv in V.
    destruct s; cbn [cond_Zopp]; f_equal; lia.
Qed.

Lemma fkey_lower : fkey 0x1p-1021%float = Some (2 ^ 53).
Proof. reflexivity. Qed.
Lemma fkey_upper : fkey 0x1p1020%float = Some (2 ^ 2094).
Proof. reflexivity. Qed.
Lemma fkey_tolerance : fkey 0x1p-48%float = Some (2 ^ 1026).
Proof. reflexivity. Qed.

(** A binary64 number in [2^-1021, 2^1020) is normal, with room on both
    sides. *)
Lemma normal_range_inv (n : float) :
  (0x1p-1021 <=? n)%float = true -> (n <? 0x1p1020)%float = true ->
  exists m e, Prim2SF n = S754_finite false m e
              /\ normal_mantissa m /\ -1073 <= e <= 967.
Proof.
  intros Hl Hu.
  apply leb_true_keys in Hl. destruct Hl as (lo & a & Klo & Ka & Hl).
  rewrite fkey_lower in Klo. injection Klo as <-.
  apply ltb_true_keys in Hu. destruct Hu as (a' & hi & Ka' & Khi & Hu).
  rewrite Ka in Ka'. injection Ka' as <-.
  rewrite fkey_upper in Khi. injection Khi as <-.
  pose proof (Prim2SF_valid n) as V. unfold fkey in Ka.
  destruct (Prim2SF n) as [s|s| |s m e]; cbn [key] in Ka; try discriminate;
    injection Ka as <-.
  - exfalso. assert (0 < 2 ^ 53) by reflexivity. lia.
  - exfalso. assert (2 ^ 2094 < huge) by reflexivity. assert (0 < 2 ^ 53) by reflexivity.
    destruct s; cbn [cond_Zopp] in *; lia.
  - pose proof (valid_finite_inv _ _ _ V) as (He & Hd & Hn).
    pose proof (scaled_pos m e ltac:(lia)) as Hp.
    assert (0 < 2 ^ 53) by reflexivity.
    destruct s; cbn [cond_Zopp] in *; [lia|].
    pose proof (digits2_pos_bounds m) as [Dl Du].
    assert (Mu : Z.pos m < 2 ^ 53).
    { eapply Z.lt_le_trans; [exact Du|]. apply Z.pow_le_mono_r; lia. }
    assert (E1 : -1074 < e).
    { destruct (Z.eq_dec e (-1074)) as [->|]; [|lia].
      unfold scaled in Hl. change (2 ^ (-1074 + 1074)) with 1 in Hl. lia. }
    rewrite (Hn E1) in Dl. change (53 - 1) with 52 in Dl.
    exists m, e. split; [reflexivity|]. split; [split; assumption|]. split; [lia|].
    assert (2 ^ (52 + (e + 1074)) < 2 ^ 2094).
    { rewrite Z.pow_add_r by lia. eapply Z.le_lt_trans; [|exact Hu]. unfold scaled.
      apply Z.mul_le_mono_nonneg_r; [apply Z.pow_nonneg|]; lia. }
    apply pow2_lt_inv in H0; lia.
Qed.

Lemma fkey_below_one : fkey 0x1.ffffffffffffp-1%float = Some (2 ^ 1074 - 2 ^ 1025).
Proof. reflexivity. Qed.
Lemma fkey_above_one : fkey 0x1.0000000000008p+0%float = Some (2 ^ 1074 + 2 ^ 1025).
Proof. reflexivity. Qed.

(** For a computed sum of squares [n] in [2^-1021, 2^1020), the value
    [n / (sqrt n * sqrt n)] that [calculateSimilarity(a, a)] returns lies
    between [1 - 2^-49] and [1 + 2^-49], and so within [2^-48] of 1. *)
Lemma self_quotient_accurate (n : float) :
  (0x1p-1021 <=? n)%float = true -> (n <? 0x1p1020)%float = true ->
  within_tolerance 0x1p-48 (n / (sqrt n * sqrt n)) 1 = true
  /\ (0x1.ffffffffffffp-1 <=? n / (sqrt n * sqrt n))%float = true
  /\ (n / (sqrt n * sqrt n) <=? 0x1.0000000000008p+0)%float = true.
Proof.
  intros Hl Hu. destruct (normal_range_inv n Hl Hu) as (m & e & En & N & He).
  destruct (SF_self_quotient m e N He) as (mr & er & Er & Hc).
  set (r := (n / (sqrt n * sqrt n))%float).
  assert (Pr : Prim2SF r = S754_finite false mr er).
  { unfold r. rewrite div_spec, mul_spec, sqrt_spec, En. exact Er. }
  assert (Kr : fkey r = Some (scaled mr er)) by (unfold fkey; rewrite Pr; reflexivity).
  assert (Hd : Z.abs (scaled mr er - 2 ^ 1074) <= 2 ^ 1025).
  { change (2 ^ 1074) with (2 ^ 49 * 2 ^ 1025) in Hc at 2.
    assert (0 < 2 ^ 1025) by reflexivity. assert (0 < 2 ^ 49) by reflexivity. nia. }
  assert (Hd' : Z.abs (scaled mr er - 2 ^ 1074) < 2 ^ 1026).
  { change (2 ^ 1026) with (2 * 2 ^ 1025). assert (0 < 2 ^ 1025) by reflexivity. lia. }
  split.
  - destruct (SFsub_key (Prim2SF r) (Prim2SF 1%float) (scaled mr er) (2 ^ 1074)
                (Prim2SF_valid _) (Prim2SF_valid _) Kr fkey_one)
      as (k & Kk & _ & Bk); [left; rewrite Pr; reflexivity|].
    rewrite <- sub_spec in Kk.
    destruct (Bk ltac:(rewrite Pr; reflexivity) eq_refl 1026 ltac:(lia) Hd') as [Hk _].
    unfold within_tolerance.
    assert (Ka : fkey (abs (r - 1)) = Some (Z.abs k)).
    { unfold fkey. rewrite abs_spec. apply key_abs; [apply Prim2SF_valid | exact Kk]. }
    rewrite (leb_key _ _ _ _ Ka fkey_tolerance). apply Z.leb_le. exact Hk.
  - rewrite (leb_key _ _ _ _ fkey_below_one Kr), (leb_key _ _ _ _ Kr fkey_above_one).
    split; apply Z.leb_le; lia.
Qed.

(** ** calculateSimilarity of a vector with itself, in binary64 *)

Lemma calculateSimilarity_self64 (a : list number) :
  calculateSimilarity a a
  = Return (dot64 a a / (sqrt (dot64 a a) * sqrt (dot64 a a)))%float.
Proof. rewrite calculateSimilarity_cosine64, Nat.eqb_refl. reflexivity. Qed.

Lemma self_quotient_degenerate (n : number) :
  zero_or_nan n \/ n = infinity -> (n / (sqrt n * sqrt n))%float = nan.
Proof.
  intros [Z| ->].
  - apply div_zero_or_nan; [exact Z|]. apply mul_zero_zero, sqrt_zero_or_nan, Z.
  - reflexivity.
Qed.

Lemma nan_not_within_tolerance (tol y : number) : within_tolerance tol nan y = false.
Proof.
  unfold within_tolerance.
  assert (K : fkey (abs (nan - y)) = None).
  { unfold fkey. rewrite abs_spec, sub_spec. reflexivity. }
  destruct (cmp_nan_l _ tol K) as (_ & -> & _). reflexivity.
Qed.

(** * The claims of the specification *)

(** ** generateEmbedding *)

(** C1, as amended. When the backend is in place (the service was
    initialized already, or this call's [initialize] succeeds) and the
    feature-extraction call fails for any reason, [generateEmbedding] does
    not raise: it returns a vector of exactly 384 components, each within
    [-1, 1], for draws of [Math.random()] in [0, 1). When the service is
    not initialized and neither backend can be acquired, the error of
    [initialize] reaches the caller instead. *)
Theorem generateEmbedding_degrades (env : Environment) (text : jsstring)
  (this : EmbeddingServiceClass) :
  (forall after,
      random_in_unit_interval env ->
      backend_in_place env this after ->
      extraction_fails after (preprocessText text) ->
      exists v, completion (generateEmbedding env text this) = Return v
                /\ length v = 384%nat /\ Forall within_unit v)
  /\ (isInitialized this = false -> no_backend env ->
      completion (generateEmbedding env text this) = Throw InitializationError).
Proof.
  split.
  - intros after Hr Hb Hf. exists (dummy_embedding env).
    split; [|apply dummy_embedding_shape, Hr].
    destruct Hb as [[Hi ->]|(Hi & Hc & ->)].
    + apply generateEmbedding_catch; assumption.
    + apply generateEmbedding_after_initialize; assumption.
  - intros Hi [[e1 G] [e2 C]].
    apply generateEmbedding_initialize_throws; [exact Hi|].
    rewrite (initialize_without_backend env this e1 e2 Hi G C). reflexivity.
Qed.

Lemma generateEmbedding_degrades_witness :
  (exists v,
      completion (generateEmbedding env_failing_model (js "hello") new_EmbeddingServiceClass)
      = Return v
      /\ length v = 384%nat /\ Forall within_unit v)
  /\ completion (generateEmbedding env_no_backend (js "hello") new_EmbeddingServiceClass)
     = Throw InitializationError.
Proof.
  split.
  - apply (proj1 (generateEmbedding_degrades env_failing_model (js "hello")
                    new_EmbeddingServiceClass)
             (this_after (initialize env_failing_model new_EmbeddingServiceClass))).
    + intros k. split; reflexivity.
    + right. repeat split; reflexivity.
    + exists (Error "model error"). reflexivity.
  - apply (proj2 (generateEmbedding_degrades env_no_backend (js "hello")
                    new_EmbeddingServiceClass)).
    + reflexivity.
    + split; exists (Error "no backend"); reflexivity.
Defined.

(** C1 as stated fails: with no backend to acquire, a call on a fresh
    service raises instead of returning a vector. *)
Lemma generateEmbedding_raises_without_backend :
  no_backend env_no_backend
  /\ ~ exists v,
        completion (generateEmbedding env_no_backend (js "hello") new_EmbeddingServiceClass)
        = Return v.
Proof.
  split.
  - split; exists (Error "no backend"); reflexivity.
  - intros [v H]. vm_compute in H. discriminate.
Qed.

(** ** initialize *)

(** C6. On an initialized service [initialize] returns at once, changing
    nothing and causing no event. When both acquisitions fail it throws the
    initialization error and leaves the service as it was, uninitialized,
    so that the next call tries again (it requests the pipeline anew, and
    succeeds if a backend is then available). Once a call has returned,
    every later call is such a no-op. *)
Theorem initialize_idempotent_retryable (env : Environment)
  (this : EmbeddingServiceClass) :
  (isInitialized this = true ->
   initialize env this
   = {| completion := Return tt; this_after := this; events := [] |})
  /\ (isInitialized this = false -> no_backend env ->
      completion (initialize env this) = Throw InitializationError
      /\ this_after (initialize env this) = this
      /\ forall env',
           let retry := initialize env' (this_after (initialize env this)) in
           In (pipeline_called webgpu) (events retry)
           /\ ((exists ex, pipeline env' webgpu = Return ex
                           \/ pipeline env' cpu = Return ex) ->
               completion retry = Return tt
               /\ isInitialized (this_after retry) = true))
  /\ (completion (initialize env this) = Return tt ->
      isInitialized (this_after (initialize env this)) = true
      /\ forall env',
           initialize env' (this_after (initialize env this))
           = {| completion := Return tt;
                this_after := this_after (initialize env this);
                events := [] |}).
Proof.
  split; [|split].
  - apply initialize_when_initialized.
  - intros Hi [[e1 G] [e2 C]].
    rewrite (initialize_without_backend env this e1 e2 Hi G C).
    cbn [completion this_after]. split; [reflexivity|]. split; [reflexivity|].
    intros env'. cbv zeta. split; [apply initialize_tries, Hi|].
    intros [ex [G'|C']].
    + rewrite (initialize_on_webgpu env' this ex Hi G'). split; reflexivity.
    + destruct (pipeline env' webgpu) as [ex'|e1'] eqn:G'.
      * rewrite (initialize_on_webgpu env' this ex' Hi G'). split; reflexivity.
      * rewrite (initialize_on_cpu env' this e1' ex Hi G' C'). split; reflexivity.
  - intros Hc. pose proof (initialize_returns_initialized env this Hc) as Hi.
    split; [exact Hi|]. intros env'. apply initialize_when_initialized, Hi.
Qed.

Lemma initialize_idempotent_retryable_witness :
  completion (initialize env_no_backend new_EmbeddingServiceClass)
  = Throw InitializationError
  /\ this_after (initialize env_no_backend new_EmbeddingServiceClass)
     = new_EmbeddingServiceClass
  /\ completion (initialize env_working_model
                   (this_after (initialize env_no_backend new_EmbeddingServiceClass)))
     = Return tt.
Proof.
  destruct (proj1 (proj2 (initialize_idempotent_retryable env_no_backend
                            new_EmbeddingServiceClass)))
    as (Ht & Hs & Hr).
  - reflexivity.
  - split; exists (Error "no backend"); reflexivity.
  - split; [exact Ht|]. split; [exact Hs|].
    apply (Hr env_working_model).
    exists (fun _ => Return [1; 0]%float). right. reflexivity.
Defined.

(** ** calculateSimilarity *)

(** C3. With vectors of different lengths [calculateSimilarity] throws the
    dimension-mismatch error, as it does on [[1,0]] and [[1,0,0]]; with
    equal lengths it returns [dot(a,b) / (norm(a) * norm(b))], whatever the
    vectors: a zero vector is not treated apart and yields NaN. *)
Theorem calculateSimilarity_spec (a b : list number) :
  (length a <> length b ->
   calculateSimilarity a b = Throw DimensionMismatchError)
  /\ (length a = length b ->
      calculateSimilarity a b
      = Return (dot64 a b / (sqrt (dot64 a a) * sqrt (dot64 b b)))%float)
  /\ calculateSimilarity [1; 0]%float [1; 0; 0]%float = Throw DimensionMismatchError
  /\ calculateSimilarity [0; 0]%float [1; 0]%float = Return nan.
Proof.
  rewrite calculateSimilarity_cosine64. repeat split.
  - intros N. apply Nat.eqb_neq in N. now rewrite N.
  - intros E. now rewrite E, Nat.eqb_refl.
Qed.

(** C7. [calculateSimilarity(a, b)] and [calculateSimilarity(b, a)] end the
    same way: with the same number (NaN included) when the lengths agree,
    and with the same error otherwise. The two numbers then compare equal
    under [==] unless they are NaN. *)
Theorem calculateSimilarity_symmetric (a b : list number) :
  calculateSimilarity a b = calculateSimilarity b a
  /\ forall s t,
       calculateSimilarity a b = Return s -> calculateSimilarity b a = Return t ->
       PrimFloat.is_nan s = false -> (s =? t)%float = true.
Proof.
  split; [apply calculateSimilarity_comm|].
  intros s t Hs Ht N. rewrite calculateSimilarity_comm, Ht in Hs. injection Hs as ->.
  unfold PrimFloat.is_nan in N. now apply negb_false_iff in N.
Qed.

(** C8, as amended. For every vector whose sum of squares, as the loop
    computes it, lies in [2^-1021, 2^1020), [calculateSimilarity(a, a)]
    returns a number within [2^-48] of 1 (between [1 - 2^-49] and
    [1 + 2^-49]). In general it returns [n / (sqrt(n) * sqrt(n))] for that
    sum [n], which is NaN when the sum has underflowed to zero or
    overflowed to Infinity. *)
Theorem calculateSimilarity_self (a : list number) :
  ((0x1p-1021 <=? dot64 a a)%float = true -> (dot64 a a <? 0x1p1020)%float = true ->
   exists r, calculateSimilarity a a = Return r
             /\ within_tolerance 0x1p-48 r 1 = true
             /\ (0x1.ffffffffffffp-1 <=? r)%float = true
             /\ (r <=? 0x1.0000000000008p+0)%float = true)
  /\ calculateSimilarity a a
     = Return (dot64 a a / (sqrt (dot64 a a) * sqrt (dot64 a a)))%float
  /\ (zero_or_nan (dot64 a a) \/ dot64 a a = infinity ->
      calculateSimilarity a a = Return nan).
Proof.
  split; [|split; [apply calculateSimilarity_self64|]].
  - intros Hl Hu. rewrite calculateSimilarity_self64. eexists. split; [reflexivity|].
    apply self_quotient_accurate; assumption.
  - intros H. rewrite calculateSimilarity_self64. f_equal.
    apply self_quotient_degenerate, H.
Qed.

Lemma calculateSimilarity_self_witness :
  (exists r, calculateSimilarity [1; 2; 3]%float [1; 2; 3]%float = Return r
             /\ within_tolerance 0x1p-48 r 1 = true
             /\ (0x1.ffffffffffffp-1 <=? r)%float = true
             /\ (r <=? 0x1.0000000000008p+0)%float = true)
  /\ calculateSimilarity [0x1p-600]%float [0x1p-600]%float = Return nan.
Proof.
  split.
  - apply (proj1 (calculateSimilarity_self [1; 2; 3]%float)); reflexivity.
  - apply (proj2 (proj2 (calculateSimilarity_self [0x1p-600]%float))). left. exact I.
Defined.

(** C8 as stated fails: [[2^700]] is not a zero vector, yet its similarity
    with itself is NaN, which is within no tolerance of 1. *)
Lemma calculateSimilarity_self_overflow :
  (0x1p700 =? 0)%float = false
  /\ calculateSimilarity [0x1p700]%float [0x1p700]%float = Return nan
  /\ forall tol, within_tolerance tol nan 1 = false.
Proof.
  split; [reflexivity|]. split; [reflexivity|].
  intros tol. apply nan_not_within_tolerance.
Qed.

(** ** findSimilarDocuments *)

(** C2, as amended. Whenever [findSimilarDocuments] returns, every entry is
    a document of the input with its similarity to the query, and that
    similarity is at least [threshold]; for a limit that is not negative
    there are at most [limit] entries; the entries are in descending order
    of similarity; and entries of equal similarity keep the order of the
    input (for each similarity, the result holds the first of them). *)
Theorem findSimilarDocuments_ranked (Metadata : Type) (q : list number)
  (docs : list (Document Metadata)) (threshold : number) (limit : Z)
  (result : list (ScoredDocument Metadata)) :
  findSimilarDocuments q docs threshold limit = Return result ->
  (forall r, In r result ->
     In (doc r) docs
     /\ calculateSimilarity q (embedding (doc r)) = Return (similarity r)
     /\ (threshold <=? similarity r)%float = true)
  /\ (0 <= limit -> Z.of_nat (length result) <= limit)
  /\ StronglySorted (@descending Metadata) result
  /\ exists similarities,
       Array_map (score q) docs = Return similarities
       /\ map (@doc Metadata) similarities = docs
       /\ forall s, exists later,
            filter (same_similarity s) similarities
            = filter (same_similarity s) result ++ later.
Proof.
  intros H. split; [exact (findSimilarDocuments_entries _ q docs threshold limit result H)|].
  pose proof (findSimilarDocuments_entries _ q docs threshold limit result H) as Hent.
  apply findSimilarDocuments_inv in H. destruct H as (sims & Hm & ->).
  set (sorted := Array_sort (filter (passes threshold) sims)) in *.
  destruct (slice_prefix sorted limit) as [later0 E].
  split; [apply slice_nonneg_length|].
  split.
  - apply StronglySorted_app_l with later0. rewrite <- E.
    apply Array_sort_sorted, filter_passes_comparable.
  - exists sims. split; [exact Hm|]. split; [exact (scored_docs _ q docs sims Hm)|].
    intros s. destruct (threshold <=? s)%float eqn:T.
    + exists (filter (same_similarity s) later0).
      rewrite <- filter_app, <- E. unfold sorted.
      now rewrite Array_sort_stable, filter_same_passes.
    + exists (filter (same_similarity s) sims).
      replace (filter (same_similarity s) (slice sorted 0 limit)) with
        (@nil (ScoredDocument Metadata)); [reflexivity|].
      symmetry. apply filter_none. intros r Hr.
      destruct (same_similarity s r) eqn:S; [|reflexivity].
      destruct (Hent r Hr) as (_ & _ & P).
      rewrite (same_passes _ threshold s r S P) in T. discriminate.
Qed.

Lemma findSimilarDocuments_ranked_witness :
  exists result,
    findSimilarDocuments [1; 0]%float example_docs default_threshold default_limit
    = Return result
    /\ map (fun r => id (doc r)) result = [js "first"; js "third"]
    /\ StronglySorted (@descending unit) result.
Proof.
  eexists. split; [vm_compute; reflexivity|]. split; [reflexivity|].
  eapply (findSimilarDocuments_ranked unit [1; 0]%float example_docs
            default_threshold default_limit).
  vm_compute. reflexivity.
Defined.

(** C2 as stated fails for a negative limit: [slice(0, -1)] drops the last
    entry only, and one entry is more than -1. *)
Lemma findSimilarDocuments_negative_limit :
  exists result,
    findSimilarDocuments [1; 0]%float example_docs default_threshold (-1)
    = Return result
    /\ ~ Z.of_nat (length result) <= -1.
Proof.
  eexists. split; [vm_compute; reflexivity|]. cbn. lia.
Qed.

(** C9. When every document has the dimension of the query,
    [findSimilarDocuments] returns, whatever the similarities are, and no
    document whose similarity is NaN is in the result: NaN passes no
    threshold. A zero query, or a zero document, has similarity NaN. *)
Theorem findSimilarDocuments_skips_NaN (Metadata : Type) (q : list number)
  (docs : list (Document Metadata)) (threshold : number) (limit : Z) :
  (forall d, In d docs -> length (embedding d) = length q) ->
  exists result,
    findSimilarDocuments q docs threshold limit = Return result
    /\ (forall d, In d docs ->
          calculateSimilarity q (embedding d) = Return nan ->
          ~ In d (map (@doc Metadata) result))
    /\ (forall d, In d docs ->
          is_zero_vector q \/ is_zero_vector (embedding d) ->
          calculateSimilarity q (embedding d) = Return nan)
    /\ (threshold <=? nan)%float = false.
Proof.
  intros Hdim.
  destruct (findSimilarDocuments_returns _ q docs threshold limit Hdim) as [result H].
  assert (Hnan : (threshold <=? nan)%float = false).
  { destruct (cmp_nan_l nan threshold eq_refl) as (_ & _ & _ & _ & E & _). exact E. }
  exists result. split; [exact H|]. split; [|split; [|exact Hnan]].
  - intros d Hd Hs Hin. apply in_map_iff in Hin. destruct Hin as (r & <- & Hr).
    destruct (findSimilarDocuments_entries _ q docs threshold limit result H r Hr)
      as (_ & Hs' & P).
    rewrite Hs in Hs'. injection Hs' as Hs'. rewrite <- Hs' in P. congruence.
  - intros d Hd Z. apply calculateSimilarity_zero_vector; [|exact Z].
    symmetry. apply Hdim, Hd.
Qed.

Lemma findSimilarDocuments_skips_NaN_witness :
  exists result,
    findSimilarDocuments [1; 0]%float example_docs_with_zero default_threshold default_limit
    = Return result
    /\ ~ In (example_doc "zero" [0; 0]%float) (map (@doc unit) result).
Proof.
  destruct (findSimilarDocuments_skips_NaN unit [1; 0]%float example_docs_with_zero
              default_threshold default_limit) as (result & H & Hskip & Hzero & _).
  - intros d [<-|[<-|[]]]; reflexivity.
  - exists result. split; [exact H|].
    apply Hskip; [left; reflexivity|].
    apply Hzero; [left; reflexivity|].
    right. repeat constructor.
Defined.

(** ** chunkText *)

(** C4. For [0 <= overlap < chunkSize] the loop of [chunkText] ends, and
    the call returns the chunks of the specification: chunk number [i]
    holds the words from index [i * (chunkSize - overlap)] on, at most
    [chunkSize] of them (fewer only at the end of the text), joined by
    single spaces, and there is a chunk for exactly the start indices below
    the word count. On ["w1 w2 w3 w4 w5"] with sizes 3 and 1 these are
    ["w1 w2 w3"], ["w3 w4 w5"] and ["w5"]. *)
Theorem chunkText_chunks (text : jsstring) (chunkSize overlap : Z) :
  0 <= overlap < chunkSize ->
  let words := split_whitespace text in
  chunkText_returns text chunkSize overlap (spec_chunks text chunkSize overlap)
  /\ (forall i, (i < spec_chunk_count words chunkSize overlap)%nat
                <-> chunk_start chunkSize overlap i < Z.of_nat (length words))
  /\ (forall i, length (words_of_chunk words chunkSize overlap i)
                = Nat.min (Z.to_nat chunkSize)
                    (length words - Z.to_nat (chunk_start chunkSize overlap i)))
  /\ chunkText_returns (js "w1 w2 w3 w4 w5") 3 1
       [js "w1 w2 w3"; js "w3 w4 w5"; js "w5"].
Proof.
  intros Hp words. split; [apply chunkText_spec_chunks, Hp|].
  split; [intros i; apply chunk_count_spec; lia|].
  split; [intros i; apply words_of_chunk_length|].
  assert (E : spec_chunks (js "w1 w2 w3 w4 w5") 3 1
              = [js "w1 w2 w3"; js "w3 w4 w5"; js "w5"]) by reflexivity.
  rewrite <- E. apply chunkText_spec_chunks. lia.
Qed.

Lemma chunkText_chunks_witness :
  chunkText_returns (js "a b c") 2 0 [js "a b"; js "c"]
  /\ length (words_of_chunk (split_whitespace (js "a b c")) 2 0 1) = 1%nat.
Proof.
  destruct (chunkText_chunks (js "a b c") 2 0) as (H & _ & L & _); [lia|].
  split; [exact H | exact (L 1%nat)].
Defined.

(** C10. The empty string splits into one empty word, so [chunkText] with
    the default sizes returns one chunk, the empty string, and not an empty
    array. *)
Theorem chunkText_empty_string :
  split_whitespace (js "") = [js ""]
  /\ chunkText_returns (js "") default_chunkSize default_overlap [js ""]
  /\ ~ chunkText_returns (js "") default_chunkSize default_overlap [].
Proof.
  split; [reflexivity|].
  assert (R : chunkText_returns (js "") default_chunkSize default_overlap [js ""]).
  { exists 2%nat. intros [|[|fuel]] Hf; try lia. reflexivity. }
  split; [exact R|].
  intros [n Hn]. destruct R as [m Hm].
  specialize (Hn (Nat.max n m) (Nat.le_max_l n m)).
  specialize (Hm (Nat.max n m) (Nat.le_max_r n m)).
  rewrite Hm in Hn. discriminate.
Qed.

(** ** preprocessText *)

(** C5, as amended. [preprocessText] replaces every run of whitespace by one
    space (after which no two whitespace code units are neighbours, every
    whitespace is a space, and the other code units are as before), removes
    the code units outside word characters, whitespace and [. , ! ? -],
    trims whitespace at both ends, and keeps the first 4000 code units. So
    the result has only code units of that set, at most 4000 of them, and
    does not start with whitespace. ["  Hello   World!!  "] becomes
    ["Hello World!!"], both exclamation marks kept. *)
Theorem preprocessText_cleans (text : jsstring) :
  let collapsed := replace_whitespace_runs false text in
  preprocessText text = firstn 4000 (trim (remove_special collapsed))
  /\ (no_adjacent_whitespace collapsed = true
      /\ Forall (fun c => is_whitespace c = true -> c = SPACE) collapsed
      /\ visible collapsed = visible text)
  /\ Forall (fun c => is_kept c = true) (preprocessText text)
  /\ (starts_clean (trim (remove_special collapsed))
      /\ ends_clean (trim (remove_special collapsed)))
  /\ starts_clean (preprocessText text)
  /\ (length (preprocessText text) <= 4000)%nat
  /\ preprocessText (js "  Hello   World!!  ") = js "Hello World!!".
Proof.
  intros collapsed. rewrite preprocessText_pipeline. fold collapsed.
  split; [reflexivity|]. split.
  { split; [apply replace_whitespace_runs_collapsed|].
    split; [apply replace_whitespace_runs_spaces | apply replace_whitespace_runs_visible]. }
  split.
  { apply firstn_Forall, trim_Forall. unfold remove_special.
    apply Forall_forall. intros c Hc. apply filter_In in Hc. tauto. }
  split; [apply trim_clean|].
  split; [apply starts_clean_firstn, trim_clean|].
  split; [apply firstn_le_length | reflexivity].
Qed.

(** C5 as stated fails on its own example: the result is not
    ["Hello World!"]. *)
Lemma preprocessText_keeps_both_marks :
  preprocessText (js "  Hello   World!!  ") <> js "Hello World!".
Proof. vm_compute. discriminate. Qed.

(** * Further properties of the code *)

(** What [generateEmbedding] does on an initialized service. *)
Lemma generateEmbedding_initialized (env : Environment) (text : jsstring)
  (this : EmbeddingServiceClass) :
  isInitialized this = true ->
  generateEmbedding env text this
  = match extractor this with
    | Some ex =>
        match ex (preprocessText text) with
        | Return v =>
            {| completion := Return v; this_after := this;
               events := [ extractor_called (preprocessText text);
                           console_log ("Generated embedding for text ("
                             ++ decimal (length (preprocessText text)) ++ " chars): "
                             ++ decimal (length v) ++ " dimensions")%string ] |}
        | Throw e =>
            {| completion := Return (dummy_embedding env); this_after := this;
               events := [ extractor_called (preprocessText text);
                           console_error "Error generating embedding:" e ] |}
        end
    | None =>
        {| completion := Return (dummy_embedding env); this_after := this;
           events := [ console_error "Error generating embedding:"
                         (Error "this.extractor is not a function") ] |}
    end.
Proof.
  intros H. unfold generateEmbedding. run_method. rewrite H. cbn [negb]. run_method.
  destruct (extractor this) as [ex|]; [|reflexivity].
  destruct (ex (preprocessText text)); reflexivity.
Qed.

(** An initialized service goes straight to the [try] block. *)
Lemma generateEmbedding_skips_initialize (env : Environment) (text : jsstring)
  (this : EmbeddingServiceClass) :
  isInitialized this = true ->
  generateEmbedding env text this
  = try_catch
      (embedding <- call_extractor (preprocessText text) ;;
       emit (console_log ("Generated embedding for text ("
                            ++ decimal (length (preprocessText text)) ++ " chars): "
                            ++ decimal (length embedding) ++ " dimensions")%string) ;;
       ret embedding)
      (fun error =>
         emit (console_error "Error generating embedding:" error) ;;
         ret (dummy_embedding env)) this.
Proof.
  intros H. unfold generateEmbedding.
  unfold bind at 1. unfold read_this at 1. rewrite H. cbn [negb].
  unfold bind at 1. unfold ret at 1.
  match goal with |- context [try_catch ?b ?h this] =>
    destruct (try_catch b h this) as [c2 this2 evs2] end.
  reflexivity.
Qed.

(** On an uninitialized service [generateEmbedding] is [initialize]
    followed, if that returned, by the call on the service it left. *)
Lemma generateEmbedding_uninitialized (env : Environment) (text : jsstring)
  (this : EmbeddingServiceClass) :
  isInitialized this = false ->
  generateEmbedding env text this
  = match completion (initialize env this) with
    | Throw e => {| completion := Throw e;
                    this_after := this_after (initialize env this);
                    events := events (initialize env this) |}
    | Return _ =>
        let next := generateEmbedding env text (this_after (initialize env this)) in
        {| completion := completion next; this_after := this_after next;
           events := events (initialize env this) ++ events next |}
    end.
Proof.
  intros H.
  assert (Hi : completion (initialize env this) = Return tt ->
               isInitialized (this_after (initialize env this)) = true)
    by apply initialize_returns_initialized.
  unfold generateEmbedding at 1.
  unfold bind at 1. unfold read_this at 1. rewrite H. cbn [negb].
  unfold bind at 1.
  destruct (initialize env this) as [c this1 evs] eqn:E.
  cbn [completion this_after events] in *.
  destruct c as [[]|e]; [|reflexivity].
  specialize (Hi eq_refl). cbv zeta.
  rewrite (generateEmbedding_skips_initialize env text this1 Hi).
  match goal with |- context [try_catch ?b ?h this1] =>
    destruct (try_catch b h this1) as [c2 this2 evs2] end.
  reflexivity.
Qed.

(** [initialize] in each of its four cases. *)
Lemma initialize_cases (env : Environment) (this : EmbeddingServiceClass) :
  (isInitialized this = true
   /\ initialize env this = {| completion := Return tt; this_after := this; events := [] |})
  \/ (isInitialized this = false /\ exists ex,
        pipeline env webgpu = Return ex
        /\ initialize env this
           = {| completion := Return tt;
                this_after := {| extractor := Some ex; isInitialized := true |};
                events := [ console_log "Initializing local embedding model...";
                            pipeline_called webgpu;
                            console_log "Embedding model initialized successfully" ] |})
  \/ (isInitialized this = false /\ exists e1 ex,
        pipeline env webgpu = Throw e1 /\ pipeline env cpu = Return ex
        /\ initialize env this
           = {| completion := Return tt;
                this_after := {| extractor := Some ex; isInitialized := true |};
                events := [ console_log "Initializing local embedding model...";
                            pipeline_called webgpu;
                            console_warn "WebGPU not available, falling back to CPU:" e1;
                            pipeline_called cpu;
                            console_log "Embedding model initialized on CPU" ] |})
  \/ (isInitialized this = false /\ exists e1 e2,
        pipeline env webgpu = Throw e1 /\ pipeline env cpu = Throw e2
        /\ initialize env this
           = {| completion := Throw InitializationError;
                this_after := this;
                events := [ console_log "Initializing local embedding model...";
                            pipeline_called webgpu;
                            console_warn "WebGPU not available, falling back to CPU:" e1;
                            pipeline_called cpu;
                            console_error "Failed to initialize embedding model:" e2 ] |}).
Proof.
  destruct (isInitialized this) eqn:H.
  - left. split; [reflexivity | apply initialize_when_initialized, H].
  - right. destruct (pipeline env webgpu) as [ex|e1] eqn:G.
    + left. split; [reflexivity|]. exists ex. split; [reflexivity|].
      apply initialize_on_webgpu; assumption.
    + right. destruct (pipeline env cpu) as [ex|e2] eqn:C.
      * left. split; [reflexivity|]. exists e1, ex. repeat split.
        apply initialize_on_cpu; assumption.
      * right. split; [reflexivity|]. exists e1, e2. repeat split.
        apply initialize_without_backend; assumption.
Qed.

Lemma filter_app_nil {A : Type} (f : A -> bool) (l1 l2 : list A) :
  filter f l1 = [] -> filter f l2 = [] -> filter f (l1 ++ l2) = [].
Proof. intros H1 H2. now rewrite filter_app, H1, H2. Qed.

(** [initialize] requests the accelerated backend first and the CPU backend
    only when that failed. *)
Lemma initialize_pipeline_calls (env : Environment) (this : EmbeddingServiceClass) :
  filter is_pipeline_call (events (initialize env this))
  = if isInitialized this then []
    else match pipeline env webgpu with
         | Return _ => [pipeline_called webgpu]
         | Throw _ => [pipeline_called webgpu; pipeline_called cpu]
         end.
Proof.
  destruct (initialize_cases env this)
    as [[H ->]|[[H (ex & G & ->)]|[[H (e1 & ex & G & C & ->)]|[H (e1 & e2 & G & C & ->)]]]];
    rewrite H; try rewrite G; reflexivity.
Qed.

Lemma initialize_no_extractor_call (env : Environment) (this : EmbeddingServiceClass) :
  filter is_extractor_call (events (initialize env this)) = [].
Proof.
  destruct (initialize_cases env this)
    as [[H ->]|[[H (ex & G & ->)]|[[H (e1 & ex & G & C & ->)]|[H (e1 & e2 & G & C & ->)]]]];
    reflexivity.
Qed.

Lemma initialize_throws_iff (env : Environment) (this : EmbeddingServiceClass) e :
  completion (initialize env this) = Throw e
  <-> e = InitializationError /\ isInitialized this = false /\ no_backend env.
Proof.
  unfold no_backend.
  destruct (initialize_cases env this)
    as [[H ->]|[[H (ex & G & ->)]|[[H (e1 & ex & G & C & ->)]|[H (e1 & e2 & G & C & ->)]]]];
    cbn [completion]; rewrite H; try rewrite G; try rewrite C.
  - split; [discriminate | intros (_ & D & _); discriminate].
  - split; [discriminate | intros (_ & _ & [e0 D] & _); discriminate].
  - split; [discriminate | intros (_ & _ & _ & [e0 D]); discriminate].
  - split.
    + intros E. injection E as <-. repeat split; eauto.
    + intros (-> & _). reflexivity.
Qed.

(** X1. [initialize] requests the WebGPU pipeline first and the CPU pipeline
    only when that request failed: an initialized service makes no request,
    and otherwise there are one or two, in that order. The only error it
    raises is the initialization error, and it raises it exactly when the
    service is uninitialized and both requests fail. On an uninitialized
    service the first request that succeeds gives the extractor, and the
    service ends initialized. *)
Theorem initialize_fallback_order (env : Environment) (this : EmbeddingServiceClass) :
  let out := initialize env this in
  (filter is_pipeline_call (events out)
   = if isInitialized this then []
     else match pipeline env webgpu with
          | Return _ => [pipeline_called webgpu]
          | Throw _ => [pipeline_called webgpu; pipeline_called cpu]
          end)
  /\ (forall e, completion out = Throw e
                <-> e = InitializationError /\ isInitialized this = false /\ no_backend env)
  /\ (isInitialized this = false ->
      forall ex,
        (pipeline env webgpu = Return ex
         \/ ((exists e, pipeline env webgpu = Throw e) /\ pipeline env cpu = Return ex)) ->
        completion out = Return tt
        /\ this_after out = {| extractor := Some ex; isInitialized := true |}).
Proof.
  cbv zeta. split; [apply initialize_pipeline_calls|].
  split; [intros e; apply initialize_throws_iff|].
  intros H ex [G|[[e G] C]].
  - rewrite (initialize_on_webgpu env this ex H G). split; reflexivity.
  - rewrite (initialize_on_cpu env this e ex H G C). split; reflexivity.
Qed.

(** X2. When the backend is in place and the extractor answers the
    preprocessed text with a vector, [generateEmbedding] returns exactly that
    vector and leaves the service as initialization left it. The extractor
    is called once, on the preprocessed text and never on the raw one. *)
Theorem generateEmbedding_returns_model_output (env : Environment) (text : jsstring)
  (this after : EmbeddingServiceClass) (ex : Extractor) (v : list number) :
  backend_in_place env this after ->
  extractor after = Some ex ->
  ex (preprocessText text) = Return v ->
  let out := generateEmbedding env text this in
  completion out = Return v
  /\ this_after out = after
  /\ filter is_extractor_call (events out) = [extractor_called (preprocessText text)].
Proof.
  intros Hb Hex Hv. cbv zeta.
  assert (G : forall t, isInitialized t = true -> extractor t = Some ex ->
            completion (generateEmbedding env text t) = Return v
            /\ this_after (generateEmbedding env text t) = t
            /\ filter is_extractor_call (events (generateEmbedding env text t))
               = [extractor_called (preprocessText text)]).
  { intros t Hi He. rewrite (generateEmbedding_initialized env text t Hi), He, Hv.
    repeat split. }
  destruct Hb as [[Hi ->]|(Hi & Hc & ->)]; [apply G; assumption|].
  rewrite (generateEmbedding_uninitialized env text this Hi), Hc.
  cbv zeta. cbn [completion this_after events].
  destruct (G (this_after (initialize env this))) as (G1 & G2 & G3);
    [apply initialize_returns_initialized, Hc | exact Hex |].
  split; [exact G1|]. split; [exact G2|].
  rewrite filter_app, initialize_no_extractor_call, G3. reflexivity.
Qed.

Lemma generateEmbedding_returns_model_output_witness :
  completion (generateEmbedding env_working_model (js "  some   text ") new_EmbeddingServiceClass)
  = Return [1; 0]%float
  /\ filter is_extractor_call
       (events (generateEmbedding env_working_model (js "  some   text ")
                  new_EmbeddingServiceClass))
     = [extractor_called (js "some text")].
Proof.
  destruct (generateEmbedding_returns_model_output env_working_model (js "  some   text ")
              new_EmbeddingServiceClass
              (this_after (initialize env_working_model new_EmbeddingServiceClass))
              (fun _ => Return [1; 0]%float) [1; 0]%float) as (H1 & _ & H3).
  - right. repeat split; reflexivity.
  - reflexivity.
  - reflexivity.
  - split; [exact H1 | exact H3].
Defined.

(** On an initialized service [generateEmbedding] returns, leaves the
    service as it is and requests no pipeline. *)
Lemma generateEmbedding_initialized_returns (env : Environment) (text : jsstring)
  (this : EmbeddingServiceClass) :
  isInitialized this = true ->
  exists v evs,
    generateEmbedding env text this
    = {| completion := Return v; this_after := this; events := evs |}
    /\ filter is_pipeline_call evs = []
    /\ (length (filter is_extractor_call evs) <= 1)%nat.
Proof.
  intros H. rewrite (generateEmbedding_initialized env text this H).
  destruct (extractor this) as [ex|].
  - destruct (ex (preprocessText text)) as [v|e]; do 2 eexists;
      (split; [reflexivity|]); cbn; auto.
  - do 2 eexists. split; [reflexivity|]. cbn; auto.
Qed.

(** X3. On an initialized service [generateEmbedding] always returns a
    vector, whatever the extractor does (and even if there is none). It
    leaves the fields of the service untouched, requests no pipeline and
    calls the extractor at most once. *)
Theorem generateEmbedding_initialized_service (env : Environment) (text : jsstring)
  (this : EmbeddingServiceClass) :
  isInitialized this = true ->
  let out := generateEmbedding env text this in
  (exists v, completion out = Return v)
  /\ this_after out = this
  /\ filter is_pipeline_call (events out) = []
  /\ (length (filter is_extractor_call (events out)) <= 1)%nat.
Proof.
  intros H. cbv zeta.
  destruct (generateEmbedding_initialized_returns env text this H)
    as (v & evs & -> & Hp & He).
  cbn [completion this_after events]. eauto.
Qed.

Lemma generateEmbedding_initialized_service_witness :
  (exists v, completion (generateEmbedding env_no_backend (js "hello")
                           service_with_failing_model) = Return v)
  /\ this_after (generateEmbedding env_no_backend (js "hello") service_with_failing_model)
     = service_with_failing_model.
Proof.
  destruct (generateEmbedding_initialized_service env_no_backend (js "hello")
              service_with_failing_model eq_refl) as (H1 & H2 & _).
  split; [exact H1 | exact H2].
Defined.

(** X4. [generateEmbedding] raises an error exactly when the service is not
    initialized and neither backend can be acquired, and the error is then
    the initialization error. In that case the service is left as it was and
    the extractor has not been called. *)
Theorem generateEmbedding_raises_iff (env : Environment) (text : jsstring)
  (this : EmbeddingServiceClass) (e : JsError) :
  let out := generateEmbedding env text this in
  (completion out = Throw e
   <-> e = InitializationError /\ isInitialized this = false /\ no_backend env)
  /\ (completion out = Throw e ->
      this_after out = this /\ filter is_extractor_call (events out) = []).
Proof.
  cbv zeta. destruct (isInitialized this) eqn:H.
  - destruct (generateEmbedding_initialized_returns env text this H) as (v & evs & -> & _).
    cbn [completion]. split; [split|]; try discriminate. intros (_ & D & _). discriminate.
  - rewrite (generateEmbedding_uninitialized env text this H).
    destruct (completion (initialize env this)) as [[]|e0] eqn:C.
    + cbv zeta. cbn [completion this_after events].
      destruct (generateEmbedding_initialized_returns env text
                  (this_after (initialize env this))
                  (initialize_returns_initialized env this C)) as (v & evs & -> & _).
      cbn [completion]. split; [split|]; try discriminate.
      intros (-> & _ & N).
      assert (T : completion (initialize env this) = Throw InitializationError)
        by (apply initialize_throws_iff; auto).
      rewrite C in T. discriminate.
    + cbn [completion this_after events].
      pose proof (proj1 (initialize_throws_iff env this e0) C) as (-> & _ & N).
      split; [split|].
      * intros E. injection E as <-. auto.
      * intros (-> & _). reflexivity.
      * intros _. split; [|apply initialize_no_extractor_call].
        destruct N as [[e1 G] [e2 Cp]].
        rewrite (initialize_without_backend env this e1 e2 H G Cp). reflexivity.
Qed.

(** The loop of [generateEmbeddings] on an initialized service: every call
    of [generateEmbedding] returns and leaves the service as it is. *)
Lemma generateEmbeddings_loop_initialized (envs : nat -> Environment)
  (this : EmbeddingServiceClass) (texts : list jsstring) :
  isInitialized this = true ->
  forall k embeddings, exists vs,
    completion (generateEmbeddings_loop envs k texts embeddings this)
    = Return (embeddings ++ vs)
    /\ this_after (generateEmbeddings_loop envs k texts embeddings this) = this
    /\ filter is_pipeline_call
         (events (generateEmbeddings_loop envs k texts embeddings this)) = []
    /\ length vs = length texts
    /\ forall i text, nth_error texts i = Some text ->
         exists v, nth_error vs i = Some v
                   /\ completion (generateEmbedding (envs (k + i)%nat) text this) = Return v.
Proof.
  intros H. induction texts as [|text rest IH]; intros k embeddings.
  - exists []. cbn [generateEmbeddings_loop]. unfold ret. cbn [completion this_after events].
    rewrite app_nil_r. repeat split. intros [|i] text D; discriminate.
  - cbn [generateEmbeddings_loop]. unfold bind.
    destruct (generateEmbedding_initialized_returns (envs k) text this H)
      as (v & evs & E & Hp & _).
    rewrite E.
    destruct (IH (S k) (embeddings ++ [v])) as (vs & Hc & Hs & He & Hl & Hn).
    destruct (generateEmbeddings_loop envs (S k) rest (embeddings ++ [v]) this)
      as [c2 this2 evs2].
    cbn [completion this_after events] in *. subst c2 this2.
    exists (v :: vs). rewrite <- app_assoc. split; [reflexivity|]. split; [reflexivity|].
    split; [apply filter_app_nil; assumption|].
    split; [cbn [length]; now rewrite Hl|].
    intros [|i] t D; cbn [nth_error] in *.
    + injection D as <-. exists v. rewrite Nat.add_0_r, E. auto.
    + destruct (Hn i t D) as (w & Hw & Hg). exists w.
      split; [exact Hw|]. rewrite <- Nat.add_succ_comm. exact Hg.
Qed.

(** [generateEmbeddings] is [initialize], when the service needs it,
    followed by the loop. *)
Lemma generateEmbeddings_unfold (env : Environment) (envs : nat -> Environment)
  (texts : list jsstring) (this : EmbeddingServiceClass) :
  generateEmbeddings env envs texts this
  = if isInitialized this then generateEmbeddings_loop envs 0 texts [] this
    else match completion (initialize env this) with
         | Throw e => {| completion := Throw e;
                         this_after := this_after (initialize env this);
                         events := events (initialize env this) |}
         | Return _ =>
             let next := generateEmbeddings_loop envs 0 texts []
                           (this_after (initialize env this)) in
             {| completion := completion next; this_after := this_after next;
                events := events (initialize env this) ++ events next |}
         end.
Proof.
  unfold generateEmbeddings. unfold bind at 1. unfold read_this.
  destruct (isInitialized this) eqn:H; cbn [negb]; unfold bind at 1.
  - unfold ret at 1.
    destruct (generateEmbeddings_loop envs 0 texts [] this). reflexivity.
  - destruct (initialize env this) as [c this1 evs]. cbn [completion this_after events].
    destruct c as [[]|e]; [|reflexivity]. cbv zeta.
    destruct (generateEmbeddings_loop envs 0 texts [] this1). reflexivity.
Qed.

(** X5. When the backend is in place, [generateEmbeddings] returns one
    vector for every text, in the order of the texts: entry number [i] is
    what [generateEmbedding] returns for text number [i] on the initialized
    service. It leaves that service unchanged and requests at most two
    pipelines however many texts there are. *)
Theorem generateEmbeddings_one_per_text (env : Environment) (envs : nat -> Environment)
  (texts : list jsstring) (this after : EmbeddingServiceClass) :
  backend_in_place env this after ->
  exists vs,
    completion (generateEmbeddings env envs texts this) = Return vs
    /\ this_after (generateEmbeddings env envs texts this) = after
    /\ length vs = length texts
    /\ (forall i text, nth_error texts i = Some text ->
          exists v, nth_error vs i = Some v
                    /\ completion (generateEmbedding (envs i) text after) = Return v)
    /\ (length (filter is_pipeline_call (events (generateEmbeddings env envs texts this)))
        <= 2)%nat.
Proof.
  intros Hb. rewrite generateEmbeddings_unfold.
  destruct Hb as [[Hi ->]|(Hi & Hc & ->)]; rewrite Hi.
  - destruct (generateEmbeddings_loop_initialized envs this texts Hi 0%nat [])
      as (vs & Hc & Hs & He & Hl & Hn).
    exists vs. cbn [app] in Hc. rewrite He. cbn [length]. repeat split; auto.
  - rewrite Hc. cbv zeta. cbn [completion this_after events].
    destruct (generateEmbeddings_loop_initialized envs (this_after (initialize env this))
                texts (initialize_returns_initialized env this Hc) 0%nat [])
      as (vs & Hc' & Hs & He & Hl & Hn).
    exists vs. cbn [app] in Hc'. repeat split; auto.
    rewrite filter_app, He, app_nil_r, initialize_pipeline_calls, Hi.
    destruct (pipeline env webgpu); cbn; lia.
Qed.

Lemma generateEmbeddings_one_per_text_witness :
  completion (generateEmbeddings env_working_model (fun _ => env_working_model)
                [js "one"; js "two"] new_EmbeddingServiceClass)
  = Return [[1; 0]; [1; 0]]%float.
Proof.
  destruct (generateEmbeddings_one_per_text env_working_model (fun _ => env_working_model)
              [js "one"; js "two"] new_EmbeddingServiceClass
              (this_after (initialize env_working_model new_EmbeddingServiceClass)))
    as (vs & Hc & _).
  - right. repeat split; reflexivity.
  - rewrite Hc. f_equal. vm_compute in Hc. now injection Hc.
Defined.

(** X6. [generateEmbeddings] initializes before it looks at the texts: on an
    uninitialized service with no backend to acquire it raises the
    initialization error for every array of texts, the empty one included.
    It does then exactly what [initialize] does: the service is unchanged
    and the extractor is never called. *)
Theorem generateEmbeddings_initializes_first (env : Environment)
  (envs : nat -> Environment) (texts : list jsstring) (this : EmbeddingServiceClass) :
  isInitialized this = false -> no_backend env ->
  let out := generateEmbeddings env envs texts this in
  completion out = Throw InitializationError
  /\ this_after out = this
  /\ filter is_extractor_call (events out) = []
  /\ events out = events (initialize env this).
Proof.
  intros Hi [[e1 G] [e2 C]]. cbv zeta. rewrite generateEmbeddings_unfold, Hi.
  rewrite (initialize_without_backend env this e1 e2 Hi G C). repeat split.
Qed.

Lemma generateEmbeddings_initializes_first_witness :
  completion (generateEmbeddings env_no_backend (fun _ => env_working_model) []
                new_EmbeddingServiceClass)
  = Throw InitializationError.
Proof.
  apply (generateEmbeddings_initializes_first env_no_backend (fun _ => env_working_model) []
           new_EmbeddingServiceClass).
  - reflexivity.
  - split; exists (Error "no backend"); reflexivity.
Defined.

(** ** More on findSimilarDocuments *)

Lemma Array_map_throws_at {A B : Type} (f : A -> Completion B) (l : list A) x e :
  In x l -> f x = Throw e -> exists e', Array_map f l = Throw e'.
Proof.
  induction l as [|y l IH]; intros Hin Hx; [contradiction|]. cbn [Array_map].
  destruct (f y) as [b|e0] eqn:Fy; [|eauto].
  destruct Hin as [->|Hin]; [congruence|].
  destruct (IH Hin Hx) as [e' ->]. eauto.
Qed.

Lemma slice_nonneg {A : Type} (l : list A) (end_ : Z) :
  0 <= end_ -> slice l 0 end_ = firstn (Z.to_nat end_) l.
Proof.
  intros H. rewrite slice_from_start. destruct (Z.ltb_spec end_ 0); [lia|].
  destruct (Z.le_gt_cases end_ (Z.of_nat (length l))).
  - now rewrite Z.min_l by lia.
  - rewrite Z.min_r, Nat2Z.id by lia. rewrite !firstn_all2; auto; lia.
Qed.

Lemma StronglySorted_app_order {A : Type} (R : A -> A -> Prop) (l1 l2 : list A) :
  StronglySorted R (l1 ++ l2) -> forall x y, In x l1 -> In y l2 -> R x y.
Proof.
  induction l1 as [|a l1 IH]; intros H x y Hx Hy; [contradiction|].
  cbn in H. inversion H as [|? ? Hs Hf]; subst.
  destruct Hx as [->|Hx]; [|eauto].
  rewrite Forall_forall in Hf. apply Hf, in_or_app. now right.
Qed.

Lemma StronglySorted_filter {A : Type} (R : A -> A -> Prop) (f : A -> bool) (l : list A) :
  StronglySorted R l -> StronglySorted R (filter f l).
Proof.
  induction 1 as [|x l Hs IH Hf]; cbn [filter]; [constructor|].
  destruct (f x); [|exact IH]. constructor; [exact IH|].
  rewrite Forall_forall in Hf |- *. intros y Hy. apply Hf.
  apply filter_In in Hy. tauto.
Qed.

Lemma Permutation_filter_same {A : Type} (f : A -> bool) (l1 l2 : list A) :
  Permutation l1 l2 -> Permutation (filter f l1) (filter f l2).
Proof.
  induction 1 as [|x l1 l2 Hp IH|x y l|l1 l2 l3 H1 IH1 H2 IH2]; cbn [filter].
  - constructor.
  - destruct (f x); [now constructor | exact IH].
  - destruct (f x), (f y); try reflexivity. apply perm_swap.
  - now transitivity (filter f l2).
Qed.

Lemma filter_comm {A : Type} (f g : A -> bool) (l : list A) :
  filter f (filter g l) = filter g (filter f l).
Proof.
  induction l as [|x l IH]; [reflexivity|]. cbn [filter].
  destruct (f x) eqn:F, (g x) eqn:G; cbn [filter]; rewrite ?F, ?G, IH; reflexivity.
Qed.

Lemma filter_implied {A : Type} (f g : A -> bool) (l : list A) :
  (forall x, f x = true -> g x = true) -> filter f (filter g l) = filter f l.
Proof.
  intros H. induction l as [|x l IH]; [reflexivity|]. cbn [filter].
  destruct (g x) eqn:G; cbn [filter]; rewrite IH; [reflexivity|].
  destruct (f x) eqn:F; [|reflexivity]. rewrite (H x F) in G. discriminate.
Qed.

Section MoreRetrievalFacts.
Variable Metadata : Type.
Implicit Types (l : list (ScoredDocument Metadata)).

(** Sorting and keeping the entries above a threshold commute. *)
Lemma Array_sort_filter threshold l :
  Forall (fun d => fkey (similarity d) <> None) l ->
  Array_sort (filter (passes threshold) l) = filter (passes threshold) (Array_sort l).
Proof.
  intros Hc. symmetry. apply Array_sort_determined.
  - apply filter_passes_comparable.
  - apply Permutation_filter_same, Array_sort_perm.
  - apply StronglySorted_filter, Array_sort_sorted, Hc.
  - intros s. now rewrite filter_comm, Array_sort_stable, filter_comm.
Qed.

(** In a list in descending order the entries above a threshold come
    first. *)
Lemma filter_passes_prefix threshold l :
  StronglySorted (@descending Metadata) l ->
  exists later, l = filter (passes threshold) l ++ later.
Proof.
  induction 1 as [|x l Hs IH Hf]; [exists []; reflexivity|]. cbn [filter].
  destruct (passes threshold x) eqn:P.
  - destruct IH as [later E]. exists later. cbn [app]. now rewrite <- E.
  - exists (x :: l). rewrite filter_none; [reflexivity|].
    intros y Hy. rewrite Forall_forall in Hf. specialize (Hf y Hy).
    unfold descending in Hf. unfold passes in *.
    destruct (threshold <=? similarity y)%float eqn:Q; [|reflexivity].
    rewrite (leb_trans _ _ _ Q Hf) in P. discriminate.
Qed.

Lemma firstn_prefix {A : Type} (a later : list A) (n m : nat) :
  (n <= m)%nat -> exists rest, firstn m (a ++ later) = firstn n a ++ rest.
Proof.
  intros H. revert n m H. induction a as [|x a IH]; intros n m H.
  - rewrite firstn_nil. cbn [app]. eauto.
  - destruct n as [|n]; [cbn [firstn app]; eauto|].
    destruct m as [|m]; [lia|]. cbn [firstn app].
    destruct (IH n m) as [rest ->]; [lia|]. eauto.
Qed.
End MoreRetrievalFacts.

(** X9. [findSimilarDocuments] is all or nothing in the dimensions: it raises
    the dimension-mismatch error exactly when some document, anywhere in the
    input, has an embedding whose length differs from the query's, whatever
    the threshold and the limit are. That is the only error it raises, and
    it returns exactly when every document has the length of the query. *)
Theorem findSimilarDocuments_rejects_mismatch (Metadata : Type) (q : list number)
  (docs : list (Document Metadata)) (threshold : number) (limit : Z) :
  ((exists d, In d docs /\ length (embedding d) <> length q)
   <-> findSimilarDocuments q docs threshold limit = Throw DimensionMismatchError)
  /\ (forall e, findSimilarDocuments q docs threshold limit = Throw e ->
                e = DimensionMismatchError)
  /\ ((forall d, In d docs -> length (embedding d) = length q)
      <-> exists result, findSimilarDocuments q docs threshold limit = Return result).
Proof.
  assert (T : (exists d, In d docs /\ length (embedding d) <> length q) ->
              findSimilarDocuments q docs threshold limit = Throw DimensionMismatchError).
  { intros (d & Hd & N).
    assert (S : score q d = Throw DimensionMismatchError).
    { unfold score. rewrite calculateSimilarity_cosine64.
      destruct (Nat.eqb_spec (length q) (length (embedding d))); [congruence | reflexivity]. }
    destruct (Array_map_throws_at (score q) docs d _ Hd S) as [e' M].
    destruct (findSimilarDocuments q docs threshold limit) as [r|e] eqn:F.
    - unfold findSimilarDocuments in F. rewrite M in F. discriminate.
    - apply findSimilarDocuments_throws in F. destruct F as [-> _]. reflexivity. }
  split; [split; [exact T|]|split].
  - intros F. apply findSimilarDocuments_throws in F. tauto.
  - intros e F. apply findSimilarDocuments_throws in F. tauto.
  - split; [apply findSimilarDocuments_returns|].
    intros [result F] d Hd.
    destruct (Nat.eq_dec (length (embedding d)) (length q)) as [E|N]; [exact E|].
    rewrite T in F by eauto. discriminate.
Qed.

(** X10. For a limit that is not negative, the documents that pass the
    threshold but are left out of the result are no more similar than any
    returned one. Returned and left-out entries together are exactly the
    scored documents that pass the threshold. Something is left out only
    when the result has [limit] entries, and nothing is when the limit is
    at least the number of documents. *)
Theorem findSimilarDocuments_best_first (Metadata : Type) (q : list number)
  (docs : list (Document Metadata)) (threshold : number) (limit : Z)
  (result : list (ScoredDocument Metadata)) :
  0 <= limit ->
  findSimilarDocuments q docs threshold limit = Return result ->
  exists similarities left_out,
    Array_map (score q) docs = Return similarities
    /\ Permutation (result ++ left_out) (filter (passes threshold) similarities)
    /\ (forall r l, In r result -> In l left_out ->
          (similarity l <=? similarity r)%float = true)
    /\ (left_out <> [] -> Z.of_nat (length result) = limit)
    /\ (Z.of_nat (length docs) <= limit -> left_out = []).
Proof.
  intros Hl H. apply findSimilarDocuments_inv in H. destruct H as (sims & Hm & ->).
  set (sorted := Array_sort (filter (passes threshold) sims)).
  exists sims, (skipn (Z.to_nat limit) sorted).
  rewrite slice_nonneg by exact Hl.
  split; [exact Hm|]. split; [|split; [|split]].
  - rewrite firstn_skipn. apply Array_sort_perm.
  - intros r l Hr Hin.
    apply (StronglySorted_app_order (@descending Metadata)
             (firstn (Z.to_nat limit) sorted) (skipn (Z.to_nat limit) sorted)); auto.
    rewrite firstn_skipn. apply Array_sort_sorted, filter_passes_comparable.
  - intros N. rewrite length_firstn.
    assert (Z.to_nat limit < length sorted)%nat; [|lia].
    destruct (Nat.le_gt_cases (length sorted) (Z.to_nat limit)) as [L|L]; [|exact L].
    rewrite skipn_all2 in N by exact L. contradiction.
  - intros L. apply skipn_all2.
    assert (length sorted <= length docs)%nat; [|lia].
    unfold sorted. rewrite (Permutation_length (Array_sort_perm _ _)).
    rewrite <- (scored_docs _ q docs sims Hm), length_map. apply filter_length_le.
Qed.

Lemma findSimilarDocuments_best_first_witness :
  exists similarities left_out,
    Array_map (score [1; 0]%float) example_docs = Return similarities
    /\ Permutation
         ([ {| doc := example_doc "first" [1; 0]%float; similarity := 1%float |} ]
            ++ left_out)
         (filter (passes default_threshold) similarities)
    /\ (forall r l,
          In r [ {| doc := example_doc "first" [1; 0]%float; similarity := 1%float |} ] ->
          In l left_out -> (similarity l <=? similarity r)%float = true)
    /\ (left_out <> [] -> Z.of_nat 1 = 1)
    /\ (Z.of_nat (length example_docs) <= 1 -> left_out = []).
Proof.
  apply (findSimilarDocuments_best_first unit [1; 0]%float example_docs
           default_threshold 1
           [ {| doc := example_doc "first" [1; 0]%float; similarity := 1%float |} ]).
  - lia.
  - reflexivity.
Defined.

(** X11. Raising the threshold or lowering the limit (kept non-negative) only
    cuts the ranking at its end: the result for the higher threshold and the
    smaller limit is a prefix of the result for the lower threshold and the
    larger limit. *)
Theorem findSimilarDocuments_nested (Metadata : Type) (q : list number)
  (docs : list (Document Metadata)) (t1 t2 : number) (k1 k2 : Z)
  (r1 : list (ScoredDocument Metadata)) :
  0 <= k2 <= k1 -> (t1 <=? t2)%float = true ->
  findSimilarDocuments q docs t1 k1 = Return r1 ->
  exists r2 rest,
    findSimilarDocuments q docs t2 k2 = Return r2 /\ r1 = r2 ++ rest.
Proof.
  intros Hk Ht H. apply findSimilarDocuments_inv in H. destruct H as (sims & Hm & ->).
  unfold findSimilarDocuments. rewrite Hm.
  rewrite !slice_nonneg by lia.
  set (S1 := Array_sort (filter (passes t1) sims)).
  assert (E : Array_sort (filter (passes t2) sims) = filter (passes t2) S1).
  { unfold S1. rewrite <- Array_sort_filter by apply filter_passes_comparable.
    rewrite filter_implied; [reflexivity|].
    intros d P. unfold passes in *. exact (leb_trans _ _ _ Ht P). }
  rewrite E.
  destruct (filter_passes_prefix _ t2 S1) as [later L];
    [apply Array_sort_sorted, filter_passes_comparable|].
  destruct (firstn_prefix (filter (passes t2) S1) later (Z.to_nat k2) (Z.to_nat k1))
    as [rest R]; [lia|].
  rewrite <- L in R. eauto.
Qed.

Lemma findSimilarDocuments_nested_witness :
  exists r2 rest,
    findSimilarDocuments [1; 0]%float example_docs 0.75%float 1 = Return r2
    /\ [ {| doc := example_doc "first" [1; 0]%float; similarity := 1%float |};
         {| doc := example_doc "third" [2; 0]%float; similarity := 1%float |} ]
       = r2 ++ rest.
Proof.
  apply (findSimilarDocuments_nested unit [1; 0]%float example_docs
           default_threshold 0.75%float default_limit 1).
  - unfold default_limit. lia.
  - reflexivity.
  - reflexivity.
Defined.

(** ** More on preprocessText *)

Lemma replace_whitespace_runs_fixed (in_run : bool) (s : jsstring) :
  Forall (fun c => is_whitespace c = true -> c = SPACE) s ->
  no_adjacent_whitespace s = true ->
  (in_run = true -> starts_clean s) ->
  replace_whitespace_runs in_run s = s.
Proof.
  intros Hs. revert in_run. induction Hs as [|c s Hc Hs IH]; intros in_run Hn Hr;
    [reflexivity|].
  cbn [replace_whitespace_runs].
  assert (Hn' : no_adjacent_whitespace s = true).
  { destruct s as [|c2 r]; [reflexivity|].
    rewrite no_adjacent_whitespace_cons in Hn. apply andb_prop in Hn. tauto. }
  destruct (is_whitespace c) eqn:W.
  - destruct in_run; [specialize (Hr eq_refl); cbn in Hr; congruence|].
    rewrite (Hc eq_refl). f_equal. apply IH; [exact Hn'|]. intros _.
    destruct s as [|c2 r]; [exact I|].
    rewrite no_adjacent_whitespace_cons, W in Hn. cbn [andb negb] in Hn.
    cbn [starts_clean]. destruct (is_whitespace c2); [discriminate | reflexivity].
  - f_equal. apply IH; [exact Hn' | discriminate].
Qed.

Lemma filter_all {A : Type} (f : A -> bool) (l : list A) :
  Forall (fun x => f x = true) l -> filter f l = l.
Proof.
  induction 1 as [|x l Hx Hl IH]; [reflexivity|]. cbn [filter]. now rewrite Hx, IH.
Qed.

Lemma trim_start_fixed (s : jsstring) : starts_clean s -> trim_start s = s.
Proof. destruct s as [|c s]; [reflexivity|]. cbn. now intros ->. Qed.

Lemma trim_fixed (s : jsstring) : starts_clean s -> ends_clean s -> trim s = s.
Proof.
  intros Hs He. unfold trim, trim_end. rewrite (trim_start_fixed s Hs).
  rewrite (trim_start_fixed (rev s) He). apply rev_involutive.
Qed.

Lemma preprocessText_fixed (s : jsstring) : clean_text s -> preprocessText s = s.
Proof.
  intros (Hk & Hw & Hn & Hs & He & Hl). rewrite preprocessText_pipeline.
  rewrite (replace_whitespace_runs_fixed false s Hw Hn) by discriminate.
  unfold remove_special. rewrite (filter_all _ _ Hk), (trim_fixed s Hs He).
  now apply firstn_all2.
Qed.

Lemma replace_whitespace_runs_length (in_run : bool) (s : jsstring) :
  (length (replace_whitespace_runs in_run s) <= length s)%nat.
Proof.
  revert in_run. induction s as [|c s IH]; intros in_run; [reflexivity|].
  cbn [replace_whitespace_runs length].
  pose proof (IH true). pose proof (IH false).
  destruct (is_whitespace c); [destruct in_run|]; cbn [length]; lia.
Qed.

Lemma trim_start_suffix (s : jsstring) :
  exists u, s = u ++ trim_start s /\ Forall (fun c => is_whitespace c = true) u.
Proof.
  induction s as [|c s (u & E & Hu)]; [exists []; split; [reflexivity | constructor]|].
  cbn [trim_start].
  destruct (is_whitespace c) eqn:W; [|exists []; split; [reflexivity | constructor]].
  exists (c :: u). cbn [app]. rewrite <- E. split; [reflexivity | now constructor].
Qed.

(** [trim] drops a run of whitespace at each end and nothing else. *)
Lemma trim_parts (s : jsstring) :
  exists u v, s = u ++ trim s ++ v
              /\ Forall (fun c => is_whitespace c = true) u
              /\ Forall (fun c => is_whitespace c = true) v.
Proof.
  destruct (trim_start_suffix s) as (u & Eu & Hu).
  destruct (trim_start_suffix (rev (trim_start s))) as (w & Ew & Hw).
  exists u, (rev w). unfold trim, trim_end.
  rewrite <- rev_app_distr, <- Ew, rev_involutive.
  split; [exact Eu|]. split; [exact Hu | apply Forall_rev, Hw].
Qed.

Lemma trim_length (s : jsstring) : (length (trim s) <= length s)%nat.
Proof.
  destruct (trim_parts s) as (u & v & E & _). rewrite E at 2. rewrite !length_app. lia.
Qed.

Lemma no_adjacent_whitespace_app_r (u s : jsstring) :
  no_adjacent_whitespace (u ++ s) = true -> no_adjacent_whitespace s = true.
Proof.
  induction u as [|c u IH]; [auto|]. cbn [app]. intros H. apply IH.
  destruct (u ++ s) as [|c2 r]; [reflexivity|].
  rewrite no_adjacent_whitespace_cons in H. apply andb_prop in H. tauto.
Qed.

Lemma no_adjacent_whitespace_app_l (s v : jsstring) :
  no_adjacent_whitespace (s ++ v) = true -> no_adjacent_whitespace s = true.
Proof.
  induction s as [|c s IH]; [reflexivity|]. cbn [app]. intros H.
  destruct s as [|c2 r]; [reflexivity|]. cbn [app] in *.
  rewrite no_adjacent_whitespace_cons in H |- *. apply andb_prop in H.
  destruct H as [H1 H2]. rewrite H1. cbn [andb]. apply IH, H2.
Qed.

Lemma no_adjacent_whitespace_trim (s : jsstring) :
  no_adjacent_whitespace s = true -> no_adjacent_whitespace (trim s) = true.
Proof.
  intros H. destruct (trim_parts s) as (u & v & E & _). rewrite E in H.
  apply no_adjacent_whitespace_app_r in H. now apply no_adjacent_whitespace_app_l in H.
Qed.

Lemma replace_whitespace_runs_kept (in_run : bool) (s : jsstring) :
  Forall (fun c => is_kept c = true) s ->
  Forall (fun c => is_kept c = true) (replace_whitespace_runs in_run s).
Proof.
  intros H. revert in_run. induction H as [|c s Hc Hs IH]; intros in_run; [constructor|].
  cbn [replace_whitespace_runs]. destruct (is_whitespace c).
  - destruct in_run; [apply IH|]. constructor; [reflexivity | apply IH].
  - constructor; [exact Hc | apply IH].
Qed.

Lemma preprocessText_kept (text : jsstring) :
  Forall (fun c => is_kept c = true) (preprocessText text).
Proof.
  rewrite preprocessText_pipeline. apply firstn_Forall, trim_Forall.
  unfold remove_special. apply Forall_forall. intros c Hc. apply filter_In in Hc. tauto.
Qed.

Lemma filter_Forall {A : Type} (P : A -> Prop) (f : A -> bool) (l : list A) :
  Forall P l -> Forall P (filter f l).
Proof.
  intros H. rewrite Forall_forall in H |- *. intros x Hx. apply H.
  apply filter_In in Hx. tauto.
Qed.

Lemma preprocessText_spaces (text : jsstring) :
  Forall (fun c => is_whitespace c = true -> c = SPACE) (preprocessText text).
Proof.
  rewrite preprocessText_pipeline. apply firstn_Forall, trim_Forall.
  unfold remove_special. apply filter_Forall, replace_whitespace_runs_spaces.
Qed.

Lemma preprocessText_length (text : jsstring) :
  (length (preprocessText text) <= Nat.min 4000 (length text))%nat.
Proof.
  rewrite preprocessText_pipeline, length_firstn.
  pose proof (trim_length (remove_special (replace_whitespace_runs false text))).
  pose proof (filter_length_le is_kept (replace_whitespace_runs false text)).
  pose proof (replace_whitespace_runs_length false text).
  unfold remove_special in *. lia.
Qed.

(** A second pass over a result of [preprocessText] leaves a clean text. *)
Lemma preprocessText_twice_clean (text : jsstring) :
  clean_text (preprocessText (preprocessText text)).
Proof.
  set (t := preprocessText text).
  assert (Hk : Forall (fun c => is_kept c = true) t) by apply preprocessText_kept.
  assert (Hl : (length t <= 4000)%nat)
    by (pose proof (preprocessText_length text); unfold t; lia).
  assert (E : preprocessText t = trim (replace_whitespace_runs false t)).
  { rewrite preprocessText_pipeline. unfold remove_special.
    rewrite (filter_all _ _ (replace_whitespace_runs_kept false t Hk)).
    apply firstn_all2.
    pose proof (trim_length (replace_whitespace_runs false t)).
    pose proof (replace_whitespace_runs_length false t). lia. }
  split; [apply preprocessText_kept|]. split; [apply preprocessText_spaces|].
  rewrite E. split; [apply no_adjacent_whitespace_trim, replace_whitespace_runs_collapsed|].
  split; [apply trim_clean|]. split; [apply trim_clean|].
  rewrite <- E. pose proof (preprocessText_length t). lia.
Qed.

(** X12. [preprocessText] leaves a clean text unchanged: one of kept code
    units only, with single spaces as its only whitespace, none at either
    end, and at most 4000 code units. One pass does not always give such a
    text (removing a special character can leave two spaces side by side,
    as in ["a @ b"]), but two passes do, so a third pass changes
    nothing. *)
Theorem preprocessText_fixed_points (text : jsstring) :
  (clean_text text -> preprocessText text = text)
  /\ clean_text (preprocessText (preprocessText text))
  /\ preprocessText (preprocessText (preprocessText text))
     = preprocessText (preprocessText text)
  /\ preprocessText (js "a @ b") = js "a  b"
  /\ preprocessText (preprocessText (js "a @ b")) = js "a b".
Proof.
  split; [apply preprocessText_fixed|]. split; [apply preprocessText_twice_clean|].
  split; [apply preprocessText_fixed, preprocessText_twice_clean|].
  split; reflexivity.
Qed.

(** *** What survives *)

Lemma visible_blank (s : jsstring) :
  Forall (fun c => is_whitespace c = true) s -> visible s = [].
Proof.
  intros H. apply filter_none. rewrite Forall_forall in H.
  intros c Hc. now rewrite (H c Hc).
Qed.

Lemma visible_trim (s : jsstring) : visible (trim s) = visible s.
Proof.
  destruct (trim_parts s) as (u & v & E & Hu & Hv). rewrite E at 2.
  unfold visible. rewrite !filter_app.
  fold (visible u). fold (visible v). rewrite (visible_blank u Hu), (visible_blank v Hv).
  now rewrite app_nil_r.
Qed.

Lemma filter_content (s : jsstring) : filter is_content s = filter is_kept (visible s).
Proof.
  unfold visible, is_content. induction s as [|c s IH]; [reflexivity|]. cbn [filter].
  destruct (is_whitespace c), (is_kept c) eqn:K; cbn [negb andb filter];
    rewrite ?K, IH; reflexivity.
Qed.

(** The content of the cleaned text is the content of the input. *)
Lemma cleaned_content (text : jsstring) :
  visible (trim (remove_special (replace_whitespace_runs false text)))
  = filter is_content text.
Proof.
  rewrite visible_trim. unfold remove_special, visible.
  rewrite filter_comm. fold (visible (replace_whitespace_runs false text)).
  rewrite replace_whitespace_runs_visible. symmetry. apply filter_content.
Qed.

(** X13. [preprocessText] neither invents nor reorders content: the
    non-whitespace code units of the result are a prefix of the kept
    non-whitespace code units of the input, and all of them when the input
    has at most 4000 code units. Every whitespace in the result is a
    space. *)
Theorem preprocessText_content (text : jsstring) :
  (exists cut, filter is_content text = visible (preprocessText text) ++ cut)
  /\ ((length text <= 4000)%nat ->
      visible (preprocessText text) = filter is_content text)
  /\ Forall (fun c => is_whitespace c = true -> c = SPACE) (preprocessText text).
Proof.
  rewrite preprocessText_pipeline.
  set (cleaned := trim (remove_special (replace_whitespace_runs false text))).
  split; [|split].
  - exists (visible (skipn 4000 cleaned)). rewrite <- cleaned_content. fold cleaned.
    unfold visible. rewrite <- filter_app. now rewrite firstn_skipn.
  - intros L. rewrite firstn_all2; [apply cleaned_content|].
    pose proof (trim_length (remove_special (replace_whitespace_runs false text))).
    pose proof (filter_length_le is_kept (replace_whitespace_runs false text)).
    pose proof (replace_whitespace_runs_length false text).
    unfold cleaned, remove_special in *. lia.
  - unfold cleaned. rewrite <- preprocessText_pipeline. apply preprocessText_spaces.
Qed.

(** *** Blank input *)

Lemma filter_nil_Forall {A : Type} (f : A -> bool) (l : list A) :
  filter f l = [] <-> Forall (fun x => f x = false) l.
Proof.
  induction l as [|x l IH]; cbn [filter]; [split; auto|].
  destruct (f x) eqn:F; split; intros H.
  - discriminate.
  - inversion H; congruence.
  - constructor; [exact F | now apply IH].
  - inversion H; subst. now apply IH.
Qed.

(** X14. [preprocessText] returns the empty string exactly when the input
    has no kept code unit other than whitespace: the empty string, a blank
    one, or one made of whitespace and special characters only. *)
Theorem preprocessText_blank (text : jsstring) :
  preprocessText text = [] <-> Forall (fun c => is_content c = false) text.
Proof.
  rewrite <- filter_nil_Forall, <- cleaned_content, preprocessText_pipeline.
  set (cleaned := trim (remove_special (replace_whitespace_runs false text))).
  split.
  - intros E. destruct cleaned as [|c r]; [reflexivity | discriminate].
  - intros V.
    assert (B : Forall (fun c => is_whitespace c = true) cleaned).
    { apply filter_nil_Forall in V. rewrite Forall_forall in V |- *.
      intros c Hc. specialize (V c Hc). now apply negb_false_iff in V. }
    destruct (trim_clean (remove_special (replace_whitespace_runs false text))) as [Hs _].
    fold cleaned in Hs. destruct cleaned as [|c r]; [reflexivity|].
    inversion B; subst. cbn in Hs. congruence.
Qed.

(** ** More on splitting and chunkText *)

Lemma join_cons (sep w : jsstring) (l : list jsstring) :
  l <> [] -> join sep (w :: l) = w ++ sep ++ join sep l.
Proof. destruct l; [contradiction | reflexivity]. Qed.

(** Splitting at whitespace and joining with single spaces is replacing
    every run of whitespace by one space. *)
Lemma join_split_loop (s : jsstring) :
  (forall piece, join [SPACE] (split_loop false piece s)
                 = rev piece ++ replace_whitespace_runs false s)
  /\ join [SPACE] (split_loop true [] s) = replace_whitespace_runs true s.
Proof.
  induction s as [|c s [IHf IHt]].
  - split; [intros piece; cbn; now rewrite app_nil_r | reflexivity].
  - cbn [split_loop replace_whitespace_runs]. destruct (is_whitespace c).
    + split; [intros piece | exact IHt].
      rewrite join_cons by apply split_loop_nonempty. now rewrite IHt.
    + split; [intros piece | ]; rewrite IHf; cbn [rev]; [|reflexivity].
      now rewrite <- app_assoc.
Qed.

Lemma join_split_whitespace (text : jsstring) :
  join [SPACE] (split_whitespace text) = replace_whitespace_runs false text.
Proof. exact (proj1 (join_split_loop text) []). Qed.

Lemma split_loop_wordlike (s : jsstring) :
  forall in_run piece, is_wordlike piece -> Forall is_wordlike (split_loop in_run piece s).
Proof.
  induction s as [|c s IH]; intros in_run piece Hp; cbn [split_loop].
  - constructor; [apply Forall_rev, Hp | constructor].
  - destruct (is_whitespace c) eqn:W.
    + destruct in_run; [apply IH; constructor|].
      constructor; [apply Forall_rev, Hp | apply IH; constructor].
    + apply IH. constructor; assumption.
Qed.


Lemma split_loop_concat (s : jsstring) :
  (forall piece, concat (split_loop false piece s) = rev piece ++ visible s)
  /\ concat (split_loop true [] s) = visible s.
Proof.
  unfold visible. induction s as [|c s [IHf IHt]].
  - split; [intros piece; cbn; now rewrite !app_nil_r | reflexivity].
  - cbn [split_loop filter]. destruct (is_whitespace c); cbn [negb].
    + split; [intros piece; cbn [concat]; now rewrite IHt | exact IHt].
    + split; [intros piece|]; rewrite IHf; cbn [rev]; [|reflexivity].
      now rewrite <- app_assoc.
Qed.

Lemma nonempty_but_last_cons (w : jsstring) (rest : list jsstring) :
  rest <> [] -> (nonempty_but_last (w :: rest) <-> w <> [] /\ nonempty_but_last rest).
Proof. destruct rest; [contradiction | reflexivity]. Qed.

Lemma nonempty_but_last_tail (w : jsstring) (rest : list jsstring) :
  nonempty_but_last (w :: rest) -> nonempty_but_last rest.
Proof. destruct rest; [intros _; exact I | intros [_ H]; exact H]. Qed.

Lemma nonempty_but_last_ends (l : list jsstring) :
  nonempty_but_last l -> empty_only_at_ends l.
Proof. destruct l as [|w rest]; [auto | apply nonempty_but_last_tail]. Qed.

Lemma split_loop_nonempty_but_last (s : jsstring) :
  (forall piece, piece <> [] -> nonempty_but_last (split_loop false piece s))
  /\ nonempty_but_last (split_loop true [] s).
Proof.
  induction s as [|c s [IHf IHt]]; [split; intros; exact I|].
  cbn [split_loop]. destruct (is_whitespace c).
  - split; [intros piece Hp | exact IHt].
    apply nonempty_but_last_cons; [apply split_loop_nonempty|].
    split; [|exact IHt]. intros E. apply (f_equal (@rev char16)) in E.
    rewrite rev_involutive in E. contradiction.
  - split; [intros piece Hp|]; apply IHf; discriminate.
Qed.

Lemma split_whitespace_ends (text : jsstring) :
  empty_only_at_ends (split_whitespace text).
Proof.
  unfold split_whitespace. destruct text as [|c s]; [exact I|]. cbn [split_loop].
  destruct (is_whitespace c).
  - exact (proj2 (split_loop_nonempty_but_last s)).
  - apply nonempty_but_last_ends, (proj1 (split_loop_nonempty_but_last s)). discriminate.
Qed.

Lemma nonempty_but_last_nth (l : list jsstring) (i : nat) :
  nonempty_but_last l -> nth_error l i = Some [] -> S i = length l.
Proof.
  revert i. induction l as [|w rest IH]; intros i H E; [destruct i; discriminate|].
  destruct rest as [|w2 rest].
  - destruct i as [|[|i]]; [reflexivity | discriminate | discriminate].
  - destruct H as [Hw H]. destruct i as [|i].
    + cbn in E. congruence.
    + cbn [nth_error] in E. cbn [length]. f_equal. apply (IH i H E).
Qed.

(** *** Splitting what was joined *)

Lemma split_loop_word (w : jsstring) :
  is_wordlike w ->
  forall piece s, split_loop false piece (w ++ s) = split_loop false (rev w ++ piece) s.
Proof.
  induction 1 as [|c w Hc Hw IH]; intros piece s; [reflexivity|].
  cbn [app split_loop rev]. rewrite Hc, IH, <- app_assoc. reflexivity.
Qed.

Lemma split_loop_started_word (w s : jsstring) :
  is_wordlike w -> w <> [] ->
  split_loop true [] (w ++ s) = split_loop false (rev w) s.
Proof.
  intros Hw Hn. destruct w as [|c w]; [contradiction|]. inversion Hw as [|? ? Hc Hw']; subst.
  cbn [app split_loop]. rewrite Hc, (split_loop_word w Hw'). reflexivity.
Qed.

Lemma split_loop_joined (ws : list jsstring) :
  ws <> [] -> Forall is_wordlike ws -> nonempty_but_last ws ->
  split_loop true [] (join [SPACE] ws) = ws.
Proof.
  induction ws as [|w rest IH]; intros Hne Hw Hn; [contradiction|].
  inversion Hw as [|? ? Hw1 Hw2]; subst.
  destruct rest as [|w2 rest].
  - cbn [join]. destruct w as [|c w]; [reflexivity|].
    rewrite <- (app_nil_r (c :: w)) at 1.
    rewrite split_loop_started_word by (assumption || discriminate).
    cbn [split_loop]. now rewrite rev_involutive.
  - destruct Hn as [Hn1 Hn2]. rewrite join_cons by discriminate.
    rewrite split_loop_started_word by assumption.
    cbn [app split_loop]. change (is_whitespace SPACE) with true. cbn iota.
    rewrite rev_involutive. f_equal. apply IH; [discriminate | assumption | assumption].
Qed.

(** Words that came from a split are found again when their join is
    split. *)
Lemma split_whitespace_join (ws : list jsstring) :
  ws <> [] -> Forall is_wordlike ws -> empty_only_at_ends ws ->
  split_whitespace (join [SPACE] ws) = ws.
Proof.
  intros Hne Hw Hn. destruct ws as [|w rest]; [contradiction|].
  inversion Hw as [|? ? Hw1 Hw2]; subst. unfold split_whitespace.
  destruct rest as [|w2 rest].
  - cbn [join]. rewrite <- (app_nil_r w) at 1. rewrite split_loop_word by assumption.
    cbn [split_loop]. now rewrite app_nil_r, rev_involutive.
  - rewrite join_cons by discriminate. rewrite split_loop_word by assumption.
    cbn [app split_loop]. change (is_whitespace SPACE) with true. cbn iota.
    rewrite app_nil_r, rev_involutive. f_equal.
    apply split_loop_joined; [discriminate | assumption | exact Hn].
Qed.

Lemma nonempty_but_last_skipn (k : nat) (l : list jsstring) :
  nonempty_but_last l -> nonempty_but_last (skipn k l).
Proof.
  revert l. induction k as [|k IH]; intros l H; [exact H|].
  destruct l as [|w rest]; [exact I|]. cbn [skipn].
  apply IH, (nonempty_but_last_tail w), H.
Qed.

Lemma nonempty_but_last_firstn (n : nat) (l : list jsstring) :
  nonempty_but_last l -> nonempty_but_last (firstn n l).
Proof.
  revert n. induction l as [|w rest IH]; intros n H; [now rewrite firstn_nil|].
  destruct n as [|n]; [exact I|]. cbn [firstn].
  destruct (firstn n rest) as [|w2 r] eqn:E; [exact I|]. rewrite <- E.
  assert (Hr : rest <> []) by (destruct rest; [rewrite firstn_nil in E|]; discriminate).
  apply (nonempty_but_last_cons w rest Hr) in H. destruct H as [H1 H2].
  apply nonempty_but_last_cons; [rewrite E; discriminate|].
  split; [exact H1 | apply IH, H2].
Qed.

Lemma empty_only_at_ends_range (n k : nat) (l : list jsstring) :
  empty_only_at_ends l -> empty_only_at_ends (firstn n (skipn k l)).
Proof.
  intros H.
  assert (Hs : empty_only_at_ends (skipn k l)).
  { destruct k as [|k]; [exact H|]. destruct l as [|w rest]; [exact I|].
    cbn [skipn]. apply nonempty_but_last_ends, nonempty_but_last_skipn, H. }
  destruct (skipn k l) as [|w rest]; [now rewrite firstn_nil|].
  destruct n as [|n]; [exact I|]. cbn [firstn]. apply nonempty_but_last_firstn, Hs.
Qed.

Lemma skipn_Forall {A : Type} (P : A -> Prop) (n : nat) (l : list A) :
  Forall P l -> Forall P (skipn n l).
Proof.
  intros H. rewrite Forall_forall in H |- *. intros x Hx. apply H.
  rewrite <- (firstn_skipn n l). apply in_or_app. now right.
Qed.

(** *** The loop *)

Lemma split_whitespace_length (text : jsstring) :
  0 < Z.of_nat (length (split_whitespace text)).
Proof.
  pose proof (split_loop_nonempty false [] text) as N. fold (split_whitespace text) in N.
  destruct (split_whitespace text); [contradiction | cbn [length]; lia].
Qed.

(** With a positive step the loop ends, after at most one iteration for
    every word. *)
Lemma chunk_loop_ends (words : list jsstring) (chunkSize overlap : Z) :
  0 < chunkSize - overlap ->
  forall n i chunks,
    Z.of_nat (length words) - i <= Z.of_nat n ->
    exists more, forall fuel, (n < fuel)%nat ->
      chunk_loop fuel words chunkSize overlap i chunks = Some (chunks ++ more).
Proof.
  intros Hstep. induction n as [|n IH]; intros i chunks Hn.
  - exists []. intros [|fuel] Hf; [lia|]. cbn [chunk_loop].
    destruct (Z.ltb_spec i (Z.of_nat (length words))); [lia|]. now rewrite app_nil_r.
  - destruct (Z.ltb_spec i (Z.of_nat (length words))) as [Hi|Hi].
    + destruct (IH (i + (chunkSize - overlap))
                  (chunks ++ [join [SPACE] (slice words i (i + chunkSize))]))
        as [more Hm]; [lia|].
      exists (join [SPACE] (slice words i (i + chunkSize)) :: more).
      intros [|fuel] Hf; [lia|]. cbn [chunk_loop].
      destruct (Z.ltb_spec i (Z.of_nat (length words))); [|lia].
      rewrite Hm by lia. now rewrite <- app_assoc.
    + exists []. intros [|fuel] Hf; [lia|]. cbn [chunk_loop].
      destruct (Z.ltb_spec i (Z.of_nat (length words))); [lia|]. now rewrite app_nil_r.
Qed.

Lemma chunkText_returns_unique (text : jsstring) (chunkSize overlap : Z)
  (chunks1 chunks2 : list jsstring) :
  chunkText_returns text chunkSize overlap chunks1 ->
  chunkText_returns text chunkSize overlap chunks2 -> chunks1 = chunks2.
Proof.
  intros [n Hn] [m Hm].
  specialize (Hn (Nat.max n m) (Nat.le_max_l n m)).
  specialize (Hm (Nat.max n m) (Nat.le_max_r n m)).
  rewrite Hm in Hn. now injection Hn.
Qed.

(** X16. [chunkText] returns exactly when [overlap < chunkSize]. With
    [overlap >= chunkSize] the loop is still running after any number of
    iterations, whatever the text. When it returns, the array is never
    empty. *)
Theorem chunkText_returns_iff (text : jsstring) (chunkSize overlap : Z) :
  ((exists chunks, chunkText_returns text chunkSize overlap chunks)
   <-> overlap < chunkSize)
  /\ (chunkSize <= overlap -> forall fuel, chunkText fuel text chunkSize overlap = None)
  /\ (forall chunks, chunkText_returns text chunkSize overlap chunks -> chunks <> []).
Proof.
  pose proof (split_whitespace_length text) as Hne.
  split; [split|split].
  - intros [chunks [n Hn]]. destruct (Z.lt_ge_cases overlap chunkSize) as [L|G]; [exact L|].
    specialize (Hn n (le_n n)). rewrite chunkText_loops_forever in Hn by lia.
    discriminate.
  - intros L.
    destruct (chunk_loop_ends (split_whitespace text) chunkSize overlap ltac:(lia)
                (length (split_whitespace text)) 0 []) as [more Hm]; [lia|].
    exists more. exists (S (length (split_whitespace text))). intros fuel Hf.
    unfold chunkText. apply Hm. lia.
  - intros G fuel. apply chunkText_loops_forever. lia.
  - intros chunks [n Hn] ->.
    destruct (Z.lt_ge_cases overlap chunkSize) as [L|G].
    + set (words := split_whitespace text) in *.
      destruct (chunk_loop_ends words chunkSize overlap ltac:(lia)
                  (length words) (0 + (chunkSize - overlap))
                  ([] ++ [join [SPACE] (slice words 0 (0 + chunkSize))]))
        as [more Hm]; [lia|].
      specialize (Hn (S (Nat.max n (S (length words)))) ltac:(lia)).
      unfold chunkText in Hn. fold words in Hn. cbn [chunk_loop] in Hn.
      destruct (Z.ltb_spec 0 (Z.of_nat (length words))); [|lia].
      rewrite Hm in Hn by lia. discriminate.
    + specialize (Hn n (le_n n)). rewrite chunkText_loops_forever in Hn by lia.
      discriminate.
Qed.

(** X17. A text of at most [chunkSize - overlap] words comes back as a single
    chunk: the text with every run of whitespace replaced by one space. Runs
    at the ends are kept as a space, not trimmed. *)
Theorem chunkText_short_text (text : jsstring) (chunkSize overlap : Z) :
  0 <= overlap < chunkSize ->
  Z.of_nat (length (split_whitespace text)) <= chunkSize - overlap ->
  chunkText_returns text chunkSize overlap [replace_whitespace_runs false text].
Proof.
  intros Hp Hs. exists 2%nat. intros [|[|fuel]] Hf; try lia.
  pose proof (split_whitespace_length text) as Hne.
  unfold chunkText. cbn [chunk_loop].
  destruct (Z.ltb_spec 0 (Z.of_nat (length (split_whitespace text)))); [|lia].
  destruct (Z.ltb_spec (0 + (chunkSize - overlap)) (Z.of_nat (length (split_whitespace text))));
    [lia|].
  rewrite slice_chunk by lia. cbn [Z.to_nat skipn app].
  rewrite firstn_all2 by lia. now rewrite join_split_whitespace.
Qed.

Lemma chunkText_short_text_witness :
  chunkText_returns (js "  two   words ") default_chunkSize default_overlap
    [js " two words "].
Proof.
  apply (chunkText_short_text (js "  two   words ") default_chunkSize default_overlap).
  - unfold default_chunkSize, default_overlap. lia.
  - vm_compute. discriminate.
Defined.

(** X15. [text.split(/\s+/)], which [chunkText] uses for its words and the
    document manager for [wordCount], always gives at least one piece (so
    the word count of an empty file is 1). No piece holds whitespace;
    together they are the non-whitespace code units of the text in order,
    and joined by single spaces they are the text with its whitespace runs
    collapsed. Only the first and the last piece can be empty, and splitting
    their join gives the same pieces again. *)
Theorem split_whitespace_words (text : jsstring) :
  let words := split_whitespace text in
  (1 <= length words)%nat
  /\ Forall is_wordlike words
  /\ concat words = visible text
  /\ join [SPACE] words = replace_whitespace_runs false text
  /\ (forall i, nth_error words i = Some [] -> i = 0%nat \/ S i = length words)
  /\ split_whitespace (join [SPACE] words) = words.
Proof.
  cbv zeta.
  assert (Hne : split_whitespace text <> []) by apply split_loop_nonempty.
  assert (Hw : Forall is_wordlike (split_whitespace text))
    by (apply split_loop_wordlike; constructor).
  split; [destruct (split_whitespace text); [contradiction | cbn [length]; lia]|].
  split; [exact Hw|].
  split; [exact (proj1 (split_loop_concat text) [])|].
  split; [apply join_split_whitespace|].
  split.
  - intros i E. pose proof (split_whitespace_ends text) as H.
    destruct (split_whitespace text) as [|w rest]; [contradiction|].
    destruct i as [|i]; [now left|]. right. cbn [nth_error] in E. cbn [length].
    f_equal. exact (nonempty_but_last_nth rest i H E).
  - apply split_whitespace_join; [exact Hne | exact Hw | apply split_whitespace_ends].
Qed.

(** *** The words of the chunks *)

Lemma firstn_add {A : Type} (a b : nat) (l : list A) :
  firstn (a + b) l = firstn a l ++ firstn b (skipn a l).
Proof.
  revert l. induction a as [|a IH]; intros l; [reflexivity|].
  destruct l as [|x l]; [now rewrite !firstn_nil|].
  cbn [Nat.add firstn skipn app]. now rewrite IH.
Qed.

(** Consecutive blocks of [s] elements make up the list. *)
Lemma concat_blocks {A : Type} (s : nat) (l : list A) (n k : nat) :
  concat (map (fun i => firstn s (skipn (i * s) l)) (seq k n))
  = firstn (n * s) (skipn (k * s) l).
Proof.
  revert k. induction n as [|n IH]; intros k; [reflexivity|].
  cbn [seq map concat]. rewrite IH. cbn [Nat.mul]. rewrite firstn_add.
  f_equal. rewrite skipn_skipn. repeat f_equal; lia.
Qed.

Lemma words_of_chunk_blocks (words : list jsstring) (chunkSize overlap : Z) (i : nat) :
  0 <= overlap < chunkSize ->
  words_of_chunk words chunkSize overlap i
  = firstn (Z.to_nat chunkSize) (skipn (i * Z.to_nat (chunkSize - overlap)) words).
Proof.
  intros Hp. unfold words_of_chunk, chunk_start. do 2 f_equal. nia.
Qed.

Lemma spec_chunk_count_covers (words : list jsstring) (chunkSize overlap : Z) :
  0 <= overlap < chunkSize ->
  (length words
   <= spec_chunk_count words chunkSize overlap * Z.to_nat (chunkSize - overlap))%nat.
Proof.
  intros Hp.
  pose proof (chunk_count_spec words chunkSize overlap
                (spec_chunk_count words chunkSize overlap) ltac:(lia)) as [H _].
  unfold chunk_start in H.
  destruct (Z.lt_ge_cases
              (Z.of_nat (spec_chunk_count words chunkSize overlap) * (chunkSize - overlap))
              (Z.of_nat (length words))) as [L|G]; [|nia].
  assert (F : (spec_chunk_count words chunkSize overlap
               < spec_chunk_count words chunkSize overlap)%nat); [|lia].
  apply chunk_count_spec; [lia | exact L].
Qed.

(** A chunk that the loop produces has at least one word. *)
Lemma words_of_chunk_nonempty (words : list jsstring) (chunkSize overlap : Z) (i : nat) :
  0 <= overlap < chunkSize ->
  (i < spec_chunk_count words chunkSize overlap)%nat ->
  words_of_chunk words chunkSize overlap i <> [].
Proof.
  intros Hp Hi E. apply (f_equal (@length jsstring)) in E.
  rewrite words_of_chunk_length in E. cbn [length] in E.
  apply chunk_count_spec in Hi; [|lia]. unfold chunk_start in *. nia.
Qed.

Lemma resplit_chunk (text : jsstring) (chunkSize overlap : Z) (i : nat) :
  0 <= overlap < chunkSize ->
  (i < spec_chunk_count (split_whitespace text) chunkSize overlap)%nat ->
  split_whitespace (spec_chunk (split_whitespace text) chunkSize overlap i)
  = words_of_chunk (split_whitespace text) chunkSize overlap i.
Proof.
  intros Hp Hi. unfold spec_chunk. apply split_whitespace_join.
  - apply words_of_chunk_nonempty; assumption.
  - unfold words_of_chunk. apply firstn_Forall, skipn_Forall, split_loop_wordlike.
    constructor.
  - unfold words_of_chunk. apply empty_only_at_ends_range, split_whitespace_ends.
Qed.

Lemma spec_chunks_resplit (text : jsstring) (chunkSize overlap : Z) :
  0 <= overlap < chunkSize ->
  map split_whitespace (spec_chunks text chunkSize overlap)
  = map (words_of_chunk (split_whitespace text) chunkSize overlap)
        (seq 0 (length (spec_chunks text chunkSize overlap))).
Proof.
  intros Hp. unfold spec_chunks. rewrite length_map, length_seq, map_map.
  apply map_ext_in. intros i Hi. apply in_seq in Hi.
  apply resplit_chunk; [exact Hp | lia].
Qed.

(** X18. For [0 <= overlap < chunkSize], splitting a chunk at whitespace gives
    back the words it was joined from: chunk number [i] splits into the
    slice of the words from [i * (chunkSize - overlap)] to that index plus
    [chunkSize]. So every chunk holds at least one and at most [chunkSize]
    words. *)
Theorem chunkText_chunks_resplit (text : jsstring) (chunkSize overlap : Z) :
  0 <= overlap < chunkSize ->
  exists chunks,
    chunkText_returns text chunkSize overlap chunks
    /\ map split_whitespace chunks
       = map (fun i => slice (split_whitespace text)
                         (Z.of_nat i * (chunkSize - overlap))
                         (Z.of_nat i * (chunkSize - overlap) + chunkSize))
             (seq 0 (length chunks))
    /\ Forall (fun chunk => (1 <= length (split_whitespace chunk) <= Z.to_nat chunkSize)%nat)
              chunks.
Proof.
  intros Hp. exists (spec_chunks text chunkSize overlap).
  split; [apply chunkText_spec_chunks, Hp|].
  rewrite spec_chunks_resplit by exact Hp. split.
  - apply map_ext. intros i. rewrite slice_chunk by nia. reflexivity.
  - apply Forall_forall. intros chunk Hc. unfold spec_chunks in Hc.
    apply in_map_iff in Hc. destruct Hc as (i & <- & Hi). apply in_seq in Hi.
    rewrite resplit_chunk by (exact Hp || lia).
    pose proof (words_of_chunk_nonempty (split_whitespace text) chunkSize overlap i Hp
                  ltac:(lia)) as N.
    rewrite words_of_chunk_length.
    split; [|lia].
    destruct (words_of_chunk (split_whitespace text) chunkSize overlap i) eqn:E;
      [contradiction|].
    apply (f_equal (@length jsstring)) in E. rewrite words_of_chunk_length in E.
    cbn [length] in E. lia.
Qed.

Lemma chunkText_chunks_resplit_witness :
  exists chunks,
    chunkText_returns (js " a b  c ") 2 1 chunks
    /\ map split_whitespace chunks
       = map (fun i => slice (split_whitespace (js " a b  c "))
                         (Z.of_nat i * (2 - 1)) (Z.of_nat i * (2 - 1) + 2))
             (seq 0 (length chunks))
    /\ Forall (fun chunk => (1 <= length (split_whitespace chunk) <= Z.to_nat 2)%nat)
              chunks.
Proof. apply (chunkText_chunks_resplit (js " a b  c ") 2 1). lia. Defined.

(** X19. For [0 <= overlap < chunkSize] no word is lost and neighbours share
    the overlap: the first [chunkSize - overlap] words of every chunk, put
    end to end, are the words of the text, and what a chunk holds beyond
    them is the first [overlap] words of the next chunk. *)
Theorem chunkText_covers (text : jsstring) (chunkSize overlap : Z) :
  0 <= overlap < chunkSize ->
  exists chunks,
    chunkText_returns text chunkSize overlap chunks
    /\ concat (map (fun chunk => firstn (Z.to_nat (chunkSize - overlap))
                                   (split_whitespace chunk)) chunks)
       = split_whitespace text
    /\ (forall i chunk next,
          nth_error chunks i = Some chunk -> nth_error chunks (S i) = Some next ->
          skipn (Z.to_nat (chunkSize - overlap)) (split_whitespace chunk)
          = firstn (Z.to_nat overlap) (split_whitespace next)).
Proof.
  intros Hp. exists (spec_chunks text chunkSize overlap).
  split; [apply chunkText_spec_chunks, Hp|].
  set (words := split_whitespace text).
  set (step := Z.to_nat (chunkSize - overlap)).
  assert (Hstep : (step <= Z.to_nat chunkSize)%nat) by (unfold step; lia).
  split.
  - rewrite <- (map_map split_whitespace (firstn step)).
    rewrite spec_chunks_resplit by exact Hp. fold words.
    unfold spec_chunks at 1. fold words. rewrite length_map, length_seq, map_map.
    rewrite (map_ext _ (fun i => firstn step (skipn (i * step) words))).
    + rewrite concat_blocks. cbn [Nat.mul skipn]. apply firstn_all2.
      apply spec_chunk_count_covers, Hp.
    + intros i. rewrite words_of_chunk_blocks by exact Hp. fold step.
      rewrite firstn_firstn. f_equal. lia.
  - intros i chunk next Hc Hn.
    assert (Hi : (S i < spec_chunk_count words chunkSize overlap)%nat).
    { assert (N : nth_error (spec_chunks text chunkSize overlap) (S i) <> None)
        by congruence.
      apply nth_error_Some in N. unfold spec_chunks in N.
      now rewrite length_map, length_seq in N. }
    unfold spec_chunks in Hc, Hn. fold words in Hc, Hn.
    rewrite nth_error_map, nth_error_seq in Hc, Hn.
    destruct (Nat.ltb_spec i (spec_chunk_count words chunkSize overlap)); [|lia].
    destruct (Nat.ltb_spec (S i) (spec_chunk_count words chunkSize overlap)); [|lia].
    cbn [option_map Nat.add] in Hc, Hn. injection Hc as <-. injection Hn as <-.
    unfold words. rewrite !resplit_chunk by (exact Hp || fold words; lia). fold words.
    rewrite !words_of_chunk_blocks by exact Hp. fold step.
    rewrite skipn_firstn_comm, skipn_skipn, firstn_firstn.
    replace (Z.to_nat chunkSize - step)%nat with (Z.to_nat overlap) by (unfold step; lia).
    replace (step + i * step)%nat with (S i * step)%nat by lia.
    f_equal. lia.
Qed.

Lemma chunkText_covers_witness :
  exists chunks,
    chunkText_returns (js "w1 w2 w3 w4 w5") 3 1 chunks
    /\ concat (map (fun chunk => firstn (Z.to_nat (3 - 1)) (split_whitespace chunk)) chunks)
       = split_whitespace (js "w1 w2 w3 w4 w5")
    /\ (forall i chunk next,
          nth_error chunks i = Some chunk -> nth_error chunks (S i) = Some next ->
          skipn (Z.to_nat (3 - 1)) (split_whitespace chunk)
          = firstn (Z.to_nat 1) (split_whitespace next)).
Proof. apply (chunkText_covers (js "w1 w2 w3 w4 w5") 3 1). lia. Defined.

(** ** More on calculateSimilarity *)

Lemma is_nan_SF (x : float) : PrimFloat.is_nan x = true <-> Prim2SF x = S754_nan.
Proof.
  rewrite is_nan_fkey. unfold fkey. split; [apply key_none | now intros ->].
Qed.

Lemma SF_nan_eq (x : float) : Prim2SF x = S754_nan -> x = nan.
Proof. intros H. apply Prim2SF_inj. now rewrite H. Qed.

Lemma mul_nan_l (x y : float) :
  Prim2SF x = S754_nan -> Prim2SF (x * y)%float = S754_nan.
Proof. intros H. rewrite mul_spec, H. reflexivity. Qed.

Lemma mul_nan_r (x y : float) :
  Prim2SF y = S754_nan -> Prim2SF (x * y)%float = S754_nan.
Proof. intros H. rewrite float_mul_comm. now apply mul_nan_l. Qed.

Lemma add_nan_l (x y : float) :
  Prim2SF x = S754_nan -> Prim2SF (x + y)%float = S754_nan.
Proof. intros H. rewrite add_spec, H. reflexivity. Qed.

Lemma add_nan_r (x y : float) :
  Prim2SF y = S754_nan -> Prim2SF (x + y)%float = S754_nan.
Proof.
  intros H. rewrite add_spec, H. unfold SF64add. destruct (Prim2SF x); reflexivity.
Qed.

Lemma div_nan_l (x y : float) : Prim2SF x = S754_nan -> (x / y)%float = nan.
Proof. intros H. apply SF_nan_eq. rewrite div_spec, H. reflexivity. Qed.

(** Once the accumulator is NaN it stays NaN. *)
Lemma fold_nan_acc (l : list (number * number)) (acc : number) :
  Prim2SF acc = S754_nan ->
  Prim2SF (fold_left (fun acc xy => (acc + fst xy * snd xy)%float) l acc) = S754_nan.
Proof.
  revert acc. induction l as [|xy l IH]; intros acc H; [exact H|].
  cbn [fold_left]. apply IH, add_nan_l, H.
Qed.

Lemma dot64_nan_l (a b : list number) :
  length a = length b -> has_nan a -> Prim2SF (dot64 a b) = S754_nan.
Proof.
  unfold dot64, has_nan. generalize 0%float as acc. intros acc E H. revert b acc E.
  induction H as [x a Hx|x a Ha IH]; intros [|y b] acc E; try discriminate;
    cbn [combine fold_left fst snd].
  - apply fold_nan_acc, add_nan_r, mul_nan_l, is_nan_SF, Hx.
  - apply IH. now injection E.
Qed.

Lemma calculateSimilarity_nan_l (a b : list number) :
  length a = length b -> has_nan a -> calculateSimilarity a b = Return nan.
Proof.
  intros E H. rewrite calculateSimilarity_cosine64, E, Nat.eqb_refl. f_equal.
  unfold cosine64. apply div_nan_l, dot64_nan_l; assumption.
Qed.

(** X7. A NaN component in either vector makes [calculateSimilarity]
    return NaN (for vectors of equal length). So whenever
    [findSimilarDocuments] returns a document, neither the query nor the
    embedding of that document holds a NaN. *)
Theorem calculateSimilarity_nan_component (a b : list number) :
  (length a = length b -> has_nan a \/ has_nan b ->
   calculateSimilarity a b = Return nan)
  /\ (forall (Metadata : Type) (docs : list (Document Metadata)) threshold limit result r,
        findSimilarDocuments a docs threshold limit = Return result ->
        In r result ->
        ~ has_nan a /\ ~ has_nan (embedding (doc r))).
Proof.
  assert (G : forall u v, length u = length v -> has_nan u \/ has_nan v ->
              calculateSimilarity u v = Return nan).
  { intros u v E [H|H]; [now apply calculateSimilarity_nan_l|].
    rewrite calculateSimilarity_comm. now apply calculateSimilarity_nan_l. }
  split; [apply G|].
  intros Metadata docs threshold limit result r F Hr.
  destruct (findSimilarDocuments_entries _ a docs threshold limit result F r Hr)
    as (_ & Hs & P).
  assert (E : length a = length (embedding (doc r))).
  { rewrite calculateSimilarity_cosine64 in Hs.
    destruct (Nat.eqb_spec (length a) (length (embedding (doc r)))); [assumption|].
    discriminate. }
  assert (N : ~ (has_nan a \/ has_nan (embedding (doc r)))); [|tauto].
  intros H. rewrite (G _ _ E H) in Hs. injection Hs as Hs. rewrite <- Hs in P.
  destruct (cmp_nan_l nan threshold eq_refl) as (_ & _ & _ & _ & L & _). congruence.
Qed.

(** *** A similarity outside [-1, 1] *)

Lemma key_positive_finite (x : spec_float) (k : Z) :
  key x = Some k -> 0 < k < huge -> exists m e, x = S754_finite false m e.
Proof.
  destruct x as [s|s| |s m e]; cbn [key]; intros K H; try discriminate;
    injection K as <-.
  - lia.
  - destruct s; cbn [cond_Zopp] in H; unfold huge in *; lia.
  - destruct s; [|eauto]. cbn [cond_Zopp] in H.
    assert (0 <= scaled m e); [|lia]. unfold scaled. apply Z.mul_nonneg_nonneg; [lia|].
    apply Z.pow_nonneg. lia.
Qed.

Lemma fkey_infinity : fkey infinity = Some huge.
Proof. reflexivity. Qed.

(** A number that is positive and below Infinity is finite. *)
Lemma positive_finite (x : float) :
  (0 <? x)%float = true -> (x <? infinity)%float = true ->
  exists m e, Prim2SF x = S754_finite false m e.
Proof.
  intros H0 H1. apply ltb_true_keys in H0, H1.
  destruct H0 as (z & k & Kz & Kx & Hz), H1 as (k' & h & Kx' & Kh & Hh).
  rewrite fkey_zero in Kz. injection Kz as <-.
  rewrite fkey_infinity in Kh. injection Kh as <-.
  rewrite Kx in Kx'. injection Kx' as <-.
  apply (key_positive_finite (Prim2SF x) k Kx). lia.
Qed.

Lemma positive_SF (x : float) :
  (0 <? x)%float = true ->
  (exists m e, Prim2SF x = S754_finite false m e) \/ Prim2SF x = S754_infinity false.
Proof.
  rewrite ltb_spec. change (Prim2SF 0%float) with (S754_zero false). unfold SFltb.
  destruct (Prim2SF x) as [s|s| |s m e]; try destruct s; cbn; intros H;
    try discriminate; eauto.
Qed.

(** X8. The similarity is not always within [-1, 1]. When the sum of squares
    of the first vector underflows to zero although the dot product is
    positive, and the norm of the second vector is positive and finite,
    [calculateSimilarity] returns Infinity. Infinity exceeds 1 and passes
    every threshold that is not NaN. *)
Theorem calculateSimilarity_unbounded (a b : list number) :
  length a = length b ->
  dot64 a a = 0%float ->
  (0 <? norm64 b)%float = true -> (norm64 b <? infinity)%float = true ->
  (0 <? dot64 a b)%float = true ->
  calculateSimilarity a b = Return infinity
  /\ (1 <? infinity)%float = true
  /\ forall threshold, PrimFloat.is_nan threshold = false ->
       (threshold <=? infinity)%float = true.
Proof.
  intros E Hz Hn0 Hn1 Hd. split; [|split; [reflexivity|]].
  - rewrite calculateSimilarity_cosine64, E, Nat.eqb_refl. f_equal.
    unfold cosine64. unfold norm64 at 1. rewrite Hz.
    apply Prim2SF_inj. rewrite div_spec, mul_spec, sqrt_spec.
    change (Prim2SF 0%float) with (S754_zero false).
    destruct (positive_finite _ Hn0 Hn1) as (m & e & ->).
    destruct (positive_SF _ Hd) as [(md & ed & ->)| ->]; reflexivity.
  - intros t Ht.
    destruct (fkey t) as [k|] eqn:K.
    + rewrite (leb_key t infinity k huge K fkey_infinity). apply Z.leb_le.
      unfold fkey in K. pose proof (Prim2SF_valid t) as V.
      destruct (Prim2SF t) as [s|s| |s m e]; cbn [key] in K; try discriminate;
        injection K as <-.
      * unfold huge. lia.
      * destruct s; cbn [cond_Zopp]; unfold huge; lia.
      * pose proof (scaled_lt_big s m e V).
        assert (0 <= scaled m e).
        { unfold scaled. apply Z.mul_nonneg_nonneg; [lia|]. apply Z.pow_nonneg. lia. }
        destruct s; cbn [cond_Zopp]; lia.
    + apply is_nan_fkey in K. congruence.
Qed.

Lemma calculateSimilarity_unbounded_witness :
  calculateSimilarity [0x1p-540]%float [0x1p500]%float = Return infinity.
Proof.
  apply (calculateSimilarity_unbounded [0x1p-540]%float [0x1p500]%float); reflexivity.
Defined.



(** ** The handlers of the document manager *)

Section HandlerFacts.
Import DocumentManager.

Lemma bind_run {A B : Type} (m : Handler A) (k : A -> Handler B) this :
  bind m k this
  = match outcome (m this) with
    | Throw e => {| outcome := Throw e; service_after := service_after (m this);
                    effects := effects (m this) |}
    | Return a =>
        {| outcome := outcome (k a (service_after (m this)));
           service_after := service_after (k a (service_after (m this)));
           effects := effects (m this) ++ effects (k a (service_after (m this))) |}
    end.
Proof.
  unfold bind. destruct (m this) as [[a|e] this1 effs]; cbn [outcome service_after effects];
    [|reflexivity].
  destruct (k a this1); reflexivity.
Qed.

Lemma try_catch_finally_run {A : Type} (body : Handler A) (handler : JsError -> Handler A)
  (finalizer : Handler unit) this :
  (forall t, outcome (finalizer t) = Return tt) ->
  try_catch_finally body handler finalizer this
  = match outcome (body this) with
    | Return a =>
        let f := finalizer (service_after (body this)) in
        {| outcome := Return a; service_after := service_after f;
           effects := effects (body this) ++ effects f |}
    | Throw e =>
        let h := handler e (service_after (body this)) in
        let f := finalizer (service_after h) in
        {| outcome := outcome h; service_after := service_after f;
           effects := (effects (body this) ++ effects h) ++ effects f |}
    end.
Proof.
  intros Hf. unfold try_catch_finally.
  destruct (body this) as [[a|e] this1 effs]; cbn [outcome service_after effects].
  - specialize (Hf this1). destruct (finalizer this1) as [cf this3 effsf].
    cbn [outcome] in Hf. subst cf. reflexivity.
  - destruct (handler e this1) as [ch thish effsh]. cbv zeta.
    cbn [outcome service_after effects].
    specialize (Hf thish). destruct (finalizer thish) as [cf this3 effsf].
    cbn [outcome] in Hf. subst cf. reflexivity.
Qed.

Lemma service_not_update (evs : list Event) : filter is_update (map service evs) = [].
Proof. induction evs as [|ev evs IH]; [reflexivity | exact IH]. Qed.

Lemma service_pipeline_requests (evs : list Event) :
  filter is_pipeline_call evs = [] -> filter is_pipeline_request (map service evs) = [].
Proof.
  induction evs as [|ev evs IH]; [reflexivity|]. cbn [filter map].
  destruct ev; cbn [is_pipeline_call is_pipeline_request]; try exact IH. discriminate.
Qed.

Lemma no_backend_or_available (env : Environment) :
  no_backend env \/ backend_available env.
Proof.
  unfold no_backend, backend_available.
  destruct (pipeline env webgpu) as [ex|e1] eqn:G; [right; eauto|].
  destruct (pipeline env cpu) as [ex|e2] eqn:C; [right; eauto|]. left. eauto.
Qed.

Lemma initialize_with_backend (env : Environment) (this : EmbeddingServiceClass) :
  backend_available env -> completion (initialize env this) = Return tt.
Proof.
  intros [ex B].
  destruct (initialize_cases env this)
    as [[H ->]|[[H (ex' & G & ->)]|[[H (e1 & ex' & G & C & ->)]|[H (e1 & e2 & G & C & E)]]]];
    try reflexivity.
  destruct B; congruence.
Qed.

(** How a call of [generateEmbedding] from a handler ends. *)
Lemma call_generateEmbedding (env : Environment) (text : jsstring)
  (this : EmbeddingServiceClass) :
  let r := call (generateEmbedding env text) this in
  filter is_update (effects r) = []
  /\ (forall v, outcome r = Return v -> isInitialized (service_after r) = true)
  /\ (isInitialized this = true \/ backend_available env ->
      exists v, outcome r = Return v)
  /\ (isInitialized this = false -> no_backend env ->
      outcome r = Throw InitializationError)
  /\ (isInitialized this = true ->
      service_after r = this /\ filter is_pipeline_request (effects r) = []
      /\ completion (generateEmbedding env text this) = outcome r).
Proof.
  cbv zeta. unfold call.
  destruct (isInitialized this) eqn:Hi.
  - destruct (generateEmbedding_initialized_returns env text this Hi)
      as (v & evs & -> & Hp & _).
    cbn [outcome service_after effects completion].
    split; [apply service_not_update|]. split; [intros _ _; exact Hi|].
    split; [eauto|]. split; [discriminate|]. intros _.
    split; [reflexivity|]. split; [apply service_pipeline_requests, Hp | reflexivity].
  - rewrite (generateEmbedding_uninitialized env text this Hi).
    destruct (completion (initialize env this)) as [[]|e0] eqn:C.
    + pose proof (initialize_returns_initialized env this C) as Hi1.
      destruct (generateEmbedding_initialized_returns env text _ Hi1)
        as (v & evs & -> & _).
      cbv zeta. cbn [outcome service_after effects completion this_after events].
      split; [apply service_not_update|]. split; [intros _ _; exact Hi1|].
      split; [eauto|]. split; [|discriminate].
      intros _ N.
      exfalso. assert (T : completion (initialize env this) = Throw InitializationError)
        by (apply initialize_throws_iff; auto).
      congruence.
    + cbn [outcome service_after effects].
      pose proof (proj1 (initialize_throws_iff env this e0) C) as (-> & _ & N).
      split; [apply service_not_update|]. split; [discriminate|].
      split; [|split; [reflexivity | discriminate]].
      intros [D|B]; [discriminate|].
      rewrite (initialize_with_backend env this B) in C. discriminate.
Qed.

Lemma effect_run (eff : Effect) this :
  effect eff this = {| outcome := Return tt; service_after := this; effects := [eff] |}.
Proof. reflexivity. Qed.

Lemma upload_loop_unreadable (w : World) (total i : nat) (file : File)
  (rest : list File) (newDocuments : list Document) this :
  text file = None ->
  upload_loop w total i (file :: rest) newDocuments this
  = {| outcome := Throw (Error "Failed to read file"); service_after := this;
       effects := [] |}.
Proof.
  intros T. cbn [upload_loop]. unfold bind at 1. unfold settled, readFileAsText.
  rewrite T. reflexivity.
Qed.

(** One iteration of the loop of [handleFileUpload] on a file that can be
    read. *)
Lemma upload_loop_step (w : World) (total i : nat) (file : File)
  (rest : list File) (newDocuments : list Document) this (text_ : jsstring) :
  text file = Some text_ ->
  upload_loop w total i (file :: rest) newDocuments this
  = let g := call (generateEmbedding (embedding_env w i) text_) this in
    match outcome g with
    | Throw e => {| outcome := Throw e; service_after := service_after g;
                    effects := effects g |}
    | Return vector =>
        let document :=
          {| id := randomUUID w i; title := name file; content := text_;
             embedding := vector;
             metadata := {| source := name file; uploadedAt := new_Date w i;
                            wordCount := length (split_whitespace text_) |} |} in
        let next := upload_loop w total (S i) rest (newDocuments ++ [document])
                      (service_after g) in
        {| outcome := outcome next; service_after := service_after next;
           effects := effects g ++ setProcessingProgress (progress i total)
                                :: effects next |}
    end.
Proof.
  intros T. cbn [upload_loop]. unfold bind at 1. unfold settled, readFileAsText.
  rewrite T. cbv zeta. unfold bind at 1.
  destruct (call (generateEmbedding (embedding_env w i) text_) this) as [[v|e] this1 effs];
    cbn [outcome service_after effects app]; [|reflexivity].
  unfold bind at 1. unfold effect at 1.
  match goal with |- context [upload_loop ?a ?b ?c ?d ?e ?f] =>
    destruct (upload_loop a b c d e f) as [c2 this2 effs2] end.
  reflexivity.
Qed.

(** What the loop of [handleFileUpload] does. *)
Lemma upload_loop_facts (w : World) (total : nat) (files : list File) :
  forall i newDocuments this,
    let r := upload_loop w total i files newDocuments this in
    filter is_update (effects r) = []
    /\ (forall docs, outcome r = Return docs ->
          exists added, docs = newDocuments ++ added
                        /\ Forall2 made_from files added
                        /\ map id added = map (randomUUID w) (seq i (length files)))
    /\ (Forall readable files ->
        files = [] \/ isInitialized this = true \/ backend_available (embedding_env w i) ->
        exists docs, outcome r = Return docs)
    /\ (Exists (fun file => text file = None) files -> exists e, outcome r = Throw e)
    /\ (files <> [] -> isInitialized this = false -> no_backend (embedding_env w i) ->
        exists e, outcome r = Throw e).
Proof.
  induction files as [|file rest IH]; intros i newDocuments this; cbv zeta.
  - cbn [upload_loop]. unfold ret. cbn [outcome effects filter].
    split; [reflexivity|]. split.
    { intros docs E. injection E as <-. exists []. rewrite app_nil_r.
      repeat split. constructor. }
    split; [eauto|]. split; [intros E; inversion E|]. intros N. contradiction.
  - destruct (text file) as [text_|] eqn:T.
    + rewrite (upload_loop_step w total i file rest newDocuments this text_ T). cbv zeta.
      destruct (call_generateEmbedding (embedding_env w i) text_ this)
        as (Gu & Gi & Gr & Gt & _).
      destruct (outcome (call (generateEmbedding (embedding_env w i) text_) this))
        as [vector|e] eqn:G.
      * set (this1 := service_after
                        (call (generateEmbedding (embedding_env w i) text_) this)) in *.
        set (document := {| id := randomUUID w i; title := name file; content := text_;
                            embedding := vector;
                            metadata := {| source := name file; uploadedAt := new_Date w i;
                                           wordCount := length (split_whitespace text_) |} |}).
        destruct (IH (S i) (newDocuments ++ [document]) this1)
          as (Iu & Id & Ir & It & _).
        cbn [outcome effects].
        split.
        { rewrite filter_app, Gu. cbn [app filter is_update]. exact Iu. }
        split.
        { intros docs E. destruct (Id docs E) as (added & -> & Hm & Hid).
          exists (document :: added). rewrite <- app_assoc.
          split; [reflexivity|]. split.
          - constructor; [|exact Hm]. repeat split. exact T.
          - cbn [length seq map]. now rewrite Hid. }
        split.
        { intros Hr _. apply Ir; [now inversion Hr|]. right. left.
          exact (Gi vector eq_refl). }
        split.
        { intros Hx. apply It. inversion Hx as [? ? Hn|? ? Hx']; subst; [congruence|].
          exact Hx'. }
        intros _ Hi N. discriminate (Gt Hi N).
      * cbn [outcome effects]. split; [exact Gu|]. split; [discriminate|].
        split.
        { intros _ [D|[D|B]]; [discriminate D| |].
          - destruct (Gr (or_introl D)) as [v Hv]. discriminate Hv.
          - destruct (Gr (or_intror B)) as [v Hv]. discriminate Hv. }
        split; eauto.
    + rewrite (upload_loop_unreadable w total i file rest newDocuments this T).
      cbn [outcome effects filter]. split; [reflexivity|]. split; [discriminate|].
      split.
      { intros Hr. inversion Hr as [|? ? Hf]; subst. unfold readable in Hf. congruence. }
      split; eauto.
Qed.

Lemma upload_finalizer_returns (w : World) t :
  outcome ((bind (effect (setIsProcessing false))
              (fun _ => bind (effect (setProcessingProgress 0%float))
                          (fun _ => if fileInputRef_current w then effect fileInput_cleared
                                    else ret tt))) t) = Return tt.
Proof. destruct (fileInputRef_current w); reflexivity. Qed.

(** [handleFileUpload], unfolded as far as the loop. *)
Lemma handleFileUpload_run (w : World) (documents : list Document) (files : list File) this :
  files <> [] ->
  let loop := upload_loop w (length files) 0 files [] this in
  let reset := [setIsProcessing false; setProcessingProgress 0%float]
                 ++ (if fileInputRef_current w then [fileInput_cleared] else []) in
  handleFileUpload w documents files this
  = {| outcome := Return tt;
       service_after := service_after loop;
       effects :=
         [setIsProcessing true; setProcessingProgress 0%float]
           ++ effects loop
           ++ match outcome loop with
              | Return newDocuments =>
                  [ onDocumentsUpdate (documents ++ newDocuments);
                    toast "Documents processed successfully"
                      ("Added " ++ decimal (length newDocuments)
                         ++ " document(s) with local embeddings")%string default ]
              | Throw error =>
                  [ console_error "Error processing documents:" error; error_toast ]
              end
           ++ reset |}.
Proof.
  intros Hne. cbv zeta. unfold handleFileUpload.
  destruct files as [|file rest]; [contradiction|]. cbn [length Nat.eqb].
  set (files := file :: rest). change (S (length rest)) with (length files).
  rewrite bind_run, effect_run. cbn [outcome service_after effects].
  rewrite bind_run, effect_run. cbn [outcome service_after effects].
  rewrite try_catch_finally_run by apply upload_finalizer_returns.
  rewrite bind_run.
  destruct (upload_loop w (length files) 0 files [] this) as [[newDocuments|error] this1 effs].
  - cbn [outcome service_after effects]. cbv zeta.
    destruct (fileInputRef_current w); cbn [app]; rewrite <- ?app_assoc; reflexivity.
  - cbn [outcome service_after effects]. cbv zeta.
    destruct (fileInputRef_current w); cbn [app]; rewrite <- ?app_assoc; reflexivity.
Qed.
End HandlerFacts.

Section UploadFacts.
Import DocumentManager.

Lemma filter_update_upload (w : World) (documents : list Document) (files : list File)
  this :
  files <> [] ->
  filter is_update (effects (handleFileUpload w documents files this))
  = match outcome (upload_loop w (length files) 0 files [] this) with
    | Return newDocuments => [onDocumentsUpdate (documents ++ newDocuments)]
    | Throw _ => []
    end.
Proof.
  intros Hne. rewrite (handleFileUpload_run w documents files this Hne).
  cbv zeta. cbn [effects app filter is_update].
  destruct (upload_loop_facts w (length files) files 0%nat [] this) as (Hu & _).
  rewrite !filter_app, Hu. cbn [app].
  destruct (outcome (upload_loop w (length files) 0 files [] this));
    destruct (fileInputRef_current w); reflexivity.
Qed.

Lemma made_from_counts (file : File) (doc : Document) :
  made_from file doc -> (1 <= wordCount (metadata doc))%nat.
Proof.
  intros (_ & _ & _ & ->). pose proof (split_whitespace_length (content doc)). lia.
Qed.
End UploadFacts.

(** X20. When every file can be read and the backend is there (the service
    is initialized, or a backend can be acquired during the first call),
    [handleFileUpload] does not raise and calls [onDocumentsUpdate] once,
    with the previous documents followed by one new document for every
    file, in the order of the files. Each new document has the name of its
    file as title and source, its text as content, the number of pieces of
    [content.split(/\s+/)] as word count (at least 1), and the identifier
    that [crypto.randomUUID()] gave for it. *)
Theorem handleFileUpload_adds_documents (w : DocumentManager.World)
  (documents : list DocumentManager.Document) (files : list DocumentManager.File)
  (this : EmbeddingServiceClass) :
  files <> [] ->
  Forall DocumentManager.readable files ->
  isInitialized this = true \/ backend_available (DocumentManager.embedding_env w 0) ->
  let r := DocumentManager.handleFileUpload w documents files this in
  DocumentManager.outcome r = Return tt
  /\ exists newDocuments,
       filter DocumentManager.is_update (DocumentManager.effects r)
       = [DocumentManager.onDocumentsUpdate (documents ++ newDocuments)]
       /\ Forall2 DocumentManager.made_from files newDocuments
       /\ map DocumentManager.id newDocuments
          = map (DocumentManager.randomUUID w) (seq 0 (length files))
       /\ Forall (fun doc => (1 <= DocumentManager.wordCount (DocumentManager.metadata doc))%nat)
                 newDocuments.
Proof.
  intros Hne Hr Hb. cbv zeta.
  split; [rewrite (handleFileUpload_run w documents files this Hne); reflexivity|].
  rewrite (filter_update_upload w documents files this Hne).
  destruct (upload_loop_facts w (length files) files 0%nat [] this)
    as (_ & Hd & Hret & _).
  destruct (Hret Hr (or_intror Hb)) as [docs E]. rewrite E.
  destruct (Hd docs E) as (added & -> & Hm & Hid). cbn [app].
  exists added. split; [reflexivity|]. split; [exact Hm|]. split; [exact Hid|].
  clear -Hm. induction Hm as [|file doc files added H _ IH]; constructor;
    [exact (made_from_counts file doc H) | exact IH].
Qed.

Lemma handleFileUpload_adds_documents_witness :
  filter DocumentManager.is_update
    (DocumentManager.effects
       (DocumentManager.handleFileUpload DocumentManager.example_world []
          DocumentManager.example_files new_EmbeddingServiceClass))
  = [ DocumentManager.onDocumentsUpdate
        [ {| DocumentManager.id := js "id0"; DocumentManager.title := js "a.txt";
             DocumentManager.content := js "one two";
             DocumentManager.embedding := [1; 0]%float;
             DocumentManager.metadata :=
               {| DocumentManager.source := js "a.txt"; DocumentManager.uploadedAt := 0;
                  DocumentManager.wordCount := 2 |} |};
          {| DocumentManager.id := js "id1"; DocumentManager.title := js "b.md";
             DocumentManager.content := js "";
             DocumentManager.embedding := [1; 0]%float;
             DocumentManager.metadata :=
               {| DocumentManager.source := js "b.md"; DocumentManager.uploadedAt := 0;
                  DocumentManager.wordCount := 1 |} |} ] ].
Proof.
  destruct (handleFileUpload_adds_documents DocumentManager.example_world []
              DocumentManager.example_files new_EmbeddingServiceClass)
    as (_ & newDocuments & E & _).
  - discriminate.
  - repeat constructor; discriminate.
  - right. exists (fun _ => Return [1; 0]%float). right. reflexivity.
  - rewrite E. vm_compute in E. injection E as <-. reflexivity.
Defined.

(** X21. [handleFileUpload] never raises and updates the documents at most
    once. With no file it does nothing at all. When some file cannot be
    read, or the service is uninitialized and no backend can be acquired,
    [onDocumentsUpdate] is not called, not even for the files processed
    before the failure, and the error toast is shown. Whenever there is a
    file, the call starts with [setIsProcessing(true)] and ends by
    resetting the processing state and progress (and clearing the file
    input, if it is mounted). *)
Theorem handleFileUpload_all_or_nothing (w : DocumentManager.World)
  (documents : list DocumentManager.Document) (files : list DocumentManager.File)
  (this : EmbeddingServiceClass) :
  let r := DocumentManager.handleFileUpload w documents files this in
  DocumentManager.outcome r = Return tt
  /\ (files = [] -> DocumentManager.effects r = [] /\ DocumentManager.service_after r = this)
  /\ (files <> [] ->
      Exists (fun file => DocumentManager.text file = None) files
      \/ (isInitialized this = false /\ no_backend (DocumentManager.embedding_env w 0)) ->
      filter DocumentManager.is_update (DocumentManager.effects r) = []
      /\ In DocumentManager.error_toast (DocumentManager.effects r))
  /\ (length (filter DocumentManager.is_update (DocumentManager.effects r)) <= 1)%nat
  /\ (files <> [] ->
      exists between,
        DocumentManager.effects r
        = DocumentManager.setIsProcessing true :: between
            ++ DocumentManager.reset_effects
            ++ (if DocumentManager.fileInputRef_current w
                then [DocumentManager.fileInput_cleared] else [])).
Proof.
  cbv zeta. destruct files as [|file rest].
  - split; [reflexivity|]. split; [intros _; split; reflexivity|].
    split; [intros N; contradiction|]. split; [cbn; lia|]. intros N. contradiction.
  - assert (Hne : file :: rest <> []) by discriminate.
    set (files := file :: rest) in *.
    split; [rewrite (handleFileUpload_run w documents files this Hne); reflexivity|].
    split; [intros E; contradiction|].
    split; [|split].
    + intros _ Hf. rewrite (filter_update_upload w documents files this Hne).
      rewrite (handleFileUpload_run w documents files this Hne). cbv zeta.
      destruct (upload_loop_facts w (length files) files 0%nat [] this)
        as (_ & _ & _ & Hx & Hn).
      assert (T : exists e, DocumentManager.outcome
                              (DocumentManager.upload_loop w (length files) 0 files [] this)
                            = Throw e).
      { destruct Hf as [Hf|[Hi N]]; [apply Hx, Hf | apply Hn; assumption]. }
      destruct T as [e ->]. split; [reflexivity|].
      cbn [DocumentManager.effects]. apply in_or_app. right. apply in_or_app. right.
      apply in_or_app. left. right. left. reflexivity.
    + rewrite (filter_update_upload w documents files this Hne).
      destruct (DocumentManager.outcome
                  (DocumentManager.upload_loop w (length files) 0 files [] this));
        cbn [length]; lia.
    + intros _. rewrite (handleFileUpload_run w documents files this Hne). cbv zeta.
      cbn [DocumentManager.effects].
      match goal with |- context [?l ++ ?m ++ [DocumentManager.setIsProcessing false; _] ++ _] =>
        exists (DocumentManager.setProcessingProgress 0%float :: l ++ m) end.
      unfold DocumentManager.reset_effects. cbn [app]. do 2 f_equal.
      now rewrite <- app_assoc.
Qed.

Section RegenerateFacts.
Import DocumentManager.

(** One iteration of the loop of [handleRegenerateEmbeddings]. *)
Lemma regenerate_loop_step (w : World) (total i : nat) (doc : Document)
  (rest : list Document) (updatedDocuments : list Document) this :
  regenerate_loop w total i (doc :: rest) updatedDocuments this
  = let g := call (generateEmbedding (embedding_env w i) (content doc)) this in
    match outcome g with
    | Throw e => {| outcome := Throw e; service_after := service_after g;
                    effects := effects g |}
    | Return newEmbedding =>
        let next := regenerate_loop w total (S i) rest
                      (updatedDocuments ++ [with_embedding doc newEmbedding])
                      (service_after g) in
        {| outcome := outcome next; service_after := service_after next;
           effects := effects g ++ setProcessingProgress (progress i total)
                                :: effects next |}
    end.
Proof.
  cbn [regenerate_loop]. cbv zeta. unfold bind at 1.
  destruct (call (generateEmbedding (embedding_env w i) (content doc)) this)
    as [[v|e] this1 effs]; cbn [outcome service_after effects app]; [|reflexivity].
  unfold bind at 1. unfold effect at 1.
  match goal with |- context [regenerate_loop ?a ?b ?c ?d ?e ?f] =>
    destruct (regenerate_loop a b c d e f) as [c2 this2 effs2] end.
  reflexivity.
Qed.

Lemma nth_error_after {A : Type} (l1 l2 : list A) (k : nat) :
  nth_error (l1 ++ l2) (length l1 + k) = nth_error l2 k.
Proof. induction l1 as [|x l1 IH]; [reflexivity | exact IH]. Qed.

(** What the loop of [handleRegenerateEmbeddings] does. *)
Lemma regenerate_loop_facts (w : World) (total : nat) (rest : list Document) :
  forall i updatedDocuments this,
    let r := regenerate_loop w total i rest updatedDocuments this in
    filter is_update (effects r) = []
    /\ (forall docs, outcome r = Return docs ->
          exists added, docs = updatedDocuments ++ added
                        /\ map unchanged_fields added = map unchanged_fields rest)
    /\ (rest = [] \/ isInitialized this = true \/ backend_available (embedding_env w i) ->
        exists docs, outcome r = Return docs)
    /\ (rest <> [] -> isInitialized this = false -> no_backend (embedding_env w i) ->
        exists e, outcome r = Throw e)
    /\ (isInitialized this = true ->
        service_after r = this
        /\ filter is_pipeline_request (effects r) = []
        /\ forall docs k doc new,
             outcome r = Return docs ->
             nth_error rest k = Some doc ->
             nth_error docs (length updatedDocuments + k) = Some new ->
             completion (generateEmbedding (embedding_env w (i + k)) (content doc) this)
             = Return (embedding new)).
Proof.
  induction rest as [|doc rest IH]; intros i updatedDocuments this; cbv zeta.
  - cbn [regenerate_loop]. unfold ret. cbn [outcome service_after effects filter].
    split; [reflexivity|]. split.
    { intros docs E. injection E as <-. exists []. now rewrite app_nil_r. }
    split; [eauto|]. split; [intros N; contradiction|].
    intros _. split; [reflexivity|]. split; [reflexivity|].
    intros docs [|k] d new _ D; discriminate D.
  - rewrite regenerate_loop_step. cbv zeta.
    destruct (call_generateEmbedding (embedding_env w i) (content doc) this)
      as (Gu & Gi & Gr & Gt & Gs).
    destruct (outcome (call (generateEmbedding (embedding_env w i) (content doc)) this))
      as [v|e] eqn:G.
    + set (this1 := service_after
                      (call (generateEmbedding (embedding_env w i) (content doc)) this)) in *.
      destruct (IH (S i) (updatedDocuments ++ [with_embedding doc v]) this1)
        as (Iu & Id & Ir & _ & Is).
      cbn [outcome service_after effects].
      split.
      { rewrite filter_app, Gu. cbn [app filter is_update]. exact Iu. }
      split.
      { intros docs E. destruct (Id docs E) as (added & -> & Hm).
        exists (with_embedding doc v :: added). rewrite <- app_assoc.
        split; [reflexivity|]. cbn [map]. now rewrite Hm. }
      split.
      { intros _. apply Ir. right. left. exact (Gi v eq_refl). }
      split.
      { intros _ Hi N. discriminate (Gt Hi N). }
      intros Hi. destruct (Gs Hi) as (Gs1 & Gs2 & Gs3).
      assert (E1 : this1 = this) by exact Gs1.
      rewrite E1 in *. destruct (Is Hi) as (Is1 & Is2 & Is3).
      split; [exact Is1|]. split.
      { rewrite filter_app, Gs2. cbn [app filter is_pipeline_request]. exact Is2. }
      intros docs k d new E Hk Hn. destruct (Id docs E) as (added & -> & _).
      destruct k as [|k].
      * cbn [nth_error] in Hk. injection Hk as <-.
        rewrite <- app_assoc, nth_error_after in Hn. cbn [app nth_error] in Hn.
        injection Hn as <-. rewrite Nat.add_0_r, Gs3. reflexivity.
      * cbn [nth_error] in Hk. rewrite <- Nat.add_succ_comm.
        apply (Is3 _ k d new E Hk).
        rewrite length_app. cbn [length].
        replace (length updatedDocuments + 1 + k)%nat
          with (length updatedDocuments + S k)%nat by lia.
        exact Hn.
    + cbn [outcome service_after effects]. split; [exact Gu|]. split; [discriminate|].
      split.
      { intros [D|[D|B]]; [discriminate D| |].
        - destruct (Gr (or_introl D)) as [v Hv]. discriminate Hv.
        - destruct (Gr (or_intror B)) as [v Hv]. discriminate Hv. }
      split; [eauto|].
      intros Hi. destruct (Gr (or_introl Hi)) as [v Hv]. discriminate Hv.
Qed.

(** [handleRegenerateEmbeddings], unfolded as far as the loop. *)
Lemma handleRegenerateEmbeddings_run (w : World) (documents : list Document) this :
  documents <> [] ->
  let loop := regenerate_loop w (length documents) 0 documents [] this in
  handleRegenerateEmbeddings w documents this
  = {| outcome := Return tt;
       service_after := service_after loop;
       effects :=
         [setIsProcessing true; setProcessingProgress 0%float]
           ++ effects loop
           ++ match outcome loop with
              | Return updatedDocuments =>
                  [ onDocumentsUpdate updatedDocuments;
                    toast "Embeddings regenerated"
                      ("Updated embeddings for " ++ decimal (length documents)
                         ++ " document(s)")%string default ]
              | Throw error =>
                  [ console_error "Error regenerating embeddings:" error;
                    regenerate_error_toast ]
              end
           ++ reset_effects |}.
Proof.
  intros Hne. cbv zeta. unfold handleRegenerateEmbeddings.
  destruct documents as [|doc rest]; [contradiction|]. cbn [length Nat.eqb].
  set (documents := doc :: rest). change (S (length rest)) with (length documents).
  rewrite bind_run, effect_run. cbn [outcome service_after effects].
  rewrite bind_run, effect_run. cbn [outcome service_after effects].
  rewrite try_catch_finally_run by reflexivity.
  rewrite bind_run.
  destruct (regenerate_loop w (length documents) 0 documents [] this)
    as [[updatedDocuments|error] this1 effs].
  - cbn [outcome service_after effects]. cbv zeta. cbn [app]. rewrite <- ?app_assoc.
    reflexivity.
  - cbn [outcome service_after effects]. cbv zeta. cbn [app]. rewrite <- ?app_assoc.
    reflexivity.
Qed.

Lemma filter_update_regenerate (w : World) (documents : list Document) this :
  documents <> [] ->
  filter is_update (effects (handleRegenerateEmbeddings w documents this))
  = match outcome (regenerate_loop w (length documents) 0 documents [] this) with
    | Return updatedDocuments => [onDocumentsUpdate updatedDocuments]
    | Throw _ => []
    end.
Proof.
  intros Hne. rewrite (handleRegenerateEmbeddings_run w documents this Hne).
  cbv zeta. cbn [effects app filter is_update].
  destruct (regenerate_loop_facts w (length documents) documents 0%nat [] this) as (Hu & _).
  rewrite !filter_app, Hu. cbn [app].
  destruct (outcome (regenerate_loop w (length documents) 0 documents [] this));
    reflexivity.
Qed.

Lemma strict_equal_spec (a b : jsstring) : strict_equal a b = true <-> a = b.
Proof.
  revert b. induction a as [|x a IH]; intros [|y b]; cbn [strict_equal];
    try (split; [discriminate | discriminate]); [tauto|].
  rewrite andb_true_iff, N.eqb_eq, IH. split; [intros [-> ->]; reflexivity|].
  intros E. injection E. auto.
Qed.

Lemma total_words_from (documents : list Document) (start : nat) :
  fold_left (fun acc doc => (acc + wordCount (metadata doc))%nat) documents start
  = (start + total_words documents)%nat.
Proof.
  unfold total_words. revert start.
  induction documents as [|doc rest IH]; intros start; cbn [fold_left]; [lia|].
  rewrite (IH (start + _)%nat), (IH (0 + _)%nat). lia.
Qed.

Lemma total_words_filter (f : Document -> bool) (documents : list Document) :
  (total_words (filter f documents) <= total_words documents)%nat.
Proof.
  induction documents as [|doc rest IH]; [reflexivity|].
  cbn [filter]. destruct (f doc); unfold total_words in *; cbn [fold_left];
    rewrite ?(total_words_from _ (0 + _)); unfold total_words; lia.
Qed.
End RegenerateFacts.

(** X22. On an initialized service [handleRegenerateEmbeddings] always
    succeeds: it does not raise, requests no pipeline, leaves the service
    as it is, and calls [onDocumentsUpdate] once with as many documents as
    before, in the same order and with the same identifier, title, content
    and metadata. The embedding of document number [k] is what
    [generateEmbedding] returns for its content. *)
Theorem handleRegenerateEmbeddings_keeps_documents (w : DocumentManager.World)
  (documents : list DocumentManager.Document) (this : EmbeddingServiceClass) :
  documents <> [] ->
  isInitialized this = true ->
  let r := DocumentManager.handleRegenerateEmbeddings w documents this in
  DocumentManager.outcome r = Return tt
  /\ DocumentManager.service_after r = this
  /\ filter DocumentManager.is_pipeline_request (DocumentManager.effects r) = []
  /\ exists updatedDocuments,
       filter DocumentManager.is_update (DocumentManager.effects r)
       = [DocumentManager.onDocumentsUpdate updatedDocuments]
       /\ map DocumentManager.unchanged_fields updatedDocuments
          = map DocumentManager.unchanged_fields documents
       /\ forall k doc new,
            nth_error documents k = Some doc ->
            nth_error updatedDocuments k = Some new ->
            completion (generateEmbedding (DocumentManager.embedding_env w k)
                          (DocumentManager.content doc) this)
            = Return (DocumentManager.embedding new).
Proof.
  intros Hne Hi. cbv zeta.
  destruct (regenerate_loop_facts w (length documents) documents 0%nat [] this)
    as (_ & Hd & Hr & _ & Hs).
  destruct (Hs Hi) as (Hs1 & Hs2 & Hs3).
  destruct (Hr (or_intror (or_introl Hi))) as [docs E].
  split; [rewrite (handleRegenerateEmbeddings_run w documents this Hne); reflexivity|].
  split; [rewrite (handleRegenerateEmbeddings_run w documents this Hne); exact Hs1|].
  split.
  { rewrite (handleRegenerateEmbeddings_run w documents this Hne). cbv zeta.
    cbn [DocumentManager.effects]. rewrite E, !filter_app, Hs2. reflexivity. }
  rewrite (filter_update_regenerate w documents this Hne), E.
  exists docs. split; [reflexivity|].
  destruct (Hd docs E) as (added & -> & Hm). cbn [app] in *. split; [exact Hm|].
  intros k doc new Hk Hn. exact (Hs3 added k doc new E Hk Hn).
Qed.

Lemma handleRegenerateEmbeddings_keeps_documents_witness :
  exists updatedDocuments,
    filter DocumentManager.is_update
      (DocumentManager.effects
         (DocumentManager.handleRegenerateEmbeddings DocumentManager.example_world
            DocumentManager.example_documents
            service_with_working_model))
    = [DocumentManager.onDocumentsUpdate updatedDocuments]
    /\ map DocumentManager.unchanged_fields updatedDocuments
       = map DocumentManager.unchanged_fields DocumentManager.example_documents
    /\ map DocumentManager.embedding updatedDocuments = [[1; 0]; [1; 0]]%float.
Proof.
  destruct (handleRegenerateEmbeddings_keeps_documents DocumentManager.example_world
              DocumentManager.example_documents
              service_with_working_model)
    as (_ & _ & _ & updatedDocuments & E & Hm & _).
  - discriminate.
  - reflexivity.
  - exists updatedDocuments. split; [exact E|]. split; [exact Hm|].
    vm_compute in E. injection E as <-. reflexivity.
Defined.

(** X23. [handleRegenerateEmbeddings] never raises. With no document it does
    nothing at all. When the service is uninitialized and no backend can be
    acquired, [onDocumentsUpdate] is not called and the error toast is
    shown. Whatever it passes to [onDocumentsUpdate] has the identifiers,
    titles, contents and metadata of the documents it was given. Whenever
    there is a document, the call starts with [setIsProcessing(true)] and
    ends by resetting the processing state and progress. *)
Theorem handleRegenerateEmbeddings_all_or_nothing (w : DocumentManager.World)
  (documents : list DocumentManager.Document) (this : EmbeddingServiceClass) :
  let r := DocumentManager.handleRegenerateEmbeddings w documents this in
  DocumentManager.outcome r = Return tt
  /\ (documents = [] ->
      DocumentManager.effects r = [] /\ DocumentManager.service_after r = this)
  /\ (documents <> [] -> isInitialized this = false ->
      no_backend (DocumentManager.embedding_env w 0) ->
      filter DocumentManager.is_update (DocumentManager.effects r) = []
      /\ In DocumentManager.regenerate_error_toast (DocumentManager.effects r))
  /\ (forall updatedDocuments,
        In (DocumentManager.onDocumentsUpdate updatedDocuments) (DocumentManager.effects r) ->
        map DocumentManager.unchanged_fields updatedDocuments
        = map DocumentManager.unchanged_fields documents)
  /\ (documents <> [] ->
      exists between,
        DocumentManager.effects r
        = DocumentManager.setIsProcessing true :: between ++ DocumentManager.reset_effects).
Proof.
  cbv zeta. destruct documents as [|doc rest].
  - split; [reflexivity|]. split; [intros _; split; reflexivity|].
    split; [intros N; contradiction|]. split; [intros u []|]. intros N. contradiction.
  - assert (Hne : doc :: rest <> []) by discriminate.
    set (documents := doc :: rest) in *.
    destruct (regenerate_loop_facts w (length documents) documents 0%nat [] this)
      as (Hu & Hd & _ & Hn & _).
    split; [rewrite (handleRegenerateEmbeddings_run w documents this Hne); reflexivity|].
    split; [intros E; contradiction|].
    split; [|split].
    + intros _ Hi N. rewrite (filter_update_regenerate w documents this Hne).
      rewrite (handleRegenerateEmbeddings_run w documents this Hne). cbv zeta.
      destruct (Hn Hne Hi N) as [e ->]. split; [reflexivity|].
      cbn [DocumentManager.effects]. apply in_or_app. right. apply in_or_app. right.
      apply in_or_app. left. right. left. reflexivity.
    + intros updated Hin.
      assert (F : In (DocumentManager.onDocumentsUpdate updated)
                    (filter DocumentManager.is_update
                       (DocumentManager.effects
                          (DocumentManager.handleRegenerateEmbeddings w documents this))))
        by (apply filter_In; split; [exact Hin | reflexivity]).
      rewrite (filter_update_regenerate w documents this Hne) in F.
      destruct (DocumentManager.outcome
                  (DocumentManager.regenerate_loop w (length documents) 0 documents [] this))
        as [docs|e] eqn:E; [|contradiction].
      destruct F as [F|[]]. injection F as <-.
      destruct (Hd docs eq_refl) as (added & -> & Hm). exact Hm.
    + intros _. rewrite (handleRegenerateEmbeddings_run w documents this Hne). cbv zeta.
      cbn [DocumentManager.effects].
      match goal with |- context [?l ++ ?m ++ DocumentManager.reset_effects] =>
        exists (DocumentManager.setProcessingProgress 0%float :: l ++ m) end.
      cbn [app]. do 2 f_equal. now rewrite <- app_assoc.
Qed.

(** X24. [handleDeleteDocument] passes to [onDocumentsUpdate] exactly the
    documents whose identifier differs from the given one, and shows the
    removal toast even when there was none to remove (the list is then
    unchanged). The word total does not grow. Deleting a document that was
    just appended, by an identifier no other document has, gives back the
    list as it was before. *)
Theorem handleDeleteDocument_removes (documents : list DocumentManager.Document)
  (id0 : jsstring) :
  exists updatedDocuments,
    DocumentManager.handleDeleteDocument documents id0
    = [ DocumentManager.onDocumentsUpdate updatedDocuments;
        DocumentManager.toast "Document removed"
          "Document and its embedding have been deleted" DocumentManager.default ]
    /\ (forall doc, In doc updatedDocuments
                    <-> In doc documents /\ DocumentManager.id doc <> id0)
    /\ (~ In id0 (map DocumentManager.id documents) -> updatedDocuments = documents)
    /\ (DocumentManager.total_words updatedDocuments
        <= DocumentManager.total_words documents)%nat
    /\ forall doc,
         ~ In (DocumentManager.id doc) (map DocumentManager.id documents) ->
         DocumentManager.handleDeleteDocument (documents ++ [doc]) (DocumentManager.id doc)
         = [ DocumentManager.onDocumentsUpdate documents;
             DocumentManager.toast "Document removed"
               "Document and its embedding have been deleted" DocumentManager.default ].
Proof.
  assert (K : forall id1 docs, ~ In id1 (map DocumentManager.id docs) ->
              filter (fun doc => negb (strict_equal (DocumentManager.id doc) id1)) docs = docs).
  { intros id1 docs N. apply filter_all. apply Forall_forall. intros doc Hd.
    apply negb_true_iff. destruct (strict_equal (DocumentManager.id doc) id1) eqn:S;
      [|reflexivity].
    apply strict_equal_spec in S. exfalso. apply N. rewrite <- S. now apply in_map. }
  eexists. split; [reflexivity|]. split; [|split; [|split]].
  - intros doc. rewrite filter_In, negb_true_iff.
    split; intros [H1 H2]; (split; [exact H1|]).
    + intros E. apply strict_equal_spec in E. congruence.
    + destruct (strict_equal (DocumentManager.id doc) id0) eqn:S; [|reflexivity].
      apply strict_equal_spec in S. contradiction.
  - apply K.
  - apply total_words_filter.
  - intros doc N. unfold DocumentManager.handleDeleteDocument. cbv zeta.
    rewrite filter_app, (K _ _ N). cbn [filter].
    replace (strict_equal (DocumentManager.id doc) (DocumentManager.id doc)) with true
      by (symmetry; now apply strict_equal_spec).
    cbn [negb]. now rewrite app_nil_r.
Qed.

(** ** The search form *)

Lemma trim_empty_iff (s : jsstring) : trim s = [] <-> visible s = [].
Proof.
  rewrite <- (visible_trim s). split; [now intros ->|].
  intros V. destruct (trim_clean s) as [Hs _].
  destruct (trim s) as [|c r]; [reflexivity|].
  cbn [starts_clean] in Hs. unfold visible in V. cbn [filter] in V.
  rewrite Hs in V. discriminate.
Qed.

(** X25. [handleSubmit] calls [onSearch] exactly when no search is being
    processed and the query holds something other than whitespace, and then
    with the trimmed query: a string that is not empty, neither starts nor
    ends with whitespace, and has the non-whitespace code units of the
    query. Otherwise it only prevents the default action of the form. *)
Theorem handleSubmit_searches (query : jsstring) (isProcessing : bool) :
  (forall q, In (SearchInterface.onSearch q) (SearchInterface.handleSubmit query isProcessing)
             <-> q = trim query /\ visible query <> [] /\ isProcessing = false)
  /\ (forall q, In (SearchInterface.onSearch q)
                   (SearchInterface.handleSubmit query isProcessing) ->
                q <> [] /\ starts_clean q /\ ends_clean q /\ visible q = visible query)
  /\ (visible query = [] \/ isProcessing = true ->
      SearchInterface.handleSubmit query isProcessing = [SearchInterface.preventDefault]).
Proof.
  assert (T : SearchInterface.truthy (trim query) = true <-> visible query <> []).
  { rewrite <- trim_empty_iff. destruct (trim query); cbn; split; congruence. }
  assert (A : forall q, In (SearchInterface.onSearch q)
                          (SearchInterface.handleSubmit query isProcessing)
                        <-> q = trim query /\ visible query <> [] /\ isProcessing = false).
  { intros q. unfold SearchInterface.handleSubmit.
    destruct (SearchInterface.truthy (trim query)) eqn:Tq; destruct isProcessing;
      cbn [andb negb In]; split; try (intros [D|[D|[]]]; try discriminate D);
      try (intros [D|[]]; discriminate D).
    - intros (_ & _ & D). discriminate D.
    - injection D as <-. repeat split. now apply T.
    - intros (-> & _). right. left. reflexivity.
    - intros (_ & _ & D). discriminate D.
    - intros (_ & N & _). apply T in N. discriminate N. }
  split; [exact A|]. split.
  - intros q Hq. apply A in Hq. destruct Hq as (-> & N & _).
    split; [intros E; apply trim_empty_iff in E; contradiction|].
    split; [apply trim_clean|]. split; [apply trim_clean | apply visible_trim].
  - intros H. unfold SearchInterface.handleSubmit.
    destruct H as [V| ->]; [|now rewrite andb_false_r].
    apply trim_empty_iff in V. now rewrite V.
Qed.
